(** * Pinia store runtime: a shallow embedding of the store factory

    The development follows the source files of the repository:
    - [subscriptions.ts]   : [addSubscription], [triggerSubscriptions];
    - the store module     : [mergeReactiveObjects], [createOptionsStore],
      [createSetupStore] (with its closures [$patch], [$reset], [$dispose],
      [wrapAction], [$subscribe]), [defineStore] and the accessor [useStore];
    - [createPinia.ts]     : the registry record.

    JavaScript objects live in a heap addressed by locations, so that object
    identity ([===]) is equality of locations and an in-place update is an
    update of the heap at an unchanged location. *)

From stdpp Require Import gmap strings list fin_maps.
From Stdlib Require Import ZArith.



(** ** JavaScript values and the object heap *)

Module JS.

Abbreviation loc := nat.

Inductive value :=
  | VUndefined
  | VNull
  | VBool (b : bool)
  | VNum (n : Z)
  | VStr (s : string)
  | VObj (l : loc)
  | VFun (f : nat).

#[global] Instance value_eq_dec : EqDecision value.
Proof. solve_decision. Defined.

(** The class of an object as [Object.prototype.toString] reports it. *)
Inductive tag := TObject | TMap | TSet | TPromise | TOther.

#[global] Instance tag_eq_dec : EqDecision tag.
Proof. solve_decision. Defined.

(** An object: its class, whether it is a Vue [ref] ([isRef]) or a reactive
    proxy ([isReactive]), whether [skipHydrate] marked it, its own enumerable
    string-keyed properties in insertion order, and, for a [Map] or a [Set],
    its entries or elements in insertion order. *)
Record obj := Obj {
  o_tag : tag;
  o_isRef : bool;
  o_isReactive : bool;
  o_skipHydrate : bool;
  o_props : list (string * value);
  o_entries : list (value * value);
  o_elems : list value
}.

Definition plain (ps : list (string * value)) : obj :=
  Obj TObject false false false ps [] [].

Abbreviation heap := (gmap loc obj).

(** Association lists in insertion order: a write to an existing key keeps
    its position, a write to a new key appends. *)
Section assoc.
Context {K V : Type} `{EqDecision K}.

Fixpoint assoc_get (k : K) (ps : list (K * V)) : option V :=
  match ps with
  | [] => None
  | (k', v) :: r => if decide (k = k') then Some v else assoc_get k r
  end.

Fixpoint assoc_set (k : K) (v : V) (ps : list (K * V)) : list (K * V) :=
  match ps with
  | [] => [(k, v)]
  | (k', v') :: r =>
      if decide (k = k') then (k, v) :: r else (k', v') :: assoc_set k v r
  end.

Lemma assoc_get_set_eq k v ps : assoc_get k (assoc_set k v ps) = Some v.
Proof.
  induction ps as [|[k' v'] r IH]; simpl.
  - by rewrite decide_True.
  - destruct (decide (k = k')) as [->|Hne]; simpl.
    + by rewrite decide_True.
    + by rewrite decide_False.
Qed.

Lemma assoc_get_set_ne k k' v ps :
  k ≠ k' → assoc_get k' (assoc_set k v ps) = assoc_get k' ps.
Proof.
  intros Hne. induction ps as [|[k0 v0] r IH]; simpl.
  - by rewrite decide_False.
  - destruct (decide (k = k0)) as [->|Hne0]; simpl.
    + by rewrite !decide_False.
    + destruct (decide (k' = k0)); [done | apply IH].
Qed.

Lemma assoc_get_set k k' v ps :
  assoc_get k' (assoc_set k v ps)
  = if decide (k = k') then Some v else assoc_get k' ps.
Proof.
  destruct (decide (k = k')) as [->|Hne];
    [apply assoc_get_set_eq | by apply assoc_get_set_ne].
Qed.

Lemma assoc_get_Some_elem k v ps : assoc_get k ps = Some v → k ∈ ps.*1.
Proof.
  induction ps as [|[k' v'] r IH]; simpl; [done|].
  destruct (decide (k = k')) as [->|Hne]; intros Hg.
  - apply list_elem_of_here.
  - apply list_elem_of_further. by apply IH.
Qed.

Lemma assoc_get_None_elem k ps : assoc_get k ps = None → k ∉ ps.*1.
Proof.
  induction ps as [|[k' v'] r IH]; simpl.
  - intros _. apply not_elem_of_nil.
  - destruct (decide (k = k')) as [->|Hne]; [done|].
    intros Hg. apply not_elem_of_cons. split; [done | by apply IH].
Qed.
End assoc.

Definition set_add (v : value) (vs : list value) : list value :=
  if decide (v ∈ vs) then vs else vs ++ [v].

(** A location that the heap does not hold reads as an empty object; a write
    to it does nothing.  JavaScript has no dangling references, so neither
    case arises on a heap built by allocation. *)
Definition empty_obj : obj := plain [].

Definition get_obj (h : heap) (l : loc) : obj := default empty_obj (h !! l).

(** [o[key]]: undefined when the property is absent. *)
Definition get (h : heap) (l : loc) (key : string) : value :=
  default VUndefined (assoc_get key (o_props (get_obj h l))).

(** [o.hasOwnProperty(key)] *)
Definition hasOwnProperty (h : heap) (l : loc) (key : string) : bool :=
  bool_decide (is_Some (assoc_get key (o_props (get_obj h l)))).

Definition with_props (f : list (string * value) → list (string * value))
    (o : obj) : obj :=
  Obj (o_tag o) (o_isRef o) (o_isReactive o) (o_skipHydrate o) (f (o_props o))
      (o_entries o) (o_elems o).

(** [o[key] = v] *)
Definition set (h : heap) (l : loc) (key : string) (v : value) : heap :=
  alter (with_props (assoc_set key v)) l h.

(** [m.set(k, v)] on a [Map] *)
Definition map_set (h : heap) (l : loc) (k v : value) : heap :=
  alter (λ o, Obj (o_tag o) (o_isRef o) (o_isReactive o) (o_skipHydrate o)
                  (o_props o) (assoc_set k v (o_entries o)) (o_elems o)) l h.

(** [s.add(v)] on a [Set] *)
Definition set_add_elem (h : heap) (l : loc) (v : value) : heap :=
  alter (λ o, Obj (o_tag o) (o_isRef o) (o_isReactive o) (o_skipHydrate o)
                  (o_props o) (o_entries o) (set_add v (o_elems o))) l h.

(** The keys a [for (const key in o)] loop visits: the own enumerable
    string keys, read when the loop starts. *)
Definition keys (h : heap) (l : loc) : list string := (o_props (get_obj h l)).*1.

Definition instanceofMap (h : heap) (l : loc) : bool :=
  bool_decide (o_tag (get_obj h l) = TMap).

Definition instanceofSet (h : heap) (l : loc) : bool :=
  bool_decide (o_tag (get_obj h l) = TSet).

(** Modelled from the spec: [isPlainObject] is imported from [./types], which
    is not among the source files; the spec calls its positive case a "plain
    data object".  Here: a reference to an object whose class is [Object].
    Being a [ref] or a reactive proxy does not change the class, which is why
    the merge tests [isRef] and [isReactive] separately. *)
Definition isPlainObject (h : heap) (v : value) : bool :=
  match v with
  | VObj l => bool_decide (o_tag (get_obj h l) = TObject)
  | _ => false
  end.

Definition isRef (h : heap) (v : value) : bool :=
  match v with VObj l => o_isRef (get_obj h l) | _ => false end.

Definition isReactive (h : heap) (v : value) : bool :=
  match v with VObj l => o_isReactive (get_obj h l) | _ => false end.

(** Allocation of a new object at the first free location. *)
Definition fresh_loc (h : heap) : loc := fresh (dom h).

Definition alloc (h : heap) (o : obj) : heap * loc :=
  let l := fresh_loc h in (<[l := o]> h, l).

End JS.

Import JS.

(** ** Computations: a state, and an outcome

    A JavaScript call either returns, or throws a value, or (in this model)
    does not finish within the recursion budget, which stands for the
    engine's [RangeError] on unbounded recursion.  The state reached is kept
    in every case: a throw does not undo the writes made before it. *)

Inductive outcome (A : Type) : Type :=
  | Ret (a : A)
  | Throw (e : value)
  | Fuel.
Arguments Ret {A} a.
Arguments Throw {A} e.
Arguments Fuel {A}.

Definition M (S A : Type) : Type := S → outcome A * S.

Definition ret {S A} (a : A) : M S A := λ s, (Ret a, s).

Definition bind {S A B} (m : M S A) (k : A → M S B) : M S B :=
  λ s, match m s with
       | (Ret a, s') => k a s'
       | (Throw e, s') => (Throw e, s')
       | (Fuel, s') => (Fuel, s')
       end.

Definition throw {S A} (e : value) : M S A := λ s, (Throw e, s).
Definition out_of_fuel {S A} : M S A := λ s, (Fuel, s).
Definition gets {S A} (f : S → A) : M S A := λ s, (Ret (f s), s).
Definition modify {S} (f : S → S) : M S unit := λ s, (Ret tt, f s).

Declare Scope js_scope.
Delimit Scope js_scope with js.
Notation "'do' x <- m ; k" := (bind m (λ x, k))
  (at level 10, x name, m at level 100, k at level 200,
   format "'[v' 'do'  x  <-  m ; '/' k ']'") : js_scope.
Notation "m ;; k" := (bind m (λ _, k))
  (at level 100, k at level 200, right associativity) : js_scope.
Open Scope js_scope.

(** [try { m } catch (e) { handler e }] *)
Definition try_catch {S A} (m : M S A) (handler : value → M S A) : M S A :=
  λ s, match m s with
       | (Throw e, s') => handler e s'
       | r => r
       end.

(** [l.forEach(body)] and [for (const x of l) body]: left to right, stopping
    at the first iteration that does not return. *)
Fixpoint for_each {S A} (l : list A) (body : A → M S unit) : M S unit :=
  match l with
  | [] => ret tt
  | a :: l' => body a ;; for_each l' body
  end.

(** A loop that collects what each iteration returns. *)
Fixpoint map_each {S A B} (l : list A) (body : A → M S B) : M S (list B) :=
  match l with
  | [] => ret []
  | a :: l' => do b <- body a; do bs <- map_each l' body; ret (b :: bs)
  end.

(** ** The reactive merge engine ([mergeReactiveObjects]) *)

Module Merge.

(** One iteration of the [for (const key in patchToApply)] loop.  [rec] is
    the recursive call. *)
Definition merge_key (rec : loc → loc → M heap value)
    (target patchToApply : loc) (key : string) : M heap unit :=
  do own <- gets (λ h, hasOwnProperty h patchToApply key);
  if negb own then ret tt
  else
    do subPatch <- gets (λ h, get h patchToApply key);
    do targetValue <- gets (λ h, get h target key);
    do recurse <- gets (λ h,
      isPlainObject h targetValue && isPlainObject h subPatch
      && hasOwnProperty h target key
      && negb (isRef h subPatch) && negb (isReactive h subPatch));
    match recurse, targetValue, subPatch with
    | true, VObj tl, VObj pl =>
        do r <- rec tl pl;
        modify (λ h, set h target key r)
    | _, _, _ => modify (λ h, set h target key subPatch)
    end.

(** [fuel] bounds the depth of the recursion. *)
Fixpoint mergeReactiveObjects (fuel : nat) (target patchToApply : loc)
    : M heap value :=
  match fuel with
  | 0 => out_of_fuel
  | S n =>
      do bothMaps <- gets (λ h, instanceofMap h target && instanceofMap h patchToApply);
      (if bothMaps : bool
       then do es <- gets (λ h, o_entries (get_obj h patchToApply));
            for_each es (λ '(k, v), modify (λ h, map_set h target k v))
       else ret tt) ;;
      do bothSets <- gets (λ h, instanceofSet h target && instanceofSet h patchToApply);
      (if bothSets : bool
       then do vs <- gets (λ h, o_elems (get_obj h patchToApply));
            for_each vs (λ v, modify (λ h, set_add_elem h target v))
       else ret tt) ;;
      do ks <- gets (λ h, keys h patchToApply);
      for_each ks (merge_key (mergeReactiveObjects n) target patchToApply) ;;
      ret (VObj target)
  end.

(** The state [{a: 1, b: {c: 2}}] at location 0 (the nested object at 1) and
    the patch [{b: {c: 3}}] at location 2 (its nested object at 3). *)
Definition ex_heap : heap :=
  <[0 := plain [("a", VNum 1); ("b", VObj 1)]]>
  (<[1 := plain [("c", VNum 2)]]>
  (<[2 := plain [("b", VObj 3)]]>
  (<[3 := plain [("c", VNum 3)]]> ∅))).

Definition ex_heap_merged : heap :=
  <[0 := plain [("a", VNum 1); ("b", VObj 1)]]>
  (<[1 := plain [("c", VNum 3)]]>
  (<[2 := plain [("b", VObj 3)]]>
  (<[3 := plain [("c", VNum 3)]]> ∅))).

Example merge_ex_heap :
  mergeReactiveObjects 2 0 2 ex_heap = (Ret (VObj 0), ex_heap_merged).
Proof. vm_compute. reflexivity. Qed.

(** *** The merge works in place *)

(** [obj_ext o o']: [o'] is [o] after writes: same class and flags, no
    property, entry or element removed. *)
Definition obj_ext (o o' : obj) : Prop :=
  o_tag o' = o_tag o ∧ o_isRef o' = o_isRef o ∧ o_isReactive o' = o_isReactive o
  ∧ (∀ k, is_Some (assoc_get k (o_props o)) → is_Some (assoc_get k (o_props o')))
  ∧ (∀ k, is_Some (assoc_get k (o_entries o)) → is_Some (assoc_get k (o_entries o')))
  ∧ (∀ v, v ∈ o_elems o → v ∈ o_elems o').

(** [heap_ext h h']: the same objects at the same locations, each one
    extended in place. *)
Definition heap_ext (h h' : heap) : Prop :=
  ∀ l, match h !! l, h' !! l with
       | Some o, Some o' => obj_ext o o'
       | None, None => True
       | _, _ => False
       end.

Lemma obj_ext_refl o : obj_ext o o.
Proof. by repeat split. Qed.

Lemma obj_ext_trans o1 o2 o3 : obj_ext o1 o2 → obj_ext o2 o3 → obj_ext o1 o3.
Proof.
  intros (?&?&?&?&?&?) (?&?&?&?&?&?). repeat split; try congruence; eauto.
Qed.

Lemma heap_ext_refl h : heap_ext h h.
Proof. intros l. destruct (h !! l); solve [done | apply obj_ext_refl]. Qed.

Lemma heap_ext_trans h1 h2 h3 : heap_ext h1 h2 → heap_ext h2 h3 → heap_ext h1 h3.
Proof.
  intros H12 H23 l. specialize (H12 l). specialize (H23 l).
  destruct (h1 !! l), (h2 !! l), (h3 !! l); try done.
  by eapply obj_ext_trans.
Qed.

Lemma heap_ext_alter f l h :
  (∀ o, obj_ext o (f o)) → heap_ext h (alter f l h).
Proof.
  intros Hf l'. destruct (decide (l = l')) as [->|Hne].
  - rewrite lookup_alter_eq. destruct (h !! l'); simpl; solve [done | apply Hf].
  - rewrite lookup_alter_ne by done.
    destruct (h !! l'); solve [done | apply obj_ext_refl].
Qed.

Lemma assoc_set_keeps {K V} `{EqDecision K} (k k' : K) (v : V) ps :
  is_Some (assoc_get k' ps) → is_Some (assoc_get k' (assoc_set k v ps)).
Proof. rewrite assoc_get_set. by case_decide. Qed.

Lemma heap_ext_set h l key v : heap_ext h (set h l key v).
Proof.
  apply heap_ext_alter. intros o. repeat split; try done.
  intros k. apply assoc_set_keeps.
Qed.

Lemma heap_ext_map_set h l k v : heap_ext h (map_set h l k v).
Proof.
  apply heap_ext_alter. intros o. repeat split; try done.
  intros k'. apply assoc_set_keeps.
Qed.

Lemma heap_ext_set_add_elem h l v : heap_ext h (set_add_elem h l v).
Proof.
  apply heap_ext_alter. intros o. repeat split; try done.
  intros v' Hv'. simpl. unfold set_add. case_decide; [done|].
  apply elem_of_app. by left.
Qed.

Lemma heap_ext_get_obj h h' l :
  heap_ext h h' → obj_ext (get_obj h l) (get_obj h' l).
Proof.
  intros Hext. specialize (Hext l). unfold get_obj.
  destruct (h !! l), (h' !! l); simpl; solve [done | apply obj_ext_refl].
Qed.

Lemma heap_ext_dom h h' : heap_ext h h' → dom h' = dom h.
Proof.
  intros Hext. apply set_eq. intros l. rewrite !elem_of_dom.
  specialize (Hext l). unfold is_Some.
  destruct (h !! l), (h' !! l); naive_solver.
Qed.

Lemma heap_ext_isPlainObject h h' v :
  heap_ext h h' → isPlainObject h' v = isPlainObject h v.
Proof.
  intros Hext. destruct v; try done. simpl.
  by destruct (heap_ext_get_obj _ _ l Hext) as (-> & _).
Qed.

Lemma heap_ext_isRef h h' v : heap_ext h h' → isRef h' v = isRef h v.
Proof.
  intros Hext. destruct v; try done. simpl.
  by destruct (heap_ext_get_obj _ _ l Hext) as (_ & -> & _).
Qed.

Lemma heap_ext_isReactive h h' v : heap_ext h h' → isReactive h' v = isReactive h v.
Proof.
  intros Hext. destruct v; try done. simpl.
  by destruct (heap_ext_get_obj _ _ l Hext) as (_ & _ & -> & _).
Qed.

Lemma heap_ext_hasOwnProperty h h' l k :
  heap_ext h h' → hasOwnProperty h l k = true → hasOwnProperty h' l k = true.
Proof.
  intros Hext. unfold hasOwnProperty. rewrite !bool_decide_eq_true.
  destruct (heap_ext_get_obj _ _ l Hext) as (_ & _ & _ & Hk & _). apply Hk.
Qed.

(** Invariants of loops and sequences. *)
Lemma bind_inv {S A B} (I : S → S → Prop) (m : M S A) (k : A → M S B) s :
  (∀ s1 s2 s3, I s1 s2 → I s2 s3 → I s1 s3) →
  I s (m s).2 → (∀ a s', I s' (k a s').2) → I s (bind m k s).2.
Proof.
  intros Htr Hm Hk. unfold bind. destruct (m s) as [[a|e|] s'] eqn:E; simpl in *;
    [|done..].
  eapply Htr; [exact Hm | apply Hk].
Qed.

Lemma for_each_inv {S A} (I : S → S → Prop) (l : list A) (body : A → M S unit) :
  (∀ s, I s s) → (∀ s1 s2 s3, I s1 s2 → I s2 s3 → I s1 s3) →
  (∀ a s, I s (body a s).2) → ∀ s, I s (for_each l body s).2.
Proof.
  intros Hrefl Htr Hbody. induction l as [|a l IH]; intros s; simpl.
  - apply Hrefl.
  - apply bind_inv; [done | apply Hbody | intros _ s'; apply IH].
Qed.

Lemma merge_key_heap_ext rec target patchToApply key h :
  (∀ tl pl h', heap_ext h' (rec tl pl h').2) →
  heap_ext h (merge_key rec target patchToApply key h).2.
Proof.
  intros Hrec. unfold merge_key, bind, gets, modify, ret. simpl.
  destruct (negb _); simpl; [apply heap_ext_refl|].
  destruct (_ && _ && _ && _ && _); simpl; [|apply heap_ext_set].
  destruct (get h target key) as [| | | | |tl|]; simpl; try apply heap_ext_set.
  destruct (get h patchToApply key) as [| | | | |pl|]; simpl; try apply heap_ext_set.
  specialize (Hrec tl pl h). destruct (rec tl pl h) as [[r|e|] h'']; simpl in *;
    try done.
  eapply heap_ext_trans; [exact Hrec | apply heap_ext_set].
Qed.

Lemma merge_heap_ext fuel target patchToApply h :
  heap_ext h (mergeReactiveObjects fuel target patchToApply h).2.
Proof.
  revert target patchToApply h.
  induction fuel as [|n IH]; intros target patchToApply h; simpl.
  - apply heap_ext_refl.
  - apply bind_inv; [apply heap_ext_trans | apply heap_ext_refl |].
    intros bothMaps h1.
    apply bind_inv; [apply heap_ext_trans | |].
    { destruct bothMaps; [|apply heap_ext_refl].
      apply bind_inv; [apply heap_ext_trans | apply heap_ext_refl |].
      intros es h'. apply for_each_inv;
        [apply heap_ext_refl | apply heap_ext_trans |].
      intros [k v] s. apply heap_ext_map_set. }
    intros _ h2. apply bind_inv; [apply heap_ext_trans | apply heap_ext_refl |].
    intros bothSets h3.
    apply bind_inv; [apply heap_ext_trans | |].
    { destruct bothSets; [|apply heap_ext_refl].
      apply bind_inv; [apply heap_ext_trans | apply heap_ext_refl |].
      intros vs h'. apply for_each_inv;
        [apply heap_ext_refl | apply heap_ext_trans |].
      intros v s. apply heap_ext_set_add_elem. }
    intros _ h4. apply bind_inv; [apply heap_ext_trans | apply heap_ext_refl |].
    intros ks h5. apply bind_inv; [apply heap_ext_trans | |].
    { apply for_each_inv; [apply heap_ext_refl | apply heap_ext_trans |].
      intros key s. apply merge_key_heap_ext. intros tl pl h'. apply IH. }
    intros _ h6. apply heap_ext_refl.
Qed.

(** Whatever the merge returns is the reference it was given. *)
Lemma merge_returns_target fuel target patchToApply h r h' :
  mergeReactiveObjects fuel target patchToApply h = (Ret r, h') →
  r = VObj target.
Proof.
  destruct fuel as [|n]; simpl; [done|].
  unfold bind, gets, ret. simpl.
  repeat (match goal with
          | |- context [match ?m with (_, _) => _ end] =>
              destruct m as [[?|?|] ?]; simpl; try done
          end).
  congruence.
Qed.

(** *** State trees

    A JSON-like state, or an object literal given to [$patch], seen as a
    tree: [Node l kids] is the plain object at location [l] with one child
    per key, [Leaf v] any other value. *)

Inductive tree :=
  | Leaf (v : value)
  | Node (l : loc) (kids : list (string * tree)).

Definition root (τ : tree) : value :=
  match τ with Leaf v => v | Node l _ => VObj l end.

Definition roots (kids : list (string * tree)) : list (string * value) :=
  (λ kc, (kc.1, root kc.2)) <$> kids.

Definition kids_all (P : tree → Prop) (kids : list (string * tree)) : Prop :=
  foldr (λ kc Q, P kc.2 ∧ Q) True kids.

Fixpoint locs (τ : tree) : list loc :=
  match τ with
  | Leaf _ => []
  | Node l kids => l :: flat_map (λ kc, locs kc.2) kids
  end.

Definition kids_locs (kids : list (string * tree)) : list loc :=
  flat_map (λ kc, locs kc.2) kids.

Fixpoint depth (τ : tree) : nat :=
  match τ with
  | Leaf _ => 0
  | Node _ kids => S (foldr (λ kc d, depth kc.2 `max` d) 0 kids)
  end.

(** The heap holds the tree: every node is a plain object whose properties
    are the roots of its children, in order. *)
Fixpoint holds (h : heap) (τ : tree) : Prop :=
  match τ with
  | Leaf _ => True
  | Node l kids =>
      (∃ o, h !! l = Some o ∧ o_tag o = TObject ∧ o_props o = roots kids)
      ∧ kids_all (holds h) kids
  end.

(** Keys are unique in every node, as in any JavaScript object. *)
Fixpoint keys_unique (τ : tree) : Prop :=
  match τ with
  | Leaf _ => True
  | Node _ kids => NoDup kids.*1 ∧ kids_all keys_unique kids
  end.

(** A target tree is described down to its leaves: no leaf is a plain
    object. *)
Fixpoint target_full (h : heap) (τ : tree) : Prop :=
  match τ with
  | Leaf v => isPlainObject h v = false
  | Node _ kids => kids_all (target_full h) kids
  end.

(** The values the merge descends into on the patch side. *)
Definition mergeable (h : heap) (v : value) : bool :=
  isPlainObject h v && negb (isRef h v) && negb (isReactive h v).

(** A patch tree: its nodes are neither refs nor reactive, and its leaves
    are the values the merge stores as they are. *)
Fixpoint patch_full (h : heap) (τ : tree) : Prop :=
  match τ with
  | Leaf v => mergeable h v = false
  | Node l kids =>
      isRef h (VObj l) = false ∧ isReactive h (VObj l) = false
      ∧ kids_all (patch_full h) kids
  end.

(** The merge as the specification words it: for each key of the patch, if
    the key exists on the target and both values are plain data objects,
    merge them recursively; otherwise overwrite the target's value with the
    incoming one.  Keys absent from the patch are left alone, and the target
    node keeps its location. *)
Fixpoint tree_merge (target patch : tree) {struct patch} : tree :=
  match target, patch with
  | Node tl tkids, Node _ pkids =>
      Node tl
        (foldl (λ acc kc,
                  assoc_set kc.1
                    (match assoc_get kc.1 acc, kc.2 with
                     | Some (Node l ks), Node _ _ => tree_merge (Node l ks) kc.2
                     | _, _ => kc.2
                     end) acc)
               tkids pkids)
  | _, _ => target
  end.

Definition merge_kid (acc : list (string * tree)) (kc : string * tree)
    : list (string * tree) :=
  assoc_set kc.1
    (match assoc_get kc.1 acc, kc.2 with
     | Some (Node l ks), Node _ _ => tree_merge (Node l ks) kc.2
     | _, _ => kc.2
     end) acc.

Lemma tree_merge_Node tl tkids pl pkids :
  tree_merge (Node tl tkids) (Node pl pkids)
  = Node tl (foldl merge_kid tkids pkids).
Proof. reflexivity. Qed.

(** The state and the patch of the example, as trees. *)
Definition ex_state : tree :=
  Node 0 [("a", Leaf (VNum 1)); ("b", Node 1 [("c", Leaf (VNum 2))])].
Definition ex_patch : tree :=
  Node 2 [("b", Node 3 [("c", Leaf (VNum 3))])].

Example tree_merge_ex :
  tree_merge ex_state ex_patch
  = Node 0 [("a", Leaf (VNum 1)); ("b", Node 1 [("c", Leaf (VNum 3))])].
Proof. reflexivity. Qed.

(** *** Trees: bookkeeping *)

Definition fp (τ : tree) : gset loc := list_to_set (locs τ).

Lemma kids_all_spec P kids :
  kids_all P kids ↔ ∀ kc, kc ∈ kids → P kc.2.
Proof.
  induction kids as [|kc kids IH]; simpl.
  - split; [intros _ kc Hin; by apply elem_of_nil in Hin | done].
  - rewrite IH. split.
    + intros [H1 H2] kc' [->|Hin]%elem_of_cons; eauto.
    + intros H. split; [apply H; left | intros kc' Hin; apply H; by right].
Qed.

Lemma assoc_get_elem {K V} `{EqDecision K} (k : K) (v : V) ps :
  assoc_get k ps = Some v → (k, v) ∈ ps.
Proof.
  induction ps as [|[k' v'] r IH]; simpl; [done|].
  case_decide as Hk; [intros [= ->]; subst; left | intros Hg; right; by apply IH].
Qed.

Lemma assoc_get_unique {K V} `{EqDecision K} (k : K) (v : V) ps :
  NoDup ps.*1 → (k, v) ∈ ps → assoc_get k ps = Some v.
Proof.
  induction ps as [|[k' v'] r IH]; simpl.
  - intros _ Hin. by apply elem_of_nil in Hin.
  - intros [Hnotin Hnd]%NoDup_cons [Heq|Hin]%elem_of_cons.
    + injection Heq as -> ->. by rewrite decide_True.
    + case_decide as Hk; [|by apply IH].
      subst k'. exfalso. apply Hnotin.
      apply list_elem_of_fmap. by exists (k, v).
Qed.

Lemma assoc_set_keys_NoDup {K V} `{EqDecision K} (k : K) (v : V) ps :
  NoDup ps.*1 → NoDup (assoc_set k v ps).*1.
Proof.
  induction ps as [|[k' v'] r IH]; simpl.
  - intros _. apply NoDup_singleton.
  - intros [Hnotin Hnd]%NoDup_cons. case_decide as Hk; simpl.
    + subst k'. by apply NoDup_cons.
    + apply NoDup_cons. split; [|by apply IH].
      intros ([k0 v0] & Hk0 & Hin)%list_elem_of_fmap. simpl in Hk0. subst k0.
      apply Hnotin, list_elem_of_fmap.
      assert (assoc_get k' (assoc_set k v r) = Some v0) as Hg.
      { apply assoc_get_unique; [by apply IH | done]. }
      rewrite assoc_get_set_ne in Hg by done.
      exists (k', v0). split; [done | by apply assoc_get_elem].
Qed.

Lemma roots_keys kids : (roots kids).*1 = kids.*1.
Proof. unfold roots. rewrite <-list_fmap_compose. by apply list_fmap_ext. Qed.

Lemma roots_get k kids : assoc_get k (roots kids) = root <$> assoc_get k kids.
Proof.
  induction kids as [|[k' c] r IH]; simpl; [done|]. by case_decide.
Qed.

Lemma roots_set k c kids :
  roots (assoc_set k c kids) = assoc_set k (root c) (roots kids).
Proof.
  induction kids as [|[k' c'] r IH]; simpl; [done|].
  case_decide; simpl; [done | by rewrite <-IH].
Qed.

Lemma elem_of_fp l τ : l ∈ fp τ ↔ l ∈ locs τ.
Proof. unfold fp. by rewrite elem_of_list_to_set. Qed.

Lemma locs_kid l kids kc :
  kc ∈ kids → ∀ x, x ∈ locs kc.2 → x ∈ locs (Node l kids).
Proof.
  intros Hin x Hx. simpl. right. apply list_elem_of_In, in_flat_map.
  exists kc. split; by apply list_elem_of_In.
Qed.

Lemma kids_locs_NoDup kids kc :
  NoDup (kids_locs kids) → kc ∈ kids → NoDup (locs kc.2).
Proof.
  induction kids as [|kc' r IH]; simpl.
  - intros _ Hin. by apply elem_of_nil in Hin.
  - intros (Hnd & _ & Hr)%NoDup_app [->|Hin]%elem_of_cons; [done | by apply IH].
Qed.

Lemma kids_locs_disjoint kids kc1 kc2 x :
  NoDup (kids_locs kids) → kc1 ∈ kids → kc2 ∈ kids → kc1 ≠ kc2 →
  x ∈ locs kc1.2 → x ∉ locs kc2.2.
Proof.
  induction kids as [|kc' r IH]; simpl.
  - intros _ Hin. by apply elem_of_nil in Hin.
  - intros (Hnd & Hdis & Hr)%NoDup_app Hin1 Hin2 Hne Hx1 Hx2.
    apply elem_of_cons in Hin1 as [->|Hin1];
      apply elem_of_cons in Hin2 as [->|Hin2]; try done.
    + apply (Hdis x Hx1). apply list_elem_of_In, in_flat_map.
      exists kc2. split; by apply list_elem_of_In.
    + apply (Hdis x Hx2). apply list_elem_of_In, in_flat_map.
      exists kc1. split; by apply list_elem_of_In.
    + by eapply IH.
Qed.

Lemma depth_kid l kids kc : kc ∈ kids → depth kc.2 < depth (Node l kids).
Proof.
  simpl. induction kids as [|kc' r IH]; simpl.
  - intros Hin. by apply elem_of_nil in Hin.
  - intros [->|Hin]%elem_of_cons; [lia | specialize (IH Hin); lia].
Qed.

(** [holds] looks at the heap only inside the tree. *)
Lemma holds_frame n h h' τ :
  depth τ ≤ n →
  (∀ l, l ∈ locs τ → h' !! l = h !! l) → holds h τ → holds h' τ.
Proof.
  revert τ. induction n as [|n IH]; intros [v|l kids] Hd Hfr; simpl; try done.
  { simpl in Hd. lia. }
  intros [(o & Hl & Ho) Hkids]. split.
  - exists o. rewrite Hfr; [done | left].
  - apply kids_all_spec. intros kc Hin. apply IH.
    + pose proof (depth_kid l kids kc Hin). lia.
    + intros x Hx. apply Hfr. by eapply locs_kid.
    + by apply (proj1 (kids_all_spec _ _) Hkids).
Qed.

Lemma target_full_ext n h h' τ :
  depth τ ≤ n → heap_ext h h' → target_full h τ → target_full h' τ.
Proof.
  revert τ. induction n as [|n IH]; intros [v|l kids] Hd Hext; simpl.
  - by rewrite (heap_ext_isPlainObject h h').
  - simpl in Hd. lia.
  - by rewrite (heap_ext_isPlainObject h h').
  - rewrite !kids_all_spec. intros Hk kc Hin. apply IH; [|done|by apply Hk].
    pose proof (depth_kid l kids kc Hin). lia.
Qed.

Lemma patch_full_ext n h h' τ :
  depth τ ≤ n → heap_ext h h' → patch_full h τ → patch_full h' τ.
Proof.
  revert τ. induction n as [|n IH]; intros [v|l kids] Hd Hext; simpl.
  - unfold mergeable. by rewrite (heap_ext_isPlainObject h h'),
      (heap_ext_isRef h h'), (heap_ext_isReactive h h').
  - simpl in Hd. lia.
  - unfold mergeable. by rewrite (heap_ext_isPlainObject h h'),
      (heap_ext_isRef h h'), (heap_ext_isReactive h h').
  - pose proof (heap_ext_isRef h h' (VObj l) Hext) as Hr.
    pose proof (heap_ext_isReactive h h' (VObj l) Hext) as Hre. simpl in Hr, Hre.
    rewrite Hr, Hre. intros (? & ? & Hk). repeat split; try done.
    revert Hk. rewrite !kids_all_spec. intros Hk kc Hin. apply IH; [|done|by apply Hk].
    pose proof (depth_kid l kids kc Hin). lia.
Qed.

Lemma holds_frame' h h' τ :
  (∀ l, l ∈ locs τ → h' !! l = h !! l) → holds h τ → holds h' τ.
Proof. by apply (holds_frame (depth τ)). Qed.

Lemma target_full_ext' h h' τ : heap_ext h h' → target_full h τ → target_full h' τ.
Proof. by apply (target_full_ext (depth τ)). Qed.

Lemma patch_full_ext' h h' τ : heap_ext h h' → patch_full h τ → patch_full h' τ.
Proof. by apply (patch_full_ext (depth τ)). Qed.

Lemma tree_merge_root tl tk p : root (tree_merge (Node tl tk) p) = VObj tl.
Proof. by destruct p. Qed.

Lemma kids_locs_elem x kids :
  x ∈ kids_locs kids ↔ ∃ kc, kc ∈ kids ∧ x ∈ locs kc.2.
Proof.
  unfold kids_locs. rewrite list_elem_of_In, in_flat_map.
  split; intros (kc & H1 & H2); exists kc; by rewrite ?list_elem_of_In in *.
Qed.

Lemma assoc_set_elem_of {K V} `{EqDecision K} (k : K) (v : V) ps kv :
  kv ∈ assoc_set k v ps → kv = (k, v) ∨ kv ∈ ps.
Proof.
  induction ps as [|[k' v'] r IH]; simpl.
  - intros ->%list_elem_of_singleton. by left.
  - case_decide as Hk.
    + intros [->|Hin]%elem_of_cons; [by left | right; by right].
    + intros [->|Hin]%elem_of_cons; [right; by left|].
      destruct (IH Hin) as [->|Hin']; [by left | right; by right].
Qed.

(** The merged tree is made of nodes of the target and of the patch. *)
Lemma tree_merge_locs n τt τp x :
  depth τp ≤ n →
  x ∈ locs (tree_merge τt τp) → x ∈ locs τt ∨ x ∈ locs τp.
Proof.
  revert τt τp. induction n as [|n IH]; intros τt τp Hd.
  { destruct τp as [v|pl pk]; [|simpl in Hd; lia]. destruct τt; simpl; auto. }
  destruct τp as [v|pl pk]; [destruct τt; simpl; auto|].
  destruct τt as [v|tl tk]; [simpl; auto|].
  rewrite tree_merge_Node. simpl.
  intros [->|Hx]%elem_of_cons; [left; left|].
  assert (x ∈ kids_locs tk ∨ x ∈ kids_locs pk) as [?|?];
    [|left; by right|right; by right].
  assert (∀ kc, kc ∈ pk → depth kc.2 ≤ n) as Hdk.
  { intros kc Hin. pose proof (depth_kid pl pk kc Hin). lia. }
  clear Hd. revert tk Hx. induction pk as [|[k c] pk IHpk]; intros acc; simpl.
  { by left. }
  intros Hx. destruct (IHpk (λ kc Hin, Hdk kc (list_elem_of_further _ _ _ Hin)) _ Hx)
    as [Hacc|Hpk].
  2:{ right. apply elem_of_app. by right. }
  apply kids_locs_elem in Hacc as (kc & Hin & Hxin).
  unfold merge_kid in Hin. simpl in Hin.
  apply assoc_set_elem_of in Hin as [->|Hin].
  2:{ left. apply kids_locs_elem. eauto. }
  simpl in Hxin.
  assert (x ∈ locs c ∨ ∃ ct, assoc_get k acc = Some ct ∧ x ∈ locs ct) as [?|(ct & Hct & ?)].
  { destruct (assoc_get k acc) as [[v|l ks]|] eqn:Hget; [by left| |by left].
    destruct c as [v|pl' pks]; [by left|].
    apply IH in Hxin as [?|?]; [right; eauto | by left |].
    apply (Hdk (k, Node pl' pks)). left. }
  - right. apply elem_of_app. by left.
  - left. apply kids_locs_elem. exists (k, ct). split; [|done].
    by apply assoc_get_elem.
Qed.

Lemma lookup_set h l key v l' :
  set h l key v !! l'
  = if decide (l = l') then with_props (assoc_set key v) <$> h !! l' else h !! l'.
Proof.
  unfold set. case_decide as Hl.
  - subst. by rewrite lookup_alter_eq.
  - by rewrite lookup_alter_ne.
Qed.

Lemma get_obj_Some h l o : h !! l = Some o → get_obj h l = o.
Proof. unfold get_obj. by intros ->. Qed.

Lemma holds_Node_plain h l ks : holds h (Node l ks) → isPlainObject h (VObj l) = true.
Proof.
  intros [(o & Hl & Ht & _) _]. simpl. rewrite (get_obj_Some _ _ _ Hl).
  by apply bool_decide_eq_true.
Qed.

(** *** The merge refines [tree_merge] *)

#[local] Arguments isPlainObject : simpl never.
#[local] Arguments isRef : simpl never.
#[local] Arguments isReactive : simpl never.

Definition node_at (h : heap) (l : loc) (kids : list (string * tree)) : Prop :=
  ∃ o, h !! l = Some o ∧ o_tag o = TObject ∧ o_props o = roots kids.

Lemma node_at_get h l kids k :
  node_at h l kids → get h l k = default VUndefined (root <$> assoc_get k kids).
Proof.
  intros (o & Hl & _ & Hp). unfold get.
  by rewrite (get_obj_Some _ _ _ Hl), Hp, roots_get.
Qed.

Lemma node_at_hasOwn h l kids k :
  node_at h l kids → hasOwnProperty h l k = bool_decide (is_Some (assoc_get k kids)).
Proof.
  intros (o & Hl & _ & Hp). unfold hasOwnProperty.
  rewrite (get_obj_Some _ _ _ Hl), Hp, roots_get.
  apply bool_decide_ext. by rewrite fmap_is_Some.
Qed.

Lemma node_at_set h l kids k c :
  node_at h l kids → node_at (set h l k (root c)) l (assoc_set k c kids).
Proof.
  intros (o & Hl & Ht & Hp). exists (with_props (assoc_set k (root c)) o).
  rewrite lookup_set, decide_True, Hl by done. simpl.
  by rewrite Hp, roots_set.
Qed.

Lemma node_at_frame h h' l kids :
  h' !! l = h !! l → node_at h l kids → node_at h' l kids.
Proof. intros Heq (o & Hl & H). exists o. by rewrite Heq. Qed.

Lemma assoc_set_elem_unique {K V} `{EqDecision K} (k : K) (v : V) ps kv :
  NoDup ps.*1 → kv ∈ assoc_set k v ps → kv = (k, v) ∨ (kv ∈ ps ∧ kv.1 ≠ k).
Proof.
  intros Hnd Hin. destruct kv as [k' v'].
  pose proof (assoc_get_unique k' v' _ (assoc_set_keys_NoDup k v ps Hnd) Hin) as Hg.
  rewrite assoc_get_set in Hg. case_decide as Hk.
  - left. congruence.
  - right. split; [by apply assoc_get_elem | simpl; congruence].
Qed.

Lemma merge_kid_locs acc k c c2 x :
  assoc_get k (merge_kid acc (k, c)) = Some c2 → x ∈ locs c2 →
  x ∈ locs c ∨ ∃ ct, assoc_get k acc = Some ct ∧ x ∈ locs ct.
Proof.
  unfold merge_kid. simpl. rewrite assoc_get_set_eq. intros [= <-].
  destruct (assoc_get k acc) as [[v|l ks]|] eqn:Hget; [by left| |by left].
  destruct c as [v|pl pk]; [by left|].
  intros [?|?]%(tree_merge_locs (depth (Node pl pk))); [right; eauto | by left | done].
Qed.

Section merge_loop.
Variable n : nat.
Hypothesis IH : ∀ tl tk pl pk h,
  holds h (Node tl tk) → holds h (Node pl pk) →
  target_full h (Node tl tk) → patch_full h (Node pl pk) →
  keys_unique (Node tl tk) → keys_unique (Node pl pk) →
  NoDup (locs (Node tl tk) ++ locs (Node pl pk)) →
  depth (Node pl pk) ≤ n →
  ∃ h', mergeReactiveObjects n tl pl h = (Ret (VObj tl), h')
      ∧ holds h' (tree_merge (Node tl tk) (Node pl pk))
      ∧ (∀ l, l ∉ locs (Node tl tk) → h' !! l = h !! l).

(** One iteration of the loop, at key [k] with patch child [c]. *)
Lemma merge_step tl pl pk acc h k c :
  tl ≠ pl →
  node_at h tl acc → node_at h pl pk →
  assoc_get k pk = Some c →
  holds h c → patch_full h c → keys_unique c → NoDup (locs c) →
  depth c ≤ n → tl ∉ locs c →
  (∀ ct, assoc_get k acc = Some ct →
     holds h ct ∧ target_full h ct ∧ keys_unique ct ∧ NoDup (locs ct)
     ∧ (tl ∉ locs ct) ∧ (∀ x, x ∈ locs ct → x ∉ locs c)) →
  ∃ h2, merge_key (mergeReactiveObjects n) tl pl k h = (Ret tt, h2)
      ∧ node_at h2 tl (merge_kid acc (k, c))
      ∧ (∀ c2, assoc_get k (merge_kid acc (k, c)) = Some c2 → holds h2 c2)
      ∧ (∀ l, l ≠ tl → (∀ ct, assoc_get k acc = Some ct → l ∉ locs ct) →
           h2 !! l = h !! l).
Proof.
  intros Hne Htl Hpl Hk Hc Hpf Hku Hnd Hd Htlc Hct.
  unfold merge_key, bind, gets, modify, ret. simpl.
  rewrite (node_at_hasOwn _ _ _ k Hpl), Hk.
  rewrite bool_decide_true by eauto. simpl.
  rewrite (node_at_get _ _ _ k Hpl), Hk. simpl.
  rewrite (node_at_get _ _ _ k Htl), (node_at_hasOwn _ _ _ k Htl).
  unfold merge_kid. simpl.
  (* the overwrite branch, whatever leads to it *)
  assert (node_at (set h tl k (root c)) tl (assoc_set k c acc)
      ∧ (∀ c2, assoc_get k (assoc_set k c acc) = Some c2 →
           holds (set h tl k (root c)) c2)
      ∧ (∀ l, l ≠ tl → (∀ ct, assoc_get k acc = Some ct → l ∉ locs ct) →
           set h tl k (root c) !! l = h !! l)) as Hover.
  { split; [by apply node_at_set|]. split.
    - intros c2. rewrite assoc_get_set_eq. intros [= <-].
      apply (holds_frame' h); [|done].
      intros l Hl. rewrite lookup_set, decide_False; [done|]. by intros ->.
    - intros l Hl _. by rewrite lookup_set, decide_False. }
  destruct (assoc_get k acc) as [[v|tl' tk']|] eqn:Hget; simpl.
  - (* the target holds a value that is not a plain object *)
    destruct (Hct _ eq_refl) as (_ & Hfull & _). simpl in Hfull.
    rewrite Hfull. simpl. eauto.
  - destruct c as [v|pl' pk'].
    + (* the incoming value is not one the merge descends into *)
      simpl in Hpf. unfold mergeable in Hpf. simpl.
      destruct (Hct _ eq_refl) as (Hh & _).
      rewrite (holds_Node_plain _ _ _ Hh). simpl in Hover |- *.
      rewrite ?bool_decide_true by eauto.
      destruct (isPlainObject h v), (isRef h v), (isReactive h v);
        simpl in Hpf |- *; try done; eauto.
    + (* both are plain objects: the recursive call *)
      destruct (Hct _ eq_refl) as (Hh & Hfull & Hkut & Hndt & Htlt & Hdis).
      simpl. rewrite (holds_Node_plain _ _ _ Hh), (holds_Node_plain _ _ _ Hc).
      rewrite ?bool_decide_true by eauto.
      destruct Hpf as (Hr & Hre & Hpfk). simpl in Hr, Hre.
      rewrite Hr, Hre. simpl.
      destruct (IH tl' tk' pl' pk' h) as (h1 & Hrun & Hh1 & Hfr); try done.
      { apply NoDup_app. repeat split; try done. }
      rewrite Hrun. simpl. eexists. split; [done|].
      assert (h1 !! tl = h !! tl) as Htl1 by (by apply Hfr).
      split; [|split].
      * change (VObj tl') with (root (tree_merge (Node tl' tk') (Node pl' pk'))).
        apply node_at_set. by apply (node_at_frame h).
      * intros c2. rewrite assoc_get_set_eq. intros [= <-].
        apply (holds_frame' h1); [|done].
        intros l Hl. rewrite lookup_set, decide_False; [done|]. intros ->.
        apply (tree_merge_locs (depth (Node pl' pk')) (Node tl' tk')
                 (Node pl' pk')) in Hl as [?|?]; done.
      * intros l Hl Hnot. rewrite lookup_set, decide_False by done.
        apply Hfr. by apply Hnot.
  - (* the key is new on the target *)
    simpl. eauto.
Qed.

(** The loop over the keys still to visit. *)
Lemma merge_loop tl pl pk : ∀ rest acc h,
  tl ≠ pl →
  node_at h tl acc → node_at h pl pk →
  NoDup acc.*1 → NoDup rest.*1 →
  (∀ kc, kc ∈ rest → assoc_get kc.1 pk = Some kc.2) →
  (∀ kc, kc ∈ rest →
     holds h kc.2 ∧ patch_full h kc.2 ∧ keys_unique kc.2 ∧ NoDup (locs kc.2)
     ∧ depth kc.2 ≤ n ∧ (tl ∉ locs kc.2)) →
  (∀ kc, kc ∈ acc → holds h kc.2 ∧ (tl ∉ locs kc.2)) →
  (∀ kc ct, kc ∈ rest → assoc_get kc.1 acc = Some ct →
     target_full h ct ∧ keys_unique ct ∧ NoDup (locs ct) ∧ (pl ∉ locs ct)
     ∧ (∀ kc', kc' ∈ rest → ∀ x, x ∈ locs ct → x ∉ locs kc'.2)
     ∧ (∀ kc', kc' ∈ acc → kc'.1 ≠ kc.1 → ∀ x, x ∈ locs ct → x ∉ locs kc'.2)) →
  ∃ h', for_each rest.*1 (merge_key (mergeReactiveObjects n) tl pl) h
        = (Ret tt, h')
      ∧ node_at h' tl (foldl merge_kid acc rest)
      ∧ (∀ kc, kc ∈ foldl merge_kid acc rest → holds h' kc.2)
      ∧ (∀ l, l ≠ tl →
           (∀ kc ct, kc ∈ rest → assoc_get kc.1 acc = Some ct → l ∉ locs ct) →
           h' !! l = h !! l).
Proof.
  induction rest as [|[k c] rest IHrest];
    intros acc h Hne Htl Hpl Hndacc Hndrest Hpk Hrest Hacc Htodo.
  { exists h. simpl. unfold ret. repeat split; try done.
    intros kc Hin. by apply Hacc. }
  apply NoDup_cons in Hndrest as [Hknotin Hndrest]. simpl in Hknotin.
  assert ((k, c) ∈ (k, c) :: rest) as Hhere by left.
  destruct (Hrest _ Hhere) as (Hc & Hpf & Hku & Hnd & Hd & Htlc).
  simpl in Hc, Hpf, Hku, Hnd, Hd, Htlc.
  destruct (merge_step tl pl pk acc h k c) as (h2 & Hrun & Htl2 & Hc2 & Hfr2);
    try done.
  { by apply (Hpk (k, c)). }
  { intros ct Hct.
    destruct (Htodo (k, c) ct Hhere Hct) as (? & ? & ? & ? & Hd1 & Hd2).
    pose proof (assoc_get_elem _ _ _ Hct) as Hin.
    destruct (Hacc _ Hin) as [? ?]. repeat split; try done.
    intros x Hx. by apply (Hd1 (k, c)). }
  assert (heap_ext h h2) as Hext.
  { pose proof (merge_key_heap_ext (mergeReactiveObjects n) tl pl k h
      (merge_heap_ext n)) as H. by rewrite Hrun in H. }
  (* what an object outside the footprint of this iteration keeps *)
  assert (∀ τ, (tl ∉ locs τ) →
            (∀ ct x, assoc_get k acc = Some ct → x ∈ locs ct → x ∉ locs τ) →
            holds h τ → holds h2 τ) as Hkeep.
  { intros τ Hτ1 Hτ2. apply holds_frame'. intros l Hl. apply Hfr2.
    - by intros ->.
    - intros ct Hct Hlct. by apply (Hτ2 ct l). }
  destruct (IHrest (merge_kid acc (k, c)) h2) as (h' & Hrun' & Htl' & Hall' & Hfr');
    try done.
  - apply (node_at_frame h); [|done]. apply Hfr2; [done|].
    intros ct Hct. by destruct (Htodo (k, c) ct Hhere Hct) as (_ & _ & _ & ? & _).
  - by apply assoc_set_keys_NoDup.
  - intros kc Hin. apply Hpk. by right.
  - intros kc Hin.
    destruct (Hrest kc (list_elem_of_further _ _ _ Hin)) as (?&?&?&?&?&?).
    repeat split; try done; [|by apply (patch_full_ext' h)].
    apply Hkeep; [done| |done].
    intros ct x Hct Hx.
    destruct (Htodo (k, c) ct Hhere Hct) as (_ & _ & _ & _ & Hd1 & _).
    apply (Hd1 kc); [by right | done].
  - intros kc Hin.
    apply assoc_set_elem_unique in Hin as [->|[Hin Hkne]]; [| |done].
    + simpl. split.
      * apply Hc2. unfold merge_kid. simpl. by rewrite assoc_get_set_eq.
      * intros Hx.
        eapply merge_kid_locs in Hx as [?|(ct & Hct & Hx)];
          [done | | unfold merge_kid; simpl; by rewrite assoc_get_set_eq].
        pose proof (assoc_get_elem _ _ _ Hct) as Hinct.
        by destruct (Hacc _ Hinct).
    + destruct (Hacc _ Hin) as [? ?]. split; [|done].
      apply Hkeep; [done| |done].
      intros ct x Hct Hx.
      destruct (Htodo (k, c) ct Hhere Hct) as (_ & _ & _ & _ & _ & Hd2).
      by apply (Hd2 kc).
  - intros kc ct Hin Hct.
    assert (kc.1 ≠ k) as Hkne.
    { intros Heq. apply Hknotin. rewrite <-Heq.
      apply list_elem_of_fmap. by exists kc. }
    unfold merge_kid in Hct. simpl in Hct.
    rewrite assoc_get_set_ne in Hct by done.
    destruct (Htodo kc ct (list_elem_of_further _ _ _ Hin) Hct)
      as (? & ? & ? & ? & Hd1 & Hd2).
    repeat split; try done; [by apply (target_full_ext' h) | |].
    + intros kc' Hin'. apply Hd1. by right.
    + intros kc' Hin' Hkne' x Hx.
      apply assoc_set_elem_unique in Hin' as [->|[Hin' Hkne2]]; [| |done].
      * simpl. intros Hx2.
        eapply merge_kid_locs in Hx2 as [?|(ct0 & Hct0 & Hx0)];
          [ | | unfold merge_kid; simpl; by rewrite assoc_get_set_eq].
        -- by apply (Hd1 (k, c) Hhere x).
        -- refine (Hd2 (k, ct0) _ _ x Hx Hx0);
             [by apply assoc_get_elem | simpl; congruence].
      * by apply (Hd2 kc').
  - exists h'. split; [|split; [done|split; [done|]]].
    + simpl. unfold bind. by rewrite Hrun.
    + intros l Hl Hnot. rewrite Hfr'; [apply Hfr2; [done|]|done|].
      * intros ct Hct. by apply (Hnot (k, c)).
      * intros kc ct Hin Hct.
        assert (kc.1 ≠ k) as Hkne.
        { intros Heq. apply Hknotin. rewrite <-Heq.
          apply list_elem_of_fmap. by exists kc. }
        unfold merge_kid in Hct. simpl in Hct.
        rewrite assoc_get_set_ne in Hct by done.
        apply (Hnot kc); [by right | done].
Qed.

End merge_loop.

Lemma node_at_tag h l kids : node_at h l kids → o_tag (get_obj h l) = TObject.
Proof. intros (o & Hl & Ht & _). by rewrite (get_obj_Some _ _ _ Hl). Qed.

Lemma node_at_keys h l kids : node_at h l kids → keys h l = kids.*1.
Proof.
  intros (o & Hl & _ & Hp). unfold keys.
  by rewrite (get_obj_Some _ _ _ Hl), Hp, roots_keys.
Qed.

(** On a state tree and a patch tree that share no object, the merge
    returns within [depth patch] nested calls, gives back the target
    reference, leaves the heap holding [tree_merge target patch], and writes
    to no object outside the target tree. *)
Lemma merge_refines n : ∀ tl tk pl pk h,
  holds h (Node tl tk) → holds h (Node pl pk) →
  target_full h (Node tl tk) → patch_full h (Node pl pk) →
  keys_unique (Node tl tk) → keys_unique (Node pl pk) →
  NoDup (locs (Node tl tk) ++ locs (Node pl pk)) →
  depth (Node pl pk) ≤ n →
  ∃ h', mergeReactiveObjects n tl pl h = (Ret (VObj tl), h')
      ∧ holds h' (tree_merge (Node tl tk) (Node pl pk))
      ∧ (∀ l, l ∉ locs (Node tl tk) → h' !! l = h !! l).
Proof.
  induction n as [|n IH]; intros tl tk pl pk h Ht Hp Hfull Hpf Hkt Hkp Hnd Hd.
  { simpl in Hd. lia. }
  destruct Ht as [Htl Htk]. destruct Hp as [Hpl Hpk].
  fold (node_at h tl tk) in Htl. fold (node_at h pl pk) in Hpl.
  destruct Hkt as [Hndtk Hkut]. destruct Hkp as [Hndpk Hkup].
  destruct Hpf as (_ & _ & Hpfk). simpl in Hfull.
  rewrite kids_all_spec in Htk, Hpk, Hkut, Hkup, Hpfk, Hfull.
  change (locs (Node tl tk) ++ locs (Node pl pk))
    with (tl :: (kids_locs tk ++ pl :: kids_locs pk)) in Hnd.
  apply NoDup_cons in Hnd as [Htlnot Hnd].
  apply NoDup_app in Hnd as (Hndt & Hdis & Hndp).
  apply NoDup_cons in Hndp as [Hplnot Hndp].
  rewrite elem_of_app, elem_of_cons in Htlnot.
  assert (tl ≠ pl) as Hne by (intros ->; apply Htlnot; right; by left).
  destruct (merge_loop n IH tl pl pk pk tk h) as (h' & Hrun & Htl' & Hall & Hfr);
    try done.
  - intros kc Hin. destruct kc as [k c]. by apply assoc_get_unique.
  - intros kc Hin. repeat split; try auto.
    + by eapply kids_locs_NoDup.
    + pose proof (depth_kid pl pk kc Hin). lia.
    + intros Hx. apply Htlnot. right. right. apply kids_locs_elem. eauto.
  - intros kc Hin. split; [auto|].
    intros Hx. apply Htlnot. left. apply kids_locs_elem. eauto.
  - intros kc ct Hin Hct. apply assoc_get_elem in Hct.
    repeat split.
    + by apply (Hfull (kc.1, ct)).
    + by apply (Hkut (kc.1, ct)).
    + by apply (kids_locs_NoDup tk (kc.1, ct)).
    + intros Hx. apply (Hdis pl); [|by left]. apply kids_locs_elem. eauto.
    + intros kc' Hin' x Hx Hx'. apply (Hdis x).
      * apply kids_locs_elem. eauto.
      * right. apply kids_locs_elem. eauto.
    + intros kc' Hin' Hkne x Hx.
      apply (kids_locs_disjoint tk (kc.1, ct) kc'); try done.
      intros <-. by apply Hkne.
  - exists h'. split; [|split].
    + cbn [mergeReactiveObjects]. unfold bind, gets, ret.
      unfold instanceofMap, instanceofSet.
      rewrite (node_at_tag _ _ _ Htl). simpl.
      rewrite (node_at_tag _ _ _ Htl). simpl.
      rewrite (node_at_keys _ _ _ Hpl). by rewrite Hrun.
    + rewrite tree_merge_Node. split; [done|]. by apply kids_all_spec.
    + intros l Hl. apply Hfr.
      * intros ->. apply Hl. by left.
      * intros kc ct Hin Hct Hlct. apply Hl. right.
        apply kids_locs_elem. exists (kc.1, ct). split; [|done].
        by apply assoc_get_elem.
Qed.

(** What [tree_merge] leaves under each key. *)
Lemma merge_kids_lookup k pk : ∀ tk,
  NoDup pk.*1 →
  assoc_get k (foldl merge_kid tk pk)
  = match assoc_get k pk with
    | None => assoc_get k tk
    | Some c =>
        Some (match assoc_get k tk, c with
              | Some (Node l ks), Node _ _ => tree_merge (Node l ks) c
              | _, _ => c
              end)
    end.
Proof.
  induction pk as [|[k' c'] pk IH]; intros tk Hnd; simpl; [done|].
  apply NoDup_cons in Hnd as [Hnotin Hnd]. simpl in Hnotin.
  rewrite IH by done. case_decide as Hk.
  - subst k'. destruct (assoc_get k pk) as [c0|] eqn:Hget.
    { exfalso. apply Hnotin. by eapply assoc_get_Some_elem. }
    unfold merge_kid. simpl. by rewrite assoc_get_set_eq.
  - unfold merge_kid. simpl. rewrite assoc_get_set_ne by done. done.
Qed.

(** *** Maps and sets *)

Definition same_collections (h h' : heap) : Prop :=
  ∀ l, o_entries (get_obj h' l) = o_entries (get_obj h l)
       ∧ o_elems (get_obj h' l) = o_elems (get_obj h l).

Lemma same_collections_refl h : same_collections h h.
Proof. by intros l. Qed.

Lemma same_collections_trans h1 h2 h3 :
  same_collections h1 h2 → same_collections h2 h3 → same_collections h1 h3.
Proof.
  intros H12 H23 l. destruct (H12 l) as [? ?], (H23 l) as [? ?].
  split; congruence.
Qed.

Lemma get_obj_alter f h l l' :
  get_obj (alter f l h) l'
  = if decide (l = l') then
      match h !! l' with Some o => f o | None => empty_obj end
    else get_obj h l'.
Proof.
  unfold get_obj. case_decide as Hl.
  - subst. rewrite lookup_alter_eq. by destruct (h !! l').
  - by rewrite lookup_alter_ne.
Qed.

Lemma same_collections_set h l key v : same_collections h (set h l key v).
Proof.
  intros l'. unfold set. rewrite get_obj_alter. case_decide; [|done].
  unfold get_obj. by destruct (h !! l').
Qed.

Lemma merge_key_same_collections rec target patchToApply key h :
  (∀ tl pl h', isPlainObject h' (VObj tl) = true →
               same_collections h' (rec tl pl h').2) →
  same_collections h (merge_key rec target patchToApply key h).2.
Proof.
  intros Hrec. unfold merge_key, bind, gets, modify, ret. simpl.
  destruct (negb _); simpl; [apply same_collections_refl|].
  destruct (isPlainObject h (get h target key)) eqn:Hplain; simpl;
    [|apply same_collections_set].
  destruct (_ && _ && _ && _); simpl; [|apply same_collections_set].
  destruct (get h target key) as [| | | | |tl|]; simpl;
    try apply same_collections_set.
  destruct (get h patchToApply key) as [| | | | |pl|]; simpl;
    try apply same_collections_set.
  specialize (Hrec tl pl h Hplain).
  destruct (rec tl pl h) as [[r|e|] h'']; simpl in *; try done.
  eapply same_collections_trans; [exact Hrec | apply same_collections_set].
Qed.

Lemma merge_keys_same_collections n target patchToApply ks h :
  (∀ tl pl h', isPlainObject h' (VObj tl) = true →
               same_collections h' (mergeReactiveObjects n tl pl h').2) →
  same_collections h
    (for_each ks (merge_key (mergeReactiveObjects n) target patchToApply) h).2.
Proof.
  intros IH. revert h. apply for_each_inv;
    [apply same_collections_refl | apply same_collections_trans |].
  intros key s. by apply merge_key_same_collections.
Qed.

(** A merge into a plain object touches no map entry and no set element. *)
Lemma merge_plain_same_collections n : ∀ target patchToApply h,
  isPlainObject h (VObj target) = true →
  same_collections h (mergeReactiveObjects n target patchToApply h).2.
Proof.
  induction n as [|n IH]; intros target patchToApply h Hplain; simpl.
  { apply same_collections_refl. }
  unfold isPlainObject in Hplain. apply bool_decide_eq_true in Hplain.
  unfold bind, gets, ret, instanceofMap, instanceofSet. simpl.
  rewrite Hplain. simpl. rewrite Hplain. simpl.
  pose proof (merge_keys_same_collections n target patchToApply
                (keys h patchToApply) h IH) as Hloop.
  destruct (for_each _ _ h) as [[[]|e|] h']; simpl in *; done.
Qed.

Definition map_set_all (target : loc) (es : list (value * value)) (h : heap) : heap :=
  foldl (λ h' kv, map_set h' target kv.1 kv.2) h es.

Definition set_add_all (target : loc) (vs : list value) (h : heap) : heap :=
  foldl (λ h' v, set_add_elem h' target v) h vs.

Lemma for_each_map_set target es h :
  for_each es (λ '(k, v), modify (λ h', map_set h' target k v)) h
  = (Ret tt, map_set_all target es h).
Proof.
  revert h. induction es as [|[k v] es IH]; intros h; simpl; [done|].
  unfold bind, modify. simpl. apply IH.
Qed.

Lemma for_each_set_add target vs h :
  for_each vs (λ v, modify (λ h', set_add_elem h' target v)) h
  = (Ret tt, set_add_all target vs h).
Proof.
  revert h. induction vs as [|v vs IH]; intros h; simpl; [done|].
  unfold bind, modify. simpl. apply IH.
Qed.

Lemma map_set_all_entries target es : ∀ h,
  is_Some (h !! target) →
  o_entries (get_obj (map_set_all target es h) target)
  = foldl (λ acc kv, assoc_set kv.1 kv.2 acc) (o_entries (get_obj h target)) es.
Proof.
  induction es as [|[k v] es IH]; intros h [o Ho]; simpl; [done|].
  unfold map_set_all in *. simpl. rewrite IH.
  - unfold map_set. rewrite get_obj_alter, decide_True, Ho by done. simpl.
    by rewrite (get_obj_Some _ _ _ Ho).
  - unfold map_set. rewrite lookup_alter_eq, Ho. eauto.
Qed.

Lemma set_add_all_elems target vs : ∀ h,
  is_Some (h !! target) →
  o_elems (get_obj (set_add_all target vs h) target)
  = foldl (λ acc v, set_add v acc) (o_elems (get_obj h target)) vs.
Proof.
  induction vs as [|v vs IH]; intros h [o Ho]; simpl; [done|].
  unfold set_add_all in *. simpl. rewrite IH.
  - unfold set_add_elem. rewrite get_obj_alter, decide_True, Ho by done. simpl.
    by rewrite (get_obj_Some _ _ _ Ho).
  - unfold set_add_elem. rewrite lookup_alter_eq, Ho. eauto.
Qed.

Lemma tag_not_Object_Some h l : o_tag (get_obj h l) ≠ TObject → is_Some (h !! l).
Proof. unfold get_obj. destruct (h !! l); [eauto | done]. Qed.

Lemma map_set_all_tag target es h l :
  o_tag (get_obj (map_set_all target es h) l) = o_tag (get_obj h l).
Proof.
  assert (heap_ext h (map_set_all target es h)) as Hext.
  { revert h. induction es as [|[k v] es IH]; intros h; [apply heap_ext_refl|].
    eapply heap_ext_trans; [apply (heap_ext_map_set h target k v) | apply IH]. }
  by destruct (heap_ext_get_obj _ _ l Hext) as (-> & _).
Qed.

Lemma set_add_all_tag target vs h l :
  o_tag (get_obj (set_add_all target vs h) l) = o_tag (get_obj h l).
Proof.
  assert (heap_ext h (set_add_all target vs h)) as Hext.
  { revert h. induction vs as [|v vs IH]; intros h; [apply heap_ext_refl|].
    eapply heap_ext_trans; [apply (heap_ext_set_add_elem h target v) | apply IH]. }
  by destruct (heap_ext_get_obj _ _ l Hext) as (-> & _).
Qed.

(** Merging a [Map] into a [Map]: the entries of the patch are [set] into
    the target, whatever the outcome of the property loop that follows. *)
Lemma merge_Map_entries n target patchToApply h :
  instanceofMap h target = true → instanceofMap h patchToApply = true →
  o_entries (get_obj (mergeReactiveObjects (S n) target patchToApply h).2 target)
  = foldl (λ acc kv, assoc_set kv.1 kv.2 acc)
          (o_entries (get_obj h target)) (o_entries (get_obj h patchToApply)).
Proof.
  intros Ht Hp. simpl. unfold bind, gets, ret. simpl. rewrite Ht, Hp. simpl.
  rewrite for_each_map_set. simpl.
  apply bool_decide_eq_true in Ht.
  unfold instanceofSet. rewrite map_set_all_tag, Ht. simpl.
  pose proof (merge_keys_same_collections n target patchToApply
    (keys (map_set_all target (o_entries (get_obj h patchToApply)) h) patchToApply)
    (map_set_all target (o_entries (get_obj h patchToApply)) h)
    (merge_plain_same_collections n)) as Hloop.
  destruct (for_each _ _ _) as [[[]|e|] h']; simpl in *;
    (rewrite (proj1 (Hloop target)); apply map_set_all_entries,
       tag_not_Object_Some; by rewrite Ht).
Qed.

(** Merging a [Set] into a [Set]: the elements of the patch are [add]ed to
    the target. *)
Lemma merge_Set_elems n target patchToApply h :
  instanceofSet h target = true → instanceofSet h patchToApply = true →
  o_elems (get_obj (mergeReactiveObjects (S n) target patchToApply h).2 target)
  = foldl (λ acc v, set_add v acc)
          (o_elems (get_obj h target)) (o_elems (get_obj h patchToApply)).
Proof.
  intros Ht Hp. simpl. unfold bind, gets, ret. simpl.
  apply bool_decide_eq_true in Ht as Ht'.
  unfold instanceofMap. rewrite Ht'. simpl. rewrite Ht, Hp. simpl.
  rewrite for_each_set_add. simpl.
  pose proof (merge_keys_same_collections n target patchToApply
    (keys (set_add_all target (o_elems (get_obj h patchToApply)) h) patchToApply)
    (set_add_all target (o_elems (get_obj h patchToApply)) h)
    (merge_plain_same_collections n)) as Hloop.
  destruct (for_each _ _ _) as [[[]|e|] h']; simpl in *;
    (rewrite (proj2 (Hloop target)); apply set_add_all_elems,
       tag_not_Object_Some; by rewrite Ht').
Qed.

Definition kids (τ : tree) : list (string * tree) :=
  match τ with Leaf _ => [] | Node _ ks => ks end.

(** C2 — merge engine semantics.  [mergeReactiveObjects target patch]:
    (1) whatever the inputs and however the call ends, it works in place (no
    object is replaced, no class or flag changes, no property, entry or
    element is removed anywhere) and a value it returns is the target
    reference; (2) on a state tree and a patch tree that share no object it
    returns the target within [depth patch] nested calls, leaves the heap
    holding [tree_merge target patch], the merge in the words of the
    specification, and writes to no object outside the target tree; (3)
    under each key of the patch, [tree_merge] holds the recursive merge when
    the key exists on the target and both values are plain objects, and the
    incoming value otherwise (undefined included); a key absent from the
    patch keeps its value; (4) the entries of a [Map] patch are set into a
    [Map] target and (5) the elements of a [Set] patch are added to a [Set]
    target, in place; (6) patching [{a: 1, b: {c: 2}}] with [{b: {c: 3}}]
    yields [{a: 1, b: {c: 3}}] in the same two objects. *)
Theorem merge_engine_semantics :
  (∀ fuel target patchToApply h,
     heap_ext h (mergeReactiveObjects fuel target patchToApply h).2
     ∧ ∀ r, (mergeReactiveObjects fuel target patchToApply h).1 = Ret r →
            r = VObj target)
  ∧ (∀ fuel tl tk pl pk h,
       holds h (Node tl tk) → holds h (Node pl pk) →
       target_full h (Node tl tk) → patch_full h (Node pl pk) →
       keys_unique (Node tl tk) → keys_unique (Node pl pk) →
       NoDup (locs (Node tl tk) ++ locs (Node pl pk)) →
       depth (Node pl pk) ≤ fuel →
       ∃ h', mergeReactiveObjects fuel tl pl h = (Ret (VObj tl), h')
           ∧ holds h' (tree_merge (Node tl tk) (Node pl pk))
           ∧ (∀ l, l ∉ locs (Node tl tk) → h' !! l = h !! l))
  ∧ (∀ tl tk pl pk k,
       NoDup pk.*1 →
       root (tree_merge (Node tl tk) (Node pl pk)) = VObj tl
       ∧ assoc_get k (kids (tree_merge (Node tl tk) (Node pl pk)))
         = match assoc_get k pk with
           | None => assoc_get k tk
           | Some c =>
               Some (match assoc_get k tk, c with
                     | Some (Node l ks), Node _ _ => tree_merge (Node l ks) c
                     | _, _ => c
                     end)
           end)
  ∧ (∀ n target patchToApply h,
       instanceofMap h target = true → instanceofMap h patchToApply = true →
       o_entries (get_obj (mergeReactiveObjects (S n) target patchToApply h).2 target)
       = foldl (λ acc kv, assoc_set kv.1 kv.2 acc)
               (o_entries (get_obj h target)) (o_entries (get_obj h patchToApply)))
  ∧ (∀ n target patchToApply h,
       instanceofSet h target = true → instanceofSet h patchToApply = true →
       o_elems (get_obj (mergeReactiveObjects (S n) target patchToApply h).2 target)
       = foldl (λ acc v, set_add v acc)
               (o_elems (get_obj h target)) (o_elems (get_obj h patchToApply)))
  ∧ mergeReactiveObjects 2 0 2 ex_heap = (Ret (VObj 0), ex_heap_merged).
Proof.
  split; [|split; [|split; [|split; [|split]]]].
  - intros fuel target patchToApply h. split; [apply merge_heap_ext|].
    intros r Hr. destruct (mergeReactiveObjects _ _ _ _) as [o h'] eqn:Hrun.
    simpl in Hr. subst o. by eapply merge_returns_target.
  - intros fuel. apply merge_refines.
  - intros tl tk pl pk k Hnd. split; [done|].
    rewrite tree_merge_Node. simpl. by apply merge_kids_lookup.
  - apply merge_Map_entries.
  - apply merge_Set_elems.
  - apply merge_ex_heap.
Qed.

Lemma merge_engine_semantics_witness :
  ∃ h', mergeReactiveObjects 2 0 2 ex_heap = (Ret (VObj 0), h')
      ∧ holds h' (tree_merge ex_state ex_patch)
      ∧ (∀ l, l ∉ locs ex_state → h' !! l = ex_heap !! l).
Proof.
  apply (proj1 (proj2 merge_engine_semantics) 2 0
           [("a", Leaf (VNum 1)); ("b", Node 1 [("c", Leaf (VNum 2))])]
           2 [("b", Node 3 [("c", Leaf (VNum 3))])] ex_heap).
  - split; [eexists; split; [vm_compute; reflexivity | split; reflexivity]|].
    simpl. repeat split. eexists. split; [vm_compute; reflexivity | split; reflexivity].
  - split; [eexists; split; [vm_compute; reflexivity | split; reflexivity]|].
    simpl. repeat split. eexists. split; [vm_compute; reflexivity | split; reflexivity].
  - simpl. repeat split; reflexivity.
  - simpl. repeat split; reflexivity.
  - simpl. repeat split; apply (bool_decide_unpack _); vm_compute; exact I.
  - simpl. repeat split; apply (bool_decide_unpack _); vm_compute; exact I.
  - apply (bool_decide_unpack _). vm_compute. exact I.
  - simpl. lia.
Defined.

(** *** The footprint of a merge

    A set of locations [R] is closed in a heap when the properties of its
    objects reference only objects of [R].  A merge whose target and patch
    are in a closed set writes inside that set only. *)

Definition closed (R : loc → Prop) (h : heap) : Prop :=
  ∀ l k l', R l → get h l k = VObj l' → R l'.

Definition within (R : loc → Prop) (h h' : heap) : Prop :=
  closed R h → closed R h' ∧ ∀ l, ¬ R l → h' !! l = h !! l.

Lemma within_refl R h : within R h h.
Proof. by intros Hc. Qed.

Lemma within_trans R h1 h2 h3 : within R h1 h2 → within R h2 h3 → within R h1 h3.
Proof.
  intros H12 H23 Hc. destruct (H12 Hc) as [Hc2 Hf2]. destruct (H23 Hc2) as [Hc3 Hf3].
  split; [done|]. intros l Hl. by rewrite Hf3, Hf2.
Qed.

Lemma get_set h l key v l0 k0 :
  get (set h l key v) l0 k0
  = if decide (l = l0 ∧ key = k0 ∧ is_Some (h !! l)) then v else get h l0 k0.
Proof.
  unfold get, set. rewrite get_obj_alter. case_decide as Hl.
  - subst l0. destruct (h !! l) as [o|] eqn:Ho.
    + simpl. rewrite assoc_get_set. unfold get_obj. rewrite Ho. simpl.
      destruct (decide (key = k0)) as [->|Hk].
      * by rewrite decide_True by eauto.
      * rewrite decide_False; [done|]. by intros (_ & ? & _).
    + rewrite decide_False; [|by intros (_ & _ & [? ?])].
      unfold get_obj. by rewrite Ho.
  - rewrite decide_False; [done|]. by intros (? & _).
Qed.

Lemma within_set R h l key v :
  R l → (∀ l', v = VObj l' → R l') → within R h (set h l key v).
Proof.
  intros Hl Hv Hc. split.
  - intros l0 k0 l' Hl0. rewrite get_set. case_decide; [apply Hv | by apply Hc].
  - intros l0 Hl0. unfold set. rewrite lookup_alter_ne; [done|]. by intros ->.
Qed.

Lemma within_map_set R h l k v : R l → within R h (map_set h l k v).
Proof.
  intros Hl Hc. split.
  - intros l0 k0 l' Hl0. unfold get, map_set. rewrite get_obj_alter.
    case_decide; [subst l0|by apply Hc].
    intros Hg. apply (Hc l k0 l' Hl0). unfold get, get_obj.
    by destruct (h !! l).
  - intros l0 Hl0. unfold map_set. rewrite lookup_alter_ne; [done|]. by intros ->.
Qed.

Lemma within_set_add_elem R h l v : R l → within R h (set_add_elem h l v).
Proof.
  intros Hl Hc. split.
  - intros l0 k0 l' Hl0. unfold get, set_add_elem. rewrite get_obj_alter.
    case_decide; [subst l0|by apply Hc].
    intros Hg. apply (Hc l k0 l' Hl0). unfold get, get_obj.
    by destruct (h !! l).
  - intros l0 Hl0. unfold set_add_elem. rewrite lookup_alter_ne; [done|]. by intros ->.
Qed.

Lemma merge_key_within R rec target patchToApply key h :
  (∀ tl pl h', R tl → R pl → within R h' (rec tl pl h').2) →
  (∀ tl pl h' r h'', rec tl pl h' = (Ret r, h'') → r = VObj tl) →
  R target → R patchToApply →
  within R h (merge_key rec target patchToApply key h).2.
Proof.
  intros Hrec Hret Ht Hp Hc.
  assert (within R h (set h target key (get h patchToApply key))) as Hover.
  { apply within_set; [done|]. intros l' Hl'. by apply (Hc patchToApply key l'). }
  unfold merge_key, bind, gets, modify, ret. simpl.
  destruct (negb _); simpl; [by apply within_refl|].
  destruct (_ && _ && _ && _ && _); simpl; [|by apply Hover].
  destruct (get h target key) as [| | | | |tl|] eqn:Htv; simpl; try by apply Hover.
  destruct (get h patchToApply key) as [| | | | |pl|] eqn:Hsp; simpl;
    try by apply Hover.
  assert (R tl) as Htl by (by apply (Hc target key tl)).
  assert (R pl) as Hpl by (by apply (Hc patchToApply key pl)).
  specialize (Hrec tl pl h Htl Hpl). specialize (Hret tl pl h).
  destruct (rec tl pl h) as [[r|e|] h'']; simpl in *; try by apply Hrec.
  rewrite (Hret r h'' eq_refl).
  refine (within_trans R h h'' _ Hrec _ Hc).
  apply within_set; [done|]. by intros l' [= <-].
Qed.

Lemma merge_within R fuel : ∀ target patchToApply h,
  R target → R patchToApply →
  within R h (mergeReactiveObjects fuel target patchToApply h).2.
Proof.
  induction fuel as [|n IH]; intros target patchToApply h Ht Hp; simpl.
  { apply within_refl. }
  apply bind_inv; [apply within_trans | apply within_refl |].
  intros bothMaps h1.
  apply bind_inv; [apply within_trans | |].
  { destruct bothMaps; [|apply within_refl].
    apply bind_inv; [apply within_trans | apply within_refl |].
    intros es h'. apply for_each_inv; [apply within_refl | apply within_trans |].
    intros [k v] s. by apply within_map_set. }
  intros _ h2. apply bind_inv; [apply within_trans | apply within_refl |].
  intros bothSets h3.
  apply bind_inv; [apply within_trans | |].
  { destruct bothSets; [|apply within_refl].
    apply bind_inv; [apply within_trans | apply within_refl |].
    intros vs h'. apply for_each_inv; [apply within_refl | apply within_trans |].
    intros v s. by apply within_set_add_elem. }
  intros _ h4. apply bind_inv; [apply within_trans | apply within_refl |].
  intros ks h5. apply bind_inv; [apply within_trans | |].
  { apply for_each_inv; [apply within_refl | apply within_trans |].
    intros key s. apply merge_key_within; try done.
    intros tl pl h' r h''. apply merge_returns_target. }
  intros _ h6. apply within_refl.
Qed.

End Merge.

(** ** The store runtime *)

Module Pinia.

Import Merge.

Abbreviation cb := nat.
Abbreviation symbol := nat.
Abbreviation pinia_ref := nat.
Abbreviation store_ref := nat.
Abbreviation invocation := nat.

(** Modelled from the spec: [MutationType] is declared in [./types], which is
    not among the source files; the spec lists the kinds of a mutation event
    as direct-change, patch-by-object and patch-by-function. *)
Inductive MutationType := direct | patchObject | patchFunction.

#[global] Instance MutationType_eq_dec : EqDecision MutationType.
Proof. solve_decision. Defined.

(** The event a state subscriber receives ([SubscriptionCallbackMutation]). *)
Record mutation := Mutation {
  m_type : MutationType;
  m_storeId : string;
  m_payload : option value;
  m_events : list value
}.

(** How a promise ends. *)
Inductive settlement := Fulfilled (v : value) | Rejected (e : value).

(** A property of the object a setup function returns, by the class the
    store factory sorts it into. *)
Inductive sprop :=
  | SRef (l : loc)                    (* a ref that is not a computed *)
  | SReactive (l : loc)               (* a reactive object *)
  | SToRef (o : loc) (key : string)   (* [toRef(o, key)]: a ref onto [o[key]] *)
  | SComputed (g : cb)                (* a computed *)
  | SFunction (f : cb)                (* a function *)
  | SWrapped (name : string) (f : cb) (* a function after [wrapAction] *)
  | SValue (v : value).               (* anything else *)

(** The variables a call of [createSetupStore] closes over: one record per
    store instance. *)
Record store_state := Store {
  s_id : string;
  s_pinia : pinia_ref;
  s_hot : bool;
  s_isOptionsStore : bool;
  s_stateInit : option cb;
  s_isListening : bool;
  s_isSyncListening : bool;
  s_subscriptions : list cb;
  s_actionSubscriptions : list cb;
  s_activeListener : option symbol;
  s_debuggerEvents : list value;
  s_hotState : loc;
  s_props : list (string * sprop)
}.

(** The registry ([createPinia]): [p_state] is the object [pinia.state.value],
    [p_s] the map [_s] from store id to instance, [p_p] the installed
    plugins, [p_active] whether the scope [_e] is active. *)
Record pinia_state := PiniaState {
  p_state : loc;
  p_s : gmap string store_ref;
  p_p : list cb;
  p_toBeInstalled : list cb;
  p_a : bool;
  p_active : bool;
  p_testing : bool
}.

(** What [nextTick().then(...)] leaves to run at the next tick. *)
Inductive task := ReEnableListening (s : store_ref) (myListenerId : symbol).

(** What the runtime did that an observer can see: the callbacks it called,
    with their arguments, and the warnings it printed. *)
Inductive event :=
  | SubscriberCalled (c : cb) (m : mutation) (state : value)
  | ListenerCalled (c : cb) (name : string) (args : list value) (store : store_ref)
  | AfterCalled (c : cb) (resolvedReturn : value)
  | OnErrorCalled (c : cb) (error : value)
  | Warned (msg : string).

Record World := MkWorld {
  w_heap : heap;
  w_pinias : gmap pinia_ref pinia_state;
  w_stores : gmap store_ref store_state;
  w_activePinia : option pinia_ref;
  w_injected : option pinia_ref;
  w_microtasks : list task;
  w_nextSymbol : symbol;
  w_afterLists : gmap invocation (list cb);
  w_onErrorLists : gmap invocation (list cb);
  w_trace : list event
}.

(** *** Reading and writing the world *)

Definition with_heap (f : heap → heap) (w : World) : World :=
  MkWorld (f (w_heap w)) (w_pinias w) (w_stores w) (w_activePinia w)
          (w_injected w) (w_microtasks w) (w_nextSymbol w)
          (w_afterLists w) (w_onErrorLists w) (w_trace w).

Definition with_pinias (f : gmap pinia_ref pinia_state → gmap pinia_ref pinia_state)
    (w : World) : World :=
  MkWorld (w_heap w) (f (w_pinias w)) (w_stores w) (w_activePinia w)
          (w_injected w) (w_microtasks w) (w_nextSymbol w)
          (w_afterLists w) (w_onErrorLists w) (w_trace w).

Definition with_stores (f : gmap store_ref store_state → gmap store_ref store_state)
    (w : World) : World :=
  MkWorld (w_heap w) (w_pinias w) (f (w_stores w)) (w_activePinia w)
          (w_injected w) (w_microtasks w) (w_nextSymbol w)
          (w_afterLists w) (w_onErrorLists w) (w_trace w).

Definition with_activePinia (p : option pinia_ref) (w : World) : World :=
  MkWorld (w_heap w) (w_pinias w) (w_stores w) p
          (w_injected w) (w_microtasks w) (w_nextSymbol w)
          (w_afterLists w) (w_onErrorLists w) (w_trace w).

Definition with_microtasks (f : list task → list task) (w : World) : World :=
  MkWorld (w_heap w) (w_pinias w) (w_stores w) (w_activePinia w)
          (w_injected w) (f (w_microtasks w)) (w_nextSymbol w)
          (w_afterLists w) (w_onErrorLists w) (w_trace w).

Definition with_nextSymbol (n : symbol) (w : World) : World :=
  MkWorld (w_heap w) (w_pinias w) (w_stores w) (w_activePinia w)
          (w_injected w) (w_microtasks w) n
          (w_afterLists w) (w_onErrorLists w) (w_trace w).

Definition with_afterLists (f : gmap invocation (list cb) → gmap invocation (list cb))
    (w : World) : World :=
  MkWorld (w_heap w) (w_pinias w) (w_stores w) (w_activePinia w)
          (w_injected w) (w_microtasks w) (w_nextSymbol w)
          (f (w_afterLists w)) (w_onErrorLists w) (w_trace w).

Definition with_onErrorLists (f : gmap invocation (list cb) → gmap invocation (list cb))
    (w : World) : World :=
  MkWorld (w_heap w) (w_pinias w) (w_stores w) (w_activePinia w)
          (w_injected w) (w_microtasks w) (w_nextSymbol w)
          (w_afterLists w) (f (w_onErrorLists w)) (w_trace w).

Definition with_trace (f : list event → list event) (w : World) : World :=
  MkWorld (w_heap w) (w_pinias w) (w_stores w) (w_activePinia w)
          (w_injected w) (w_microtasks w) (w_nextSymbol w)
          (w_afterLists w) (w_onErrorLists w) (f (w_trace w)).

(** User code (state initialisers, mutators, subscribers, actions, hooks,
    plugins) runs on the object heap: it reads and writes objects and may
    throw.  The variables a store closes over are out of its reach. *)
Definition lift_heap {A} (m : M heap A) : M World A :=
  λ w, let '(r, h) := m (w_heap w) in (r, with_heap (λ _, h) w).

Definition log (e : event) : M World unit := modify (with_trace (λ t, t ++ [e])).

Definition dummy_store : store_state :=
  Store EmptyString 0 false false None false false [] [] None [] 0 [].

Definition dummy_pinia : pinia_state := PiniaState 0 ∅ [] [] false false false.

Definition the_store (w : World) (s : store_ref) : store_state :=
  default dummy_store (w_stores w !! s).

Definition the_pinia (w : World) (p : pinia_ref) : pinia_state :=
  default dummy_pinia (w_pinias w !! p).

Definition set_isListening (b : bool) (st : store_state) : store_state :=
  Store (s_id st) (s_pinia st) (s_hot st) (s_isOptionsStore st) (s_stateInit st)
        b (s_isSyncListening st) (s_subscriptions st) (s_actionSubscriptions st)
        (s_activeListener st) (s_debuggerEvents st) (s_hotState st) (s_props st).

Definition set_isSyncListening (b : bool) (st : store_state) : store_state :=
  Store (s_id st) (s_pinia st) (s_hot st) (s_isOptionsStore st) (s_stateInit st)
        (s_isListening st) b (s_subscriptions st) (s_actionSubscriptions st)
        (s_activeListener st) (s_debuggerEvents st) (s_hotState st) (s_props st).

Definition set_subscriptions (l : list cb) (st : store_state) : store_state :=
  Store (s_id st) (s_pinia st) (s_hot st) (s_isOptionsStore st) (s_stateInit st)
        (s_isListening st) (s_isSyncListening st) l (s_actionSubscriptions st)
        (s_activeListener st) (s_debuggerEvents st) (s_hotState st) (s_props st).

Definition set_actionSubscriptions (l : list cb) (st : store_state) : store_state :=
  Store (s_id st) (s_pinia st) (s_hot st) (s_isOptionsStore st) (s_stateInit st)
        (s_isListening st) (s_isSyncListening st) (s_subscriptions st) l
        (s_activeListener st) (s_debuggerEvents st) (s_hotState st) (s_props st).

Definition set_activeListener (a : option symbol) (st : store_state) : store_state :=
  Store (s_id st) (s_pinia st) (s_hot st) (s_isOptionsStore st) (s_stateInit st)
        (s_isListening st) (s_isSyncListening st) (s_subscriptions st)
        (s_actionSubscriptions st) a (s_debuggerEvents st) (s_hotState st)
        (s_props st).

Definition set_debuggerEvents (l : list value) (st : store_state) : store_state :=
  Store (s_id st) (s_pinia st) (s_hot st) (s_isOptionsStore st) (s_stateInit st)
        (s_isListening st) (s_isSyncListening st) (s_subscriptions st)
        (s_actionSubscriptions st) (s_activeListener st) l (s_hotState st)
        (s_props st).

Definition set_props (l : list (string * sprop)) (st : store_state) : store_state :=
  Store (s_id st) (s_pinia st) (s_hot st) (s_isOptionsStore st) (s_stateInit st)
        (s_isListening st) (s_isSyncListening st) (s_subscriptions st)
        (s_actionSubscriptions st) (s_activeListener st) (s_debuggerEvents st)
        (s_hotState st) l.

Definition upd_store (s : store_ref) (f : store_state → store_state) : M World unit :=
  modify (with_stores (alter f s)).

Definition set_p_s (m : gmap string store_ref) (p : pinia_state) : pinia_state :=
  PiniaState (p_state p) m (p_p p) (p_toBeInstalled p) (p_a p) (p_active p)
             (p_testing p).

Definition upd_pinia (p : pinia_ref) (f : pinia_state → pinia_state) : M World unit :=
  modify (with_pinias (alter f p)).

(** [pinia.state.value[id]] *)
Definition state_slot (w : World) (p : pinia_ref) (id : string) : value :=
  get (w_heap w) (p_state (the_pinia w p)) id.

(** Modelled from the spec: [setActivePinia] and [activePinia] come from
    [./rootStore], which is not among the source files; the spec has
    [setActive] overwrite the one process-wide pointer unconditionally. *)
Definition setActivePinia (p : pinia_ref) : M World unit :=
  modify (with_activePinia (Some p)).

(** [Symbol()]: a token equal to no other. *)
Definition Symbol : M World symbol :=
  λ w, (Ret (w_nextSymbol w), with_nextSymbol (S (w_nextSymbol w)) w).

(** [nextTick().then(job)] *)
Definition nextTick_then (job : task) : M World unit :=
  modify (with_microtasks (λ q, q ++ [job])).

(** *** User code and build constants *)

(** What a call of an action gives back: a value, or a promise.  A promise
    is given by what happens when it settles: the writes the asynchronous
    work made, and how it ends. *)
Inductive action_result :=
  | Returns (v : value)
  | ReturnsPromise (p : M heap settlement).

(** What a wrapped action gives back to its caller. *)
Inductive wrapped_result :=
  | WValue (v : value)
  | WPromise (p : M World settlement).

(** The code the application supplies, by callback identifier, and the
    constants fixed when the library is built ([__DEV__], [__TEST__]).
    [run_listener] returns the hooks the listener registers through the
    [after] and [onError] functions of its context. *)
Record env := Env {
  DEV : bool;
  TEST : bool;
  run_subscriber : cb → mutation → value → M heap unit;
  run_listener : cb → string → list value → store_ref → M heap (list cb * list cb);
  run_hook : cb → value → M heap unit;
  run_action : cb → store_ref → list value → M heap action_result;
  run_state : cb → M heap value;
  run_hydrate : cb → value → value → M heap unit;
  run_plugin : cb → store_ref → M heap (list (string * sprop))
}.

(** *** [subscriptions.ts] *)

(** [addSubscription]: [subscriptions.push(callback)].  The registration of
    the remover with the ambient effect scope ([onScopeDispose]) belongs to
    the reactivity provider and is not modelled. *)
Definition addSubscription (subscriptions : list cb) (callback : cb) : list cb :=
  subscriptions ++ [callback].

(** [removeSubscription]: removes the first occurrence of the callback; the
    boolean tells whether one was found, in which case [onCleanup] runs. *)
Fixpoint removeSubscription (subscriptions : list cb) (callback : cb)
    : list cb * bool :=
  match subscriptions with
  | [] => ([], false)
  | c :: r =>
      if decide (c = callback) then (r, true)
      else let '(r', b) := removeSubscription r callback in (c :: r', b)
  end.

(** [triggerSubscriptions]: [subscriptions.slice().forEach(callback =>
    callback(...args))].  The list given is the copy; [call] applies one
    callback to the arguments. *)
Definition triggerSubscriptions {A} (subscriptions : list A)
    (call : A → M World unit) : M World unit :=
  for_each subscriptions call.

Section store.
Variable E : env.

(** A state subscriber called with a mutation event and the state. *)
Definition call_subscriber (m : mutation) (state : value) (c : cb) : M World unit :=
  log (SubscriberCalled c m state) ;;
  lift_heap (run_subscriber E c m state).

Definition call_after (resolvedReturn : value) (c : cb) : M World unit :=
  log (AfterCalled c resolvedReturn) ;;
  lift_heap (run_hook E c resolvedReturn).

Definition call_onError (error : value) (c : cb) : M World unit :=
  log (OnErrorCalled c error) ;;
  lift_heap (run_hook E c error).

(** An action listener called with its context; the hooks it registers
    are pushed onto the lists of this invocation. *)
Definition call_listener (inv : invocation) (name : string) (args : list value)
    (store : store_ref) (c : cb) : M World unit :=
  log (ListenerCalled c name args store) ;;
  do hooks <- lift_heap (run_listener E c name args store);
  modify (with_afterLists (alter (λ l, l ++ hooks.1) inv)) ;;
  modify (with_onErrorLists (alter (λ l, l ++ hooks.2) inv)).

(** [mergeReactiveObjects] applied to values.  A patch that is not an
    object has no key to loop over; a target that is not an object cannot
    be written to. *)
Definition merge_values (fuel : nat) (target patchToApply : value) : M heap value :=
  match patchToApply with
  | VObj pl =>
      match target with
      | VObj t => mergeReactiveObjects fuel t pl
      | _ => do ks <- gets (λ h, keys h pl);
             match ks with
             | [] => ret target
             | _ :: _ => throw (VStr "TypeError")
             end
      end
  | _ => ret target
  end.

(** [Object.assign(target, source)] *)
Definition assign (target source : value) : M heap unit :=
  match source with
  | VObj sl =>
      match target with
      | VObj tl =>
          do ks <- gets (λ h, keys h sl);
          for_each ks (λ key, modify (λ h, set h tl key (get h sl key)))
      | VUndefined | VNull => throw (VStr "TypeError")
      | _ => ret tt
      end
  | _ =>
      match target with
      | VUndefined | VNull => throw (VStr "TypeError")
      | _ => ret tt
      end
  end.

(** The argument of [$patch]: a mutator function or a partial state. *)
Inductive patch_arg :=
  | Mutator (stateMutation : value → M heap unit)
  | Partial (partialState : value).

(** [$patch(partialStateOrMutator)] of the store [s]. *)
Definition patch (fuel : nat) (s : store_ref) (partialStateOrMutator : patch_arg)
    : M World unit :=
  upd_store s (λ st, set_isSyncListening false (set_isListening false st)) ;;
  (if DEV E then upd_store s (set_debuggerEvents []) else ret tt) ;;
  do id <- gets (λ w, s_id (the_store w s));
  do pinia <- gets (λ w, s_pinia (the_store w s));
  do subscriptionMutation <-
    match partialStateOrMutator with
    | Mutator stateMutation =>
        do state <- gets (λ w, state_slot w pinia id);
        lift_heap (stateMutation state) ;;
        do events <- gets (λ w, s_debuggerEvents (the_store w s));
        ret (Mutation patchFunction id None events)
    | Partial partialState =>
        do state <- gets (λ w, state_slot w pinia id);
        lift_heap (merge_values fuel state partialState) ;;
        do events <- gets (λ w, s_debuggerEvents (the_store w s));
        ret (Mutation patchObject id (Some partialState) events)
    end;
  do myListenerId <- Symbol;
  upd_store s (set_activeListener (Some myListenerId)) ;;
  nextTick_then (ReEnableListening s myListenerId) ;;
  upd_store s (set_isSyncListening true) ;;
  do subscriptions <- gets (λ w, s_subscriptions (the_store w s));
  do state <- gets (λ w, state_slot w pinia id);
  triggerSubscriptions subscriptions (call_subscriber subscriptionMutation state).



Definition dquote : string := String (Ascii.ascii_of_nat 34) EmptyString.

(** [$reset()], called as a method of the store [s]. *)
Definition reset (fuel : nat) (s : store_ref) : M World unit :=
  do st <- gets (λ w, the_store w s);
  if s_isOptionsStore st then
    do newState <-
      match s_stateInit st with
      | Some state => lift_heap (run_state E state)
      | None => lift_heap (λ h, let '(h', l) := alloc h (plain []) in (Ret (VObj l), h'))
      end;
    patch fuel s (Mutator (λ state', assign state' newState))
  else if DEV E then
    throw (VStr ("🍍: Store " +:+ dquote +:+ s_id st +:+ dquote
                 +:+ " is built using the setup syntax and does not implement $reset()."))
  else ret tt.

(** [$subscribe(callback, options)]: the callback joins the state
    subscribers. *)
Definition subscribe (s : store_ref) (callback : cb) : M World unit :=
  upd_store s (λ st, set_subscriptions (addSubscription (s_subscriptions st) callback) st).


(** [$onAction(callback)] *)
Definition onAction (s : store_ref) (callback : cb) : M World unit :=
  upd_store s (λ st, set_actionSubscriptions
                       (addSubscription (s_actionSubscriptions st) callback) st).

(** [$dispose()] *)
Definition dispose (s : store_ref) : M World unit :=
  do st <- gets (λ w, the_store w s);
  upd_store s (λ st, set_actionSubscriptions [] (set_subscriptions [] st)) ;;
  upd_pinia (s_pinia st) (λ p, set_p_s (delete (s_id st) (p_s p)) p).

(** *** Promises

    [p.then(onFulfilled)] and [p.catch(onRejected)], by the settlement of
    the promise they return.  A handler that throws rejects it; the
    handler of [catch] gives the settlement of what it returns. *)
Definition promise_then (p : M World settlement)
    (onFulfilled : value → M World value) : M World settlement :=
  do s <- p;
  match s with
  | Fulfilled v =>
      λ w, match onFulfilled v w with
           | (Ret v', w') => (Ret (Fulfilled v'), w')
           | (Throw e, w') => (Ret (Rejected e), w')
           | (Fuel, w') => (Fuel, w')
           end
  | Rejected e => ret (Rejected e)
  end.

Definition promise_catch (p : M World settlement)
    (onRejected : value → M World settlement) : M World settlement :=
  do s <- p;
  match s with
  | Fulfilled v => ret (Fulfilled v)
  | Rejected e =>
      λ w, match onRejected e w with
           | (Throw e', w') => (Ret (Rejected e'), w')
           | r => r
           end
  end.

(** *** [wrapAction] *)

(** The two empty arrays [afterCallbackList] and [onErrorCallbackList] of
    one call of a wrapped action. *)
Definition new_invocation : M World invocation :=
  λ w, let inv := fresh (dom (w_afterLists w) ∪ dom (w_onErrorLists w)) in
       (Ret inv, with_onErrorLists (<[inv := []]>) (with_afterLists (<[inv := []]>) w)).

Definition afterCallbackList (inv : invocation) (w : World) : list cb :=
  default [] (w_afterLists w !! inv).

Definition onErrorCallbackList (inv : invocation) (w : World) : list cb :=
  default [] (w_onErrorLists w !! inv).

(** The function [wrapAction(name, action)] returns, in the store [s],
    called with receiver [this] and arguments [args]. *)
Definition wrapAction (s : store_ref) (name : string) (action : cb)
    (this : option store_ref) (args : list value) : M World wrapped_result :=
  do id <- gets (λ w, s_id (the_store w s));
  do pinia <- gets (λ w, s_pinia (the_store w s));
  setActivePinia pinia ;;
  do inv <- new_invocation;
  do actionSubscriptions <- gets (λ w, s_actionSubscriptions (the_store w s));
  triggerSubscriptions actionSubscriptions (call_listener inv name args s) ;;
  do receiver <- gets (λ w,
    match this with
    | Some t => if decide (s_id (the_store w t) = id) then t else s
    | None => s
    end);
  do result <-
    try_catch (lift_heap (run_action E action receiver args))
      (λ error,
         do hooks <- gets (onErrorCallbackList inv);
         triggerSubscriptions hooks (call_onError error) ;;
         throw error);
  match result with
  | ReturnsPromise p =>
      ret (WPromise
        (promise_catch
          (promise_then (lift_heap p)
            (λ value,
               do hooks <- gets (afterCallbackList inv);
               triggerSubscriptions hooks (call_after value) ;;
               ret value))
          (λ error,
             do hooks <- gets (onErrorCallbackList inv);
             triggerSubscriptions hooks (call_onError error) ;;
             ret (Rejected error))))
  | Returns v =>
      do hooks <- gets (afterCallbackList inv);
      triggerSubscriptions hooks (call_after v) ;;
      ret (WValue v)
  end.

(** *** [createSetupStore] *)

(** The options of a declaration: the state initialiser, the getters, the
    actions and the hydrate callback of an options store. *)
Record options := Options {
  opt_state : option cb;
  opt_getters : list (string * cb);
  opt_actions : list (string * cb);
  opt_hydrate : option cb
}.

(** What JavaScript takes for true in a condition. *)
Definition truthy (v : value) : bool :=
  match v with
  | VUndefined | VNull | VBool false | VNum 0 | VStr EmptyString => false
  | _ => true
  end.

Definition alloc_obj (o : obj) : M World loc :=
  lift_heap (λ h, let '(h', l) := alloc h o in (Ret l, h')).

Definition new_store (st : store_state) : M World store_ref :=
  λ w, let r := fresh (dom (w_stores w)) in
       (Ret r, with_stores (<[r := st]>) w).

(** [pinia.state.value[id] = v] *)
Definition set_state_slot (pinia : pinia_ref) (id : string) (v : value) : M World unit :=
  do root <- gets (λ w, p_state (the_pinia w pinia));
  lift_heap (modify (λ h, set h root id v)).

(** The value a property of the setup object holds. *)
Definition sprop_value (h : heap) (p : sprop) : value :=
  match p with
  | SRef l | SReactive l => VObj l
  | SToRef o key => get h o key
  | SComputed g | SFunction g | SWrapped _ g => VFun g
  | SValue v => v
  end.

(** [shouldHydrate(obj)] *)
Definition shouldHydrate (h : heap) (p : sprop) : bool :=
  match p with
  | SRef l | SReactive l =>
      negb (isPlainObject h (VObj l)) || negb (o_skipHydrate (get_obj h l))
  | _ => true
  end.

(** One iteration of [for (const key in setupStore)]: a state property is
    hydrated and moved into the state tree, a function is wrapped. *)
Definition setup_prop (fuel : nat) (id : string) (pinia : pinia_ref)
    (hot isOptionsStore : bool) (initialState : value) (hotState : loc)
    (kp : string * sprop) : M World (string * sprop) :=
  let '(key, prop) := kp in
  match prop with
  | SRef _ | SReactive _ | SToRef _ _ =>
      (if DEV E && hot then
         lift_heap (modify (λ h, set h hotState key (sprop_value h prop)))
       else if negb isOptionsStore then
         do hydrate <- gets (λ w, truthy initialState && shouldHydrate (w_heap w) prop);
         (if hydrate then
            match initialState, prop with
            | VObj il, SRef l =>
                lift_heap (modify (λ h, set h l "value" (get h il key)))
            | VObj il, SToRef o k =>
                lift_heap (modify (λ h, set h o k (get h il key)))
            | VObj il, SReactive l =>
                do sub <- gets (λ w, get (w_heap w) il key);
                lift_heap (merge_values fuel (VObj l) sub) ;; ret tt
            | _, _ => ret tt
            end
          else ret tt) ;;
         do slot <- gets (λ w, state_slot w pinia id);
         match slot with
         | VObj sl => lift_heap (modify (λ h, set h sl key (sprop_value h prop)))
         | _ => throw (VStr "TypeError")
         end
       else ret tt) ;;
      ret (key, prop)
  | SFunction f =>
      ret (key, if DEV E && hot then prop else SWrapped key f)
  | _ => ret (key, prop)
  end.

(** [Object.assign] on the properties of a store or of a setup object. *)
Definition assign_props (target source : list (string * sprop))
    : list (string * sprop) :=
  foldl (λ acc kp, assoc_set kp.1 kp.2 acc) target source.

(** One plugin applied to the store. *)
Definition apply_plugin (store : store_ref) (extender : cb) : M World unit :=
  do extensions <- lift_heap (run_plugin E extender store);
  upd_store store (λ st, set_props (assign_props (s_props st) extensions) st).

(** [createSetupStore($id, setup, options, pinia, hot, isOptionsStore)],
    in two parts.  Not modelled: the devtools bookkeeping ([_hmrPayload],
    [_customProperties]), the hot-update method [_hotUpdate] and the
    development warning on a state that is a class instance.

    First part, up to [pinia._s.set($id, store)]: the checks, the empty
    state slot of a setup store, and the partial store (the base surface
    [$id], [$patch], [$reset], [$dispose], [$subscribe], [$onAction] over
    fresh closure variables), registered under [$id].  It returns the
    store with [initialState] and [hotState]. *)
Definition register_partial (id : string) (opts : options)
    (pinia : pinia_ref) (hot isOptionsStore : bool)
    : M World (store_ref * value * loc) :=
  do active <- gets (λ w, p_active (the_pinia w pinia));
  if DEV E && negb active then throw (VStr "Pinia destroyed")
  else
    do initialState <- gets (λ w, state_slot w pinia id);
    (if negb isOptionsStore && negb (truthy initialState)
        && (negb (DEV E) || negb hot)
     then do l <- alloc_obj (plain []); set_state_slot pinia id (VObj l)
     else ret tt) ;;
    do hotState <- alloc_obj (plain []);
    do store <- new_store (Store id pinia hot isOptionsStore (opt_state opts)
                                 false false [] [] None [] hotState []);
    upd_pinia pinia (λ p, set_p_s (<[id := store]> (p_s p)) p) ;;
    ret (store, initialState, hotState).

(** What follows the run of the setup function, which returned
    [setupStore]: its properties are sorted and added to the store, the
    plugins run, an options store is hydrated, and listening starts.
    [active] tells whether the scope of the registry is active. *)
Definition install_setup (fuel : nat) (id : string) (opts : options)
    (pinia : pinia_ref) (hot isOptionsStore : bool)
    (partial : store_ref * value * loc) (active : bool)
    (setupStore : list (string * sprop)) : M World store_ref :=
  let '(store, initialState, hotState) := partial in
  do setupStore <- map_each setupStore
                     (setup_prop fuel id pinia hot isOptionsStore
                                 initialState hotState);
  upd_store store (λ st, set_props (assign_props (s_props st) setupStore) st) ;;
  do plugins <- gets (λ w, p_p (the_pinia w pinia));
  for_each plugins
    (λ extender, if active then apply_plugin store extender
                 else throw (VStr "TypeError")) ;;
  (if truthy initialState && isOptionsStore then
     match opt_hydrate opts with
     | Some hydrate =>
         do state <- gets (λ w,
           if DEV E && hot then VObj hotState else state_slot w pinia id);
         lift_heap (run_hydrate E hydrate state initialState)
     | None => ret tt
     end
   else ret tt) ;;
  upd_store store (λ st, set_isSyncListening true (set_isListening true st)) ;;
  ret store.

(** Second part: the setup function runs, in the scope of the registry,
    and what it returns is installed. *)
Definition finish_store (fuel : nat) (id : string)
    (setup : M World (list (string * sprop))) (opts : options)
    (pinia : pinia_ref) (hot isOptionsStore : bool)
    (partial : store_ref * value * loc) : M World store_ref :=
  do active <- gets (λ w, p_active (the_pinia w pinia));
  do setupStore <- (if active then setup else ret []);
  install_setup fuel id opts pinia hot isOptionsStore partial active setupStore.

Definition createSetupStore (fuel : nat) (id : string)
    (setup : M World (list (string * sprop))) (opts : options)
    (pinia : pinia_ref) (hot isOptionsStore : bool) : M World store_ref :=
  do partial <- register_partial id opts pinia hot isOptionsStore;
  finish_store fuel id setup opts pinia hot isOptionsStore partial.

(** The accessor property [store.$state]. *)
Definition get_state (s : store_ref) : M World value :=
  gets (λ w, let st := the_store w s in
             if DEV E && s_hot st then VObj (s_hotState st)
             else state_slot w (s_pinia st) (s_id st)).

Definition set_state (fuel : nat) (s : store_ref) (state : value) : M World unit :=
  do hot <- gets (λ w, s_hot (the_store w s));
  if DEV E && hot then throw (VStr "cannot set hotState")
  else patch fuel s (Mutator (λ state', assign state' state)).

(** *** [createOptionsStore] *)

(** [toRefs(o)]: one ref per key of [o], onto that key. *)
Definition toRefs (h : heap) (v : value) : list (string * sprop) :=
  match v with
  | VObj l => (λ key, (key, SToRef l key)) <$> keys h l
  | _ => []
  end.

Definition getter_collision_warning (name id : string) : string :=
  "[🍍]: A getter cannot have the same name as another state property. Rename one of them. Found with "
  +:+ dquote +:+ name +:+ dquote +:+ " in store " +:+ dquote +:+ id
  +:+ dquote +:+ ".".

(** [state ? state() : {}] *)
Definition initial_state (opts : options) : M World value :=
  match opt_state opts with
  | Some state => lift_heap (run_state E state)
  | None => do l <- alloc_obj (plain []); ret (VObj l)
  end.

(** The function [setup] that [createOptionsStore] builds from the
    options; [initialState] is [pinia.state.value[id]] read when
    [createOptionsStore] is entered. *)
Definition options_setup (id : string) (opts : options) (pinia : pinia_ref)
    (hot : bool) (initialState : value) : M World (list (string * sprop)) :=
  (if negb (truthy initialState) && (negb (DEV E) || negb hot)
   then do st <- initial_state opts; set_state_slot pinia id st
   else ret tt) ;;
  do localState <-
    (if DEV E && hot
     then do st <- initial_state opts; gets (λ w, toRefs (w_heap w) st)
     else gets (λ w, toRefs (w_heap w) (state_slot w pinia id)));
  (* the getters: [Object.keys(getters || {}).reduce(...)] *)
  for_each (opt_getters opts)
    (λ '(name, _),
       if DEV E && bool_decide (name ∈ localState.*1)
       then log (Warned (getter_collision_warning name id))
       else ret tt) ;;
  ret (assign_props
         (assign_props localState
            ((λ '(name, f), (name, SFunction f)) <$> opt_actions opts))
         ((λ '(name, g), (name, SComputed g)) <$> opt_getters opts)).

Definition createOptionsStore (fuel : nat) (id : string) (opts : options)
    (pinia : pinia_ref) (hot : bool) : M World store_ref :=
  do initialState <- gets (λ w, state_slot w pinia id);
  createSetupStore fuel id (options_setup id opts pinia hot initialState)
                   opts pinia hot true.

(** *** [defineStore] and the accessor [useStore] *)

(** An accessor as a setup function sees it: called with the index of a
    declaration and, possibly, a registry. *)
Definition accessor := nat → option pinia_ref → M World (option store_ref).

(** A setup function: it works on objects ([ref(...)], [reactive(...)],
    any computation on the heap) and calls accessors of declared stores,
    then returns the object whose properties become the store's. *)
Inductive setup_fn :=
  | SetupReturn (setupStore : list (string * sprop))
  | SetupHeap (step : M heap value) (k : value → setup_fn)
  | SetupUse (d : nat) (pinia : option pinia_ref)
             (k : option store_ref → setup_fn).

Fixpoint run_setup (use : accessor) (f : setup_fn)
    : M World (list (string * sprop)) :=
  match f with
  | SetupReturn setupStore => ret setupStore
  | SetupHeap step k => do v <- lift_heap step; run_setup use (k v)
  | SetupUse d pinia k => do s <- use d pinia; run_setup use (k s)
  end.

(** A declaration after [defineStore] has normalised its arguments. *)
Record definition := Definition_ {
  d_id : string;
  d_setup : option setup_fn;
  d_options : options
}.

Definition isSetupStore (d : definition) : bool :=
  match d_setup d with Some _ => true | None => false end.

(** The three call shapes of [defineStore]. *)
Inductive define_args :=
  | IdOptions (id : string) (opts : options)
  | OptionsWithId (id : string) (opts : options)
  | IdSetup (id : string) (setup : setup_fn) (setupOptions : options).

Definition defineStore (a : define_args) : definition :=
  match a with
  | IdOptions id opts => Definition_ id None opts
  | OptionsWithId id opts => Definition_ id None opts
  | IdSetup id setup setupOptions => Definition_ id (Some setup) setupOptions
  end.

(** The declarations of the application, and the reconciliation of a live
    store with its hot replacement: [_hotUpdate] relies on [patchObject]
    of [./hmr], which is not among the source files, and is taken as a
    parameter. *)
Variable declared : nat → definition.
Variable hotUpdate : store_ref → store_ref → M World unit.

Definition delete_prop (h : heap) (l : loc) (key : string) : heap :=
  alter (with_props (filter (λ kv, kv.1 ≠ key))) l h.

(** The registry a call [useStore(pinia)] works on, before it falls back
    to the active one: the argument, unless a testing registry is active
    in a test build, else the registry injected into the current
    component ([w_injected]). *)
Definition resolve_pinia (w : World) (pinia : option pinia_ref) : option pinia_ref :=
  let arg :=
    match w_activePinia w with
    | Some a => if TEST E && p_testing (the_pinia w a) then None else pinia
    | None => pinia
    end in
  match arg with Some p => Some p | None => w_injected w end.

(** The body of [useStore(pinia, hot)] for declaration [d]; [use] is what
    the accessors called from inside a setup function run. *)
Definition useStore_body (fuel : nat) (use : accessor) (d : nat)
    (pinia : option pinia_ref) (hot : option store_ref)
    : M World (option store_ref) :=
  let decl := declared d in
  let id := d_id decl in
  do pinia <- gets (λ w, resolve_pinia w pinia);
  (match pinia with Some p => setActivePinia p | None => ret tt end) ;;
  do activePinia <- gets w_activePinia;
  match activePinia with
  | None =>
      if DEV E
      then throw (VStr "[🍍]: getActivePinia was called with no active Pinia. Did you forget to install pinia?")
      else throw (VStr "TypeError")
  | Some pinia =>
      do has <- gets (λ w, bool_decide (is_Some (p_s (the_pinia w pinia) !! id)));
      (if negb has then
         match d_setup decl with
         | Some setup =>
             createSetupStore fuel id (run_setup use setup) (d_options decl)
                              pinia false false ;;
             ret tt
         | None =>
             createOptionsStore fuel id (d_options decl) pinia false ;; ret tt
         end
       else ret tt) ;;
      do store <- gets (λ w, p_s (the_pinia w pinia) !! id);
      (match hot with
       | Some hot' =>
           if DEV E then
             let hotId := "__hot:" +:+ id in
             do newStore <-
               match d_setup decl with
               | Some setup =>
                   createSetupStore fuel hotId (run_setup use setup)
                                    (d_options decl) pinia true false
               | None =>
                   createOptionsStore fuel hotId (d_options decl) pinia true
               end;
             hotUpdate hot' newStore ;;
             do root <- gets (λ w, p_state (the_pinia w pinia));
             lift_heap (modify (λ h, delete_prop h root hotId)) ;;
             upd_pinia pinia (λ p, set_p_s (delete hotId (p_s p)) p)
           else ret tt
       | None => ret tt
       end) ;;
      ret store
  end.

Fixpoint useStore (fuel : nat) (d : nat) (pinia : option pinia_ref)
    (hot : option store_ref) : M World (option store_ref) :=
  match fuel with
  | 0 => out_of_fuel
  | S n => useStore_body n (λ d' pinia', useStore n d' pinia' None) d pinia hot
  end.

(** *** [createPinia] *)

Definition new_pinia (p : pinia_state) : M World pinia_ref :=
  λ w, let r := fresh (dom (w_pinias w)) in
       (Ret r, with_pinias (<[r := p]>) w).

Definition createPinia : M World pinia_ref :=
  do state <- alloc_obj (plain []);
  new_pinia (PiniaState state ∅ [] [] false true false).


(** [createPinia.ts]: the plugins of a registry. *)

Definition set_plugins (_p toBeInstalled : list cb) (_a : bool) (P : pinia_state)
    : pinia_state :=
  PiniaState (p_state P) (p_s P) _p toBeInstalled _a (p_active P) (p_testing P).

(** [pinia.use(plugin)]: with Vue 3 ([isVue2] false), until the registry
    is installed in an application the plugin waits in [toBeInstalled];
    otherwise it joins [_p] at once. *)
Definition pinia_use (isVue2 : bool) (p : pinia_ref) (plugin : cb) : M World unit :=
  upd_pinia p (λ P,
    if negb (p_a P) && negb isVue2
    then set_plugins (p_p P) (p_toBeInstalled P ++ [plugin]) (p_a P) P
    else set_plugins (p_p P ++ [plugin]) (p_toBeInstalled P) (p_a P) P).

(** [pinia.install(app)]: the registry becomes the active one; with Vue 3
    [_a] is set and the plugins that waited join [_p].  What [app.provide]
    and the devtools do belongs to the application and is not modelled. *)
Definition pinia_install (isVue2 : bool) (p : pinia_ref) : M World unit :=
  setActivePinia p ;;
  if negb isVue2
  then upd_pinia p (λ P, set_plugins (p_p P ++ p_toBeInstalled P) [] true P)
  else ret tt.

End store.

(** ** Properties of the store runtime *)

Ltac expand_world :=
  cbv [w_heap w_pinias w_stores w_activePinia w_injected w_microtasks
       w_nextSymbol w_afterLists w_onErrorLists w_trace
       with_heap with_pinias with_stores with_activePinia with_microtasks
       with_nextSymbol with_afterLists with_onErrorLists with_trace].

Ltac unfold_world :=
  cbn [w_heap w_pinias w_stores w_activePinia w_injected w_microtasks
       w_nextSymbol w_afterLists w_onErrorLists w_trace
       with_heap with_pinias with_stores with_activePinia with_microtasks
       with_nextSymbol with_afterLists with_onErrorLists with_trace
       s_id s_pinia s_hot s_isOptionsStore s_stateInit s_isListening
       s_isSyncListening s_subscriptions s_actionSubscriptions
       s_activeListener s_debuggerEvents s_hotState s_props
       set_isListening set_isSyncListening set_subscriptions
       set_actionSubscriptions set_activeListener set_debuggerEvents
       set_props fst snd].

Section store_facts.
Variable E : env.

(** *** [$patch], step by step *)

(** The world when the body of the patch starts: both listening flags
    off, and, in a development build, no debugger event. *)
Definition patch_begin (s : store_ref) (w : World) : World :=
  let w1 := with_stores
              (alter (λ st, set_isSyncListening false (set_isListening false st)) s) w in
  if DEV E then with_stores (alter (set_debuggerEvents []) s) w1 else w1.

(** The body: the mutator applied to the state, or the merge of the
    partial state into it. *)
Definition patch_body (fuel : nat) (arg : patch_arg) (state : value) : M heap unit :=
  match arg with
  | Mutator stateMutation => stateMutation state
  | Partial partialState => merge_values fuel state partialState ;; ret tt
  end.

Definition patch_type (arg : patch_arg) : MutationType :=
  match arg with Mutator _ => patchFunction | Partial _ => patchObject end.

Definition patch_payload (arg : patch_arg) : option value :=
  match arg with Mutator _ => None | Partial p => Some p end.

(** The world when the subscribers are about to be notified: a new token
    is the active listener, its job is queued for the next tick, and the
    synchronous flag is on again. *)
Definition patch_end (s : store_ref) (w : World) : World :=
  let tok := w_nextSymbol w in
  with_stores (alter (set_isSyncListening true) s)
    (with_microtasks (λ q, q ++ [ReEnableListening s tok])
       (with_stores (alter (set_activeListener (Some tok)) s)
          (with_nextSymbol (S tok) w))).

Lemma patch_unfold fuel s arg w :
  patch E fuel s arg w
  = let w1 := patch_begin s w in
    let id := s_id (the_store w1 s) in
    let pinia := s_pinia (the_store w1 s) in
    match patch_body fuel arg (state_slot w1 pinia id) (w_heap w1) with
    | (Ret _, h2) =>
        let w2 := with_heap (λ _, h2) w1 in
        let m := Mutation (patch_type arg) id (patch_payload arg)
                          (s_debuggerEvents (the_store w2 s)) in
        let w3 := patch_end s w2 in
        triggerSubscriptions (s_subscriptions (the_store w3 s))
          (call_subscriber E m (state_slot w3 pinia id)) w3
    | (Throw e, h2) => (Throw e, with_heap (λ _, h2) w1)
    | (Fuel, h2) => (Fuel, with_heap (λ _, h2) w1)
    end.
Proof.
  unfold patch, patch_begin, bind, upd_store, modify, gets, lift_heap. simpl.
  destruct arg as [f|p]; destruct (DEV E); simpl;
    unfold bind, ret, gets, lift_heap; simpl.
  all: match goal with
       | |- context [?f ?v (w_heap ?w)] =>
           destruct (f v (w_heap w)) as [[[]|e|] h2] eqn:Hbody
       end; try reflexivity.
Qed.

(** *** Notification rounds *)

(** What a round of calls changes: the heap and the trace only. *)
Definition same_runtime (w w' : World) : Prop :=
  w_pinias w' = w_pinias w ∧ w_stores w' = w_stores w
  ∧ w_activePinia w' = w_activePinia w ∧ w_injected w' = w_injected w
  ∧ w_microtasks w' = w_microtasks w ∧ w_nextSymbol w' = w_nextSymbol w
  ∧ w_afterLists w' = w_afterLists w ∧ w_onErrorLists w' = w_onErrorLists w.

Lemma same_runtime_refl w : same_runtime w w.
Proof. by repeat split. Qed.

Lemma same_runtime_trans w1 w2 w3 :
  same_runtime w1 w2 → same_runtime w2 w3 → same_runtime w1 w3.
Proof.
  intros (?&?&?&?&?&?&?&?) (?&?&?&?&?&?&?&?). repeat split; congruence.
Qed.

Lemma lift_heap_same_runtime {A} (m : M heap A) w :
  same_runtime w (lift_heap m w).2.
Proof.
  unfold lift_heap. destruct (m (w_heap w)) as [r h]. by repeat split.
Qed.

Lemma log_same_runtime e w : same_runtime w (log e w).2.
Proof. by repeat split. Qed.

Lemma for_each_cons {S A} (body : A → M S unit) a l s :
  for_each (a :: l) body s
  = match body a s with
    | (Ret _, s') => for_each l body s'
    | (Throw e, s') => (Throw e, s')
    | (Fuel, s') => (Fuel, s')
    end.
Proof. reflexivity. Qed.

Lemma log_then_lift {A} e (m : M heap A) w :
  (log e ;; lift_heap m) w
  = let '(r, h) := m (w_heap w) in
    (r, with_heap (λ _, h) (with_trace (λ t, t ++ [e]) w)).
Proof. reflexivity. Qed.

(** A round in which every callback returns: each one is called once, in
    the order of the list, and the trace grows by one event per call.  [I]
    is any relation each call keeps between the heap before and after. *)
Lemma round_all_return (I : heap → heap → Prop) (l : list cb) (ev : cb → event)
    (run : cb → M heap unit) :
  (∀ h, I h h) → (∀ h1 h2 h3, I h1 h2 → I h2 h3 → I h1 h3) →
  ∀ w,
  (∀ c, c ∈ l → ∀ h, ∃ h', run c h = (Ret tt, h') ∧ I h h') →
  ∃ h', for_each l (λ c, log (ev c) ;; lift_heap (run c)) w
        = (Ret tt, with_trace (λ t, t ++ (ev <$> l)) (with_heap (λ _, h') w))
      ∧ I (w_heap w) h'.
Proof.
  intros Hrefl Htrans. induction l as [|c l IH]; intros w Hret.
  - exists (w_heap w). split; [|done].
    destruct w. cbn [for_each]. unfold ret. expand_world.
    by rewrite fmap_nil, app_nil_r.
  - destruct (Hret c (list_elem_of_here _ _) (w_heap w)) as (h1 & Hc & HI1).
    destruct (IH (with_heap (λ _, h1) (with_trace (λ t, t ++ [ev c]) w)))
      as (h' & Hrest & HI).
    { intros c' Hin. apply Hret. by right. }
    exists h'. split; [|by eapply Htrans].
    rewrite for_each_cons, log_then_lift, Hc, Hrest.
    destruct w. expand_world. by rewrite fmap_cons, <-app_assoc.
Qed.

Lemma the_store_alter f s s' w :
  the_store (with_stores (alter f s) w) s'
  = if decide (s = s') then
      match w_stores w !! s' with Some st => f st | None => dummy_store end
    else the_store w s'.
Proof.
  unfold the_store. unfold_world. case_decide as Hs.
  - subst. rewrite lookup_alter_eq. by destruct (_ !! s').
  - by rewrite lookup_alter_ne.
Qed.

Lemma the_store_alter_eq f s w :
  the_store (with_stores (alter f s) w) s
  = match w_stores w !! s with Some st => f st | None => dummy_store end.
Proof. by rewrite the_store_alter, decide_True. Qed.

Lemma the_store_alter_ne f s s' w :
  s ≠ s' → the_store (with_stores (alter f s) w) s' = the_store w s'.
Proof. intros. by rewrite the_store_alter, decide_False. Qed.

Lemma the_store_lookup w s st : w_stores w !! s = Some st → the_store w s = st.
Proof. unfold the_store. by intros ->. Qed.

Lemma the_store_lookup_None w s : w_stores w !! s = None → the_store w s = dummy_store.
Proof. unfold the_store. by intros ->. Qed.

(** The world in which a patch whose body returned notifies the
    subscribers. *)
Definition patch_notifying (s : store_ref) (h2 : heap) (w : World) : World :=
  patch_end s (with_heap (λ _, h2) (patch_begin s w)).

Lemma patch_notifying_world s h2 w :
  let w3 := patch_notifying s h2 w in
  w_heap w3 = h2 ∧ w_pinias w3 = w_pinias w ∧ w_trace w3 = w_trace w
  ∧ w_activePinia w3 = w_activePinia w
  ∧ w_nextSymbol w3 = S (w_nextSymbol w)
  ∧ w_microtasks w3 = w_microtasks w ++ [ReEnableListening s (w_nextSymbol w)]
  ∧ (∀ s', s' ≠ s → the_store w3 s' = the_store w s').
Proof.
  unfold patch_notifying, patch_end, patch_begin.
  destruct (DEV E); unfold_world; repeat split; try reflexivity.
  all: intros s' Hne; unfold the_store; unfold_world;
    by rewrite !lookup_alter_ne by done.
Qed.

Lemma patch_notifying_store s h2 w st :
  w_stores w !! s = Some st →
  the_store (patch_notifying s h2 w) s
  = set_isSyncListening true
      (set_activeListener (Some (w_nextSymbol w))
         ((if DEV E then set_debuggerEvents [] else id)
            (set_isSyncListening false (set_isListening false st)))).
Proof.
  intros Hs. unfold patch_notifying, patch_end, patch_begin.
  destruct (DEV E); unfold_world;
    repeat (rewrite the_store_alter_eq; unfold_world; rewrite ?lookup_alter_eq);
    by rewrite Hs.
Qed.

Lemma patch_notifying_store_None s h2 w :
  w_stores w !! s = None → the_store (patch_notifying s h2 w) s = dummy_store.
Proof.
  intros Hs. unfold patch_notifying, patch_end, patch_begin.
  destruct (DEV E); unfold_world;
    repeat (rewrite the_store_alter_eq; unfold_world; rewrite ?lookup_alter_eq);
    by rewrite Hs.
Qed.

Lemma state_slot_fields w w' p id :
  w_heap w' = w_heap w → w_pinias w' = w_pinias w →
  state_slot w' p id = state_slot w p id.
Proof. unfold state_slot, the_pinia. by intros -> ->. Qed.

Lemma patch_begin_store s w :
  the_store (patch_begin s w) s
  = match w_stores w !! s with
    | Some st => (if DEV E then set_debuggerEvents [] else id)
                   (set_isSyncListening false (set_isListening false st))
    | None => dummy_store
    end.
Proof.
  unfold patch_begin.
  destruct (DEV E); unfold_world;
    repeat (rewrite the_store_alter_eq; unfold_world; rewrite ?lookup_alter_eq);
    by destruct (w_stores w !! s).
Qed.

(** A patch whose body returns, seen from the world it starts in. *)
Lemma patch_body_returns fuel s arg w h2 :
  let st := the_store w s in
  patch_body fuel arg (state_slot w (s_pinia st) (s_id st)) (w_heap w) = (Ret tt, h2) →
  patch E fuel s arg w
  = triggerSubscriptions (s_subscriptions st)
      (call_subscriber E
         (Mutation (patch_type arg) (s_id st) (patch_payload arg)
                   (if DEV E then [] else s_debuggerEvents st))
         (get h2 (p_state (the_pinia w (s_pinia st))) (s_id st)))
      (patch_notifying s h2 w).
Proof.
  intros st Hbody. rewrite patch_unfold. cbv zeta.
  assert (w_heap (patch_begin s w) = w_heap w) as Hh.
  { unfold patch_begin. by destruct (DEV E). }
  assert (w_pinias (patch_begin s w) = w_pinias w) as Hp.
  { unfold patch_begin. by destruct (DEV E). }
  assert (s_id (the_store (patch_begin s w) s) = s_id st
          ∧ s_pinia (the_store (patch_begin s w) s) = s_pinia st) as [Hid Hpin].
  { rewrite patch_begin_store. subst st. unfold the_store.
    destruct (w_stores w !! s); [|done]. by destruct (DEV E). }
  rewrite Hid, Hpin, Hh. rewrite (state_slot_fields w (patch_begin s w)) by done.
  rewrite Hbody. fold (patch_notifying s h2 w).
  assert (s_subscriptions (the_store (patch_notifying s h2 w) s)
          = s_subscriptions st
          ∧ s_debuggerEvents (the_store (with_heap (λ _, h2) (patch_begin s w)) s)
            = (if DEV E then [] else s_debuggerEvents st)) as [-> ->].
  { change (the_store (with_heap (λ _, h2) (patch_begin s w)) s)
      with (the_store (patch_begin s w) s).
    rewrite patch_begin_store. subst st. unfold the_store at 2 3.
    destruct (w_stores w !! s) as [st0|] eqn:Hs.
    - rewrite (patch_notifying_store _ _ _ _ Hs). by destruct (DEV E).
    - rewrite (patch_notifying_store_None _ _ _ Hs). by destruct (DEV E). }
  destruct (patch_notifying_world s h2 w) as (Hh3 & Hp3 & _).
  unfold state_slot at 1. unfold the_pinia. by rewrite Hh3, Hp3.
Qed.


(** *** The listening flags around a patch *)

Lemma call_subscriber_same_runtime m state c w :
  same_runtime w (call_subscriber E m state c w).2.
Proof.
  unfold call_subscriber. rewrite log_then_lift.
  destruct (run_subscriber E c m state (w_heap w)) as [r h]. by repeat split.
Qed.

Lemma round_same_runtime m state l w :
  same_runtime w (triggerSubscriptions l (call_subscriber E m state) w).2.
Proof.
  unfold triggerSubscriptions. revert w.
  apply for_each_inv; [apply same_runtime_refl | apply same_runtime_trans |].
  intros c w. apply call_subscriber_same_runtime.
Qed.

Definition after_patch (st : store_state) (tok : symbol) : store_state :=
  set_isSyncListening true
    (set_activeListener (Some tok)
       ((if DEV E then set_debuggerEvents [] else id)
          (set_isSyncListening false (set_isListening false st)))).

Lemma patch_notifying_lookup s h2 w st :
  w_stores w !! s = Some st →
  w_stores (patch_notifying s h2 w) !! s = Some (after_patch st (w_nextSymbol w)).
Proof.
  intros Hs. unfold patch_notifying, patch_end, patch_begin, after_patch.
  destruct (DEV E); unfold_world; rewrite !lookup_alter_eq, Hs; done.
Qed.

(** The world a patch whose body returns leaves, however the round of
    notifications ends. *)
Lemma patch_returns_world fuel s arg w st h2 :
  w_stores w !! s = Some st →
  patch_body fuel arg (state_slot w (s_pinia st) (s_id st)) (w_heap w) = (Ret tt, h2) →
  let w1 := (patch E fuel s arg w).2 in
  w_stores w1 !! s = Some (after_patch st (w_nextSymbol w))
  ∧ w_pinias w1 = w_pinias w
  ∧ w_nextSymbol w1 = S (w_nextSymbol w)
  ∧ w_microtasks w1 = w_microtasks w ++ [ReEnableListening s (w_nextSymbol w)].
Proof.
  intros Hs Hbody w1. subst w1.
  rewrite (patch_body_returns fuel s arg w h2);
    [|by rewrite (the_store_lookup _ _ _ Hs)].
  match goal with
  | |- context [triggerSubscriptions ?l (call_subscriber E ?m ?v) ?w0] =>
      destruct (round_same_runtime m v l w0) as (Hp & Hst & _ & _ & Hmt & Hns & _)
  end.
  rewrite Hp, Hst, Hmt, Hns.
  destruct (patch_notifying_world s h2 w) as (_ & Hp3 & _ & _ & Hns3 & Hmt3 & _).
  by rewrite (patch_notifying_lookup _ _ _ _ Hs), Hp3, Hns3, Hmt3.
Qed.




(** *** The identity of the state *)

Lemma patch_begin_world s w :
  w_heap (patch_begin s w) = w_heap w ∧ w_pinias (patch_begin s w) = w_pinias w
  ∧ w_trace (patch_begin s w) = w_trace w.
Proof. unfold patch_begin. by destruct (DEV E). Qed.

Lemma patch_begin_consts s w :
  s_id (the_store (patch_begin s w) s) = s_id (the_store w s)
  ∧ s_pinia (the_store (patch_begin s w) s) = s_pinia (the_store w s)
  ∧ s_hot (the_store (patch_begin s w) s) = s_hot (the_store w s).
Proof.
  rewrite patch_begin_store. unfold the_store.
  destruct (w_stores w !! s); [|done]. by destruct (DEV E).
Qed.

Lemma patch_notifying_consts s h2 w :
  s_id (the_store (patch_notifying s h2 w) s) = s_id (the_store w s)
  ∧ s_pinia (the_store (patch_notifying s h2 w) s) = s_pinia (the_store w s)
  ∧ s_hot (the_store (patch_notifying s h2 w) s) = s_hot (the_store w s).
Proof.
  destruct (w_stores w !! s) as [st|] eqn:Hs.
  - rewrite (patch_notifying_store _ _ _ _ Hs), (the_store_lookup _ _ _ Hs).
    by destruct (DEV E).
  - by rewrite (patch_notifying_store_None _ _ _ Hs), (the_store_lookup_None _ _ Hs).
Qed.

Lemma same_runtime_the_store w w' s :
  same_runtime w w' → the_store w' s = the_store w s.
Proof. intros (_ & Hst & _). unfold the_store. by rewrite Hst. Qed.

(** What a patch never changes, however it ends: the registries, and the
    id, the registry and the hot flag of the store. *)
Lemma patch_consts fuel s arg w :
  let w' := (patch E fuel s arg w).2 in
  w_pinias w' = w_pinias w
  ∧ s_id (the_store w' s) = s_id (the_store w s)
  ∧ s_pinia (the_store w' s) = s_pinia (the_store w s)
  ∧ s_hot (the_store w' s) = s_hot (the_store w s).
Proof.
  cbv zeta. rewrite patch_unfold. cbv zeta.
  destruct (patch_begin_world s w) as (_ & Hp & _).
  destruct (patch_begin_consts s w) as (Hid & Hpin & Hhot).
  destruct (patch_body _ _ _ _) as [[[]|e|] h2].
  - fold (patch_notifying s h2 w).
    match goal with
    | |- context [triggerSubscriptions ?l (call_subscriber E ?m ?v) ?w0] =>
        pose proof (round_same_runtime m v l w0) as Hsame;
        remember (triggerSubscriptions l (call_subscriber E m v) w0).2 as W'
    end.
    rewrite (same_runtime_the_store _ _ s Hsame).
    destruct Hsame as (-> & _).
    destruct (patch_notifying_world s h2 w) as (_ & Hp3 & _).
    destruct (patch_notifying_consts s h2 w) as (? & ? & ?).
    by rewrite Hp3.
  - by rewrite <-Hp, <-Hid, <-Hpin, <-Hhot.
  - by rewrite <-Hp, <-Hid, <-Hpin, <-Hhot.
Qed.

Lemma round_keeps_slot root id m state l w :
  (∀ c m v h, get (run_subscriber E c m v h).2 root id = get h root id) →
  get (w_heap (triggerSubscriptions l (call_subscriber E m state) w).2) root id
  = get (w_heap w) root id.
Proof.
  intros Hsub. unfold triggerSubscriptions. revert w.
  apply (for_each_inv (λ w w', get (w_heap w') root id = get (w_heap w) root id));
    [done | intros w1 w2 w3 H12 H23; by rewrite H23 | ].
  intros c w. unfold call_subscriber. rewrite log_then_lift.
  specialize (Hsub c m state (w_heap w)).
  by destruct (run_subscriber E c m state (w_heap w)) as [r h].
Qed.

Lemma merge_values_keeps_slot fuel state partialState h root id :
  (∀ t pl, state = VObj t → partialState = VObj pl →
           ∃ R : loc → Prop, closed R h ∧ R t ∧ R pl ∧ ¬ R root) →
  get (merge_values fuel state partialState h).2 root id = get h root id.
Proof.
  intros HR. unfold merge_values.
  destruct partialState as [| | | | |pl|]; try done.
  destruct state as [| | | | |t|];
    try (unfold bind, gets; simpl; by destruct (keys h pl)).
  destruct (HR t pl eq_refl eq_refl) as (R & Hc & Ht & Hp & Hroot).
  destruct (merge_within R fuel t pl h Ht Hp Hc) as [_ Hfr].
  unfold get, get_obj. by rewrite (Hfr root Hroot).
Qed.

(** C1 — identity of the state, as amended.  For a store that is not a
    hot-replacement store of a development build, [store.$state] is the
    registry's slot [pinia.state.value[id]], before and after any [$patch],
    and the slot holds the same reference after the patch as before: the
    patch writes into the object and never assigns the slot.  The code a
    patch runs (the mutator, the subscribers) is assumed not to assign the
    slot itself, and the state tree's root object not to be part of the
    state or of the partial state. *)
Theorem patch_keeps_state_identity fuel s arg w :
  let st := the_store w s in
  let p := s_pinia st in
  let id := s_id st in
  let root := p_state (the_pinia w p) in
  (DEV E && s_hot st) = false →
  (∀ c m v h, get (run_subscriber E c m v h).2 root id = get h root id) →
  match arg with
  | Mutator f => ∀ v h, get (f v h).2 root id = get h root id
  | Partial partialState =>
      ∀ t pl, state_slot w p id = VObj t → partialState = VObj pl →
              ∃ R : loc → Prop, closed R (w_heap w) ∧ R t ∧ R pl ∧ ¬ R root
  end →
  let w' := (patch E fuel s arg w).2 in
  (get_state E s w).1 = Ret (state_slot w p id)
  ∧ (get_state E s w').1 = Ret (state_slot w' p id)
  ∧ state_slot w' p id = state_slot w p id.
Proof.
  intros st p id root Hhot Hsub Harg w'.
  destruct (patch_consts fuel s arg w) as (Hp & Hid & Hpin & Hhot').
  fold w' in Hp, Hid, Hpin, Hhot'. fold st in Hid, Hpin, Hhot'.
  split; [|split].
  - unfold get_state, gets. cbn [fst]. fold st. by rewrite Hhot.
  - unfold get_state, gets. cbn [fst]. by rewrite Hhot', Hid, Hpin, Hhot.
  - unfold state_slot, the_pinia. rewrite Hp. fold (the_pinia w p). fold root.
    subst w'. rewrite patch_unfold. cbv zeta.
    destruct (patch_begin_world s w) as (Hh1 & Hp1 & _).
    destruct (patch_begin_consts s w) as (Hid1 & Hpin1 & _).
    fold st in Hid1, Hpin1. rewrite Hid1, Hpin1, Hh1.
    rewrite (state_slot_fields w (patch_begin s w)) by done.
    assert (get (patch_body fuel arg (state_slot w p id) (w_heap w)).2 root id
            = get (w_heap w) root id) as Hbody.
    { destruct arg as [f|partialState]; simpl; [apply Harg|].
      pose proof (merge_values_keeps_slot fuel (state_slot w p id) partialState
                    (w_heap w) root id) as Hm.
      unfold bind. destruct (merge_values _ _ _ _) as [[r|e|] h']; simpl in *;
        apply Hm; intros t pl; apply Harg. }
    destruct (patch_body _ _ _ _) as [[[]|e|] h2]; simpl in Hbody; try done.
    fold (patch_notifying s h2 w).
    rewrite round_keeps_slot by done.
    destruct (patch_notifying_world s h2 w) as (-> & _). done.
Qed.

(** *** [$reset] *)

Lemma assign_loop tl sl : ∀ ks h,
  tl ≠ sl → is_Some (h !! tl) →
  ∃ h', for_each ks (λ key, modify (λ h0, set h0 tl key (get h0 sl key))) h
        = (Ret tt, h')
      ∧ (∀ l, l ≠ tl → h' !! l = h !! l)
      ∧ is_Some (h' !! tl)
      ∧ (∀ k, get h' tl k = if decide (k ∈ ks) then get h sl k else get h tl k).
Proof.
  induction ks as [|k0 ks IH]; intros h Hne Htl.
  - exists h. repeat split; try done.
  - destruct (IH (set h tl k0 (get h sl k0)) Hne) as (h' & Hrun & Hfr & Htl' & Hget).
    { unfold set. rewrite lookup_alter_eq. destruct Htl as [o ->]. eauto. }
    exists h'. split; [|split; [|split]].
    + rewrite for_each_cons. unfold modify at 1. exact Hrun.
    + intros l Hl. rewrite (Hfr l Hl). unfold set. by rewrite lookup_alter_ne.
    + done.
    + intros k. rewrite Hget, !get_set.
      rewrite (decide_False (P := tl = sl ∧ _)) by (by intros [? _]).
      destruct (decide (k ∈ ks)) as [Hin|Hnin].
      * rewrite decide_True; [done | by right].
      * destruct (decide (k0 = k)) as [->|Hk].
        -- rewrite decide_True by done. rewrite decide_True; [done | by left].
        -- rewrite decide_False by (by intros (_ & ? & _)).
           rewrite decide_False; [done|].
           intros [->|?]%elem_of_cons; done.
Qed.

Lemma assign_objects tl sl h :
  tl ≠ sl → is_Some (h !! tl) →
  ∃ h', assign (VObj tl) (VObj sl) h = (Ret tt, h')
      ∧ (∀ l, l ≠ tl → h' !! l = h !! l)
      ∧ (∀ k, k ∈ keys h sl → get h' tl k = get h sl k).
Proof.
  intros Hne Htl.
  destruct (assign_loop tl sl (keys h sl) h Hne Htl) as (h' & Hrun & Hfr & _ & Hget).
  exists h'. split; [|split; [done|]].
  - unfold assign, bind, gets. exact Hrun.
  - intros k Hk. by rewrite Hget, decide_True.
Qed.

Definition reset_error (id : string) : value :=
  VStr ("🍍: Store " +:+ dquote +:+ id +:+ dquote
        +:+ " is built using the setup syntax and does not implement $reset().").

(** C7 — [$reset], as amended.  On an options store whose state initialiser
    returns a new object, [$reset] calls the initialiser again, assigns the
    properties of what it returns to the state through one [$patch], and so
    calls each state subscriber exactly once, with one [patchFunction]
    event; after it every property of the initial state holds its initial
    value (subscribers being assumed to return and to leave the state
    object alone).  On a setup store [$reset] throws in a development build
    and does nothing in a production build. *)
Theorem reset_semantics fuel s w st :
  w_stores w !! s = Some st →
  (s_isOptionsStore st = true →
   ∀ f nl sl h1,
     let root := p_state (the_pinia w (s_pinia st)) in
     let m := Mutation patchFunction (s_id st) None
                       (if DEV E then [] else s_debuggerEvents st) in
     s_stateInit st = Some f →
     run_state E f (w_heap w) = (Ret (VObj nl), h1) →
     get h1 root (s_id st) = VObj sl →
     sl ≠ nl → sl ≠ root → is_Some (h1 !! sl) →
     (∀ c, c ∈ s_subscriptions st →
           ∀ h, ∃ h', run_subscriber E c m (VObj sl) h = (Ret tt, h')
                      ∧ h' !! sl = h !! sl) →
     ∃ w', reset E fuel s w = (Ret tt, w')
         ∧ (∀ k, k ∈ keys h1 nl → get (w_heap w') sl k = get h1 nl k)
         ∧ w_trace w'
           = w_trace w ++ ((λ c, SubscriberCalled c m (VObj sl)) <$> s_subscriptions st))
  ∧ (s_isOptionsStore st = false →
     reset E fuel s w
     = if DEV E then (Throw (reset_error (s_id st)), w) else (Ret tt, w)).
Proof.
  intros Hs. split.
  - intros Hopt f nl sl h1 root m Hinit Hstate Hslot Hne Hroot Hsl Hsubs.
    unfold reset, bind at 1, gets at 1. cbn beta iota.
    rewrite (the_store_lookup _ _ _ Hs), Hopt, Hinit.
    unfold bind at 1, lift_heap at 1. rewrite Hstate. cbn beta iota.
    set (w1 := with_heap (λ _, h1) w).
    assert (w_stores w1 !! s = Some st) as Hs1 by done.
    destruct (assign_objects sl nl h1 Hne Hsl) as (h2 & Hassign & Hfr & Hget).
    assert (state_slot w1 (s_pinia st) (s_id st) = VObj sl) as Hslot1 by done.
    rewrite (patch_body_returns fuel s _ w1 h2);
      [|rewrite (the_store_lookup _ _ _ Hs1); cbn [patch_body]; by rewrite Hslot1].
    rewrite (the_store_lookup _ _ _ Hs1). cbn [patch_type patch_payload].
    change (p_state (the_pinia w1 (s_pinia st))) with root.
    assert (get h2 root (s_id st) = VObj sl) as ->.
    { unfold get, get_obj. rewrite (Hfr root) by done. exact Hslot. }
    fold m.
    destruct (round_all_return (λ h h', h' !! sl = h !! sl) (s_subscriptions st)
                (λ c, SubscriberCalled c m (VObj sl))
                (λ c, run_subscriber E c m (VObj sl))
                (λ _, eq_refl) (λ h1' h2' h3' H12 H23, eq_trans H23 H12)
                (patch_notifying s h2 w1) Hsubs) as (h' & Hround & Hkeep).
    eexists. split; [exact Hround|].
    destruct (patch_notifying_world s h2 w1) as (Hh3 & _ & Htr & _).
    split.
    + intros k Hk. unfold_world. rewrite Hh3 in Hkeep.
      unfold get at 1, get_obj. rewrite Hkeep. by apply Hget.
    + unfold_world. by rewrite Htr.
  - intros Hopt. unfold reset, bind, gets. cbn beta iota.
    rewrite (the_store_lookup _ _ _ Hs), Hopt. by destruct (DEV E).
Qed.

(** *** Wrapped actions *)

(** The first part of a call of a wrapped action: the registry becomes the
    active one, the two hook lists of the invocation are created empty, and
    the action listeners are called. *)
Definition wrap_listeners (s : store_ref) (name : string) (args : list value)
    : M World invocation :=
  do pinia <- gets (λ w, s_pinia (the_store w s));
  setActivePinia pinia ;;
  do inv <- new_invocation;
  do actionSubscriptions <- gets (λ w, s_actionSubscriptions (the_store w s));
  triggerSubscriptions actionSubscriptions (call_listener E inv name args s) ;;
  ret inv.

(** The receiver the action is applied to: [this && this.$id === $id ? this
    : store]. *)
Definition receiver_of (s : store_ref) (id : string) (this : option store_ref)
    (w : World) : store_ref :=
  match this with
  | Some t => if decide (s_id (the_store w t) = id) then t else s
  | None => s
  end.

(** The promise a wrapped action returns when the action returned the
    promise [p]. *)
Definition wrapped_promise (inv : invocation) (p : M heap settlement)
    : M World settlement :=
  promise_catch
    (promise_then (lift_heap p)
       (λ value,
          do hooks <- gets (afterCallbackList inv);
          triggerSubscriptions hooks (call_after E value) ;;
          ret value))
    (λ error,
       do hooks <- gets (onErrorCallbackList inv);
       triggerSubscriptions hooks (call_onError E error) ;;
       ret (Rejected error)).

Lemma wrapAction_unfold s name action this args w :
  wrapAction E s name action this args w
  = match wrap_listeners s name args w with
    | (Ret inv, w1) =>
        let receiver := receiver_of s (s_id (the_store w s)) this w1 in
        match run_action E action receiver args (w_heap w1) with
        | (Ret (Returns v), h2) =>
            match triggerSubscriptions (afterCallbackList inv (with_heap (λ _, h2) w1))
                    (call_after E v) (with_heap (λ _, h2) w1) with
            | (Ret _, w') => (Ret (WValue v), w')
            | (Throw e, w') => (Throw e, w')
            | (Fuel, w') => (Fuel, w')
            end
        | (Ret (ReturnsPromise p), h2) =>
            (Ret (WPromise (wrapped_promise inv p)), with_heap (λ _, h2) w1)
        | (Throw error, h2) =>
            match triggerSubscriptions
                    (onErrorCallbackList inv (with_heap (λ _, h2) w1))
                    (call_onError E error) (with_heap (λ _, h2) w1) with
            | (Ret _, w') => (Throw error, w')
            | (Throw e, w') => (Throw e, w')
            | (Fuel, w') => (Fuel, w')
            end
        | (Fuel, h2) => (Fuel, with_heap (λ _, h2) w1)
        end
    | (Throw e, w1) => (Throw e, w1)
    | (Fuel, w1) => (Fuel, w1)
    end.
Proof.
  unfold wrapAction, wrap_listeners, receiver_of, wrapped_promise.
  unfold bind, gets, ret, setActivePinia, modify, try_catch, throw.
  cbv beta iota.
  destruct (new_invocation _) as [[inv|e|] w0] eqn:Hinv; try done.
  destruct (triggerSubscriptions _ _ w0) as [[[]|e|] w1] eqn:Hl; try done.
  unfold lift_heap at 1 3.
  destruct (run_action E action _ args (w_heap w1)) as [[[v|p]|error|] h2];
    try done.
  destruct (triggerSubscriptions (onErrorCallbackList _ _) _ _) as [[[]|?|] ?];
    reflexivity.
Qed.

(** A round of action listeners that all return: each is called once, in
    order, and the hooks it registers are appended to the two lists of the
    invocation. *)
Lemma listeners_round inv name args s (hooks : cb → list cb * list cb) : ∀ l w,
  (∀ c, c ∈ l →
        ∀ h, ∃ h', run_listener E c name args s h = (Ret (hooks c), h')) →
  ∃ w', triggerSubscriptions l (call_listener E inv name args s) w = (Ret tt, w')
      ∧ w_afterLists w' !! inv
        = (λ x, x ++ mjoin ((fst ∘ hooks) <$> l)) <$> (w_afterLists w !! inv)
      ∧ w_onErrorLists w' !! inv
        = (λ x, x ++ mjoin ((snd ∘ hooks) <$> l)) <$> (w_onErrorLists w !! inv)
      ∧ w_trace w' = w_trace w ++ ((λ c, ListenerCalled c name args s) <$> l)
      ∧ w_stores w' = w_stores w ∧ w_pinias w' = w_pinias w
      ∧ w_activePinia w' = w_activePinia w.
Proof.
  unfold triggerSubscriptions.
  induction l as [|c l IH]; intros w Hret.
  - exists w. split; [done|]. cbn [fmap list_fmap mjoin list_join].
    rewrite app_nil_r. repeat split; try done.
    + destruct (_ !! inv); [|done]. cbn. by rewrite app_nil_r.
    + destruct (_ !! inv); [|done]. cbn. by rewrite app_nil_r.
  - destruct (Hret c (list_elem_of_here _ _) (w_heap w)) as (h1 & Hc).
    set (w1 := with_onErrorLists (alter (λ x, x ++ (hooks c).2) inv)
                 (with_afterLists (alter (λ x, x ++ (hooks c).1) inv)
                    (with_heap (λ _, h1)
                       (with_trace (λ t, t ++ [ListenerCalled c name args s]) w)))).
    destruct (IH w1) as (w' & Hrest & Ha & He & Htr & Hst & Hp & Hact).
    { intros c' Hin. apply Hret. by right. }
    exists w'. split; [|split; [|split; [|split]]].
    + rewrite for_each_cons. unfold call_listener at 1.
      unfold bind at 1. unfold log at 1, modify at 1. cbv beta iota.
      unfold bind at 1, lift_heap at 1. unfold_world. rewrite Hc. cbv beta iota.
      unfold bind at 1, modify at 1 2. cbv beta iota. exact Hrest.
    + rewrite Ha. subst w1. unfold_world. rewrite lookup_alter_eq.
      destruct (w_afterLists w !! inv); [|done]. cbn. by rewrite <-app_assoc.
    + rewrite He. subst w1. unfold_world. rewrite lookup_alter_eq.
      destruct (w_onErrorLists w !! inv); [|done]. cbn. by rewrite <-app_assoc.
    + rewrite Htr. subst w1. unfold_world. by rewrite fmap_cons, <-app_assoc.
    + by rewrite Hst, Hp, Hact.
Qed.

(** The first part of a call of a wrapped action whose listeners all
    return: the lists of the invocation hold the hooks the listeners
    registered, in the order the listeners were called. *)
Lemma wrap_listeners_returns s name args (hooks : cb → list cb * list cb) w :
  let st := the_store w s in
  (∀ c, c ∈ s_actionSubscriptions st →
        ∀ h, ∃ h', run_listener E c name args s h = (Ret (hooks c), h')) →
  ∃ inv w1, wrap_listeners s name args w = (Ret inv, w1)
      ∧ afterCallbackList inv w1 = mjoin ((fst ∘ hooks) <$> s_actionSubscriptions st)
      ∧ onErrorCallbackList inv w1 = mjoin ((snd ∘ hooks) <$> s_actionSubscriptions st)
      ∧ w_trace w1
        = w_trace w ++ ((λ c, ListenerCalled c name args s) <$> s_actionSubscriptions st)
      ∧ w_activePinia w1 = Some (s_pinia st)
      ∧ w_stores w1 = w_stores w ∧ w_pinias w1 = w_pinias w.
Proof.
  intros st Hret.
  set (inv := fresh (dom (w_afterLists w) ∪ dom (w_onErrorLists w))).
  set (w0 := with_onErrorLists (<[inv := []]>)
               (with_afterLists (<[inv := []]>)
                  (with_activePinia (Some (s_pinia st)) w))).
  destruct (listeners_round inv name args s hooks (s_actionSubscriptions st) w0 Hret)
    as (w1 & Hround & Ha & He & Htr & Hst & Hp & Hact).
  exists inv, w1. split; [|split; [|split]].
  - unfold wrap_listeners, bind at 1, gets at 1. cbv beta iota.
    unfold bind at 1, setActivePinia, modify at 1. cbv beta iota.
    unfold bind at 1, new_invocation. cbv beta iota zeta. unfold_world.
    fold st. fold inv. fold w0.
    unfold bind at 1, gets at 1. cbv beta iota.
    change (the_store w0 s) with st.
    unfold bind at 1. rewrite Hround. done.
  - unfold afterCallbackList. rewrite Ha. subst w0. unfold_world.
    by rewrite lookup_insert_eq.
  - unfold onErrorCallbackList. rewrite He. subst w0. unfold_world.
    by rewrite lookup_insert_eq.
  - by rewrite Htr, Hst, Hp, Hact.
Qed.

(** A round of hooks that all return. *)
Lemma after_round v l w :
  (∀ c, c ∈ l → ∀ h, ∃ h', run_hook E c v h = (Ret tt, h')) →
  ∃ w', triggerSubscriptions l (call_after E v) w = (Ret tt, w')
      ∧ w_trace w' = w_trace w ++ ((λ c, AfterCalled c v) <$> l)
      ∧ same_runtime w w'.
Proof.
  intros Hret.
  destruct (round_all_return (λ _ _, True) l (λ c, AfterCalled c v)
              (λ c, run_hook E c v) (λ _, I) (λ _ _ _ _ _, I) w) as (h' & Hround & _).
  { intros c Hc h. destruct (Hret c Hc h) as [h'' ?]. eauto. }
  eexists. split; [exact Hround|]. split; [done|]. by repeat split.
Qed.

Lemma onError_round e l w :
  (∀ c, c ∈ l → ∀ h, ∃ h', run_hook E c e h = (Ret tt, h')) →
  ∃ w', triggerSubscriptions l (call_onError E e) w = (Ret tt, w')
      ∧ w_trace w' = w_trace w ++ ((λ c, OnErrorCalled c e) <$> l)
      ∧ same_runtime w w'.
Proof.
  intros Hret.
  destruct (round_all_return (λ _ _, True) l (λ c, OnErrorCalled c e)
              (λ c, run_hook E c e) (λ _, I) (λ _ _ _ _ _, I) w) as (h' & Hround & _).
  { intros c Hc h. destruct (Hret c Hc h) as [h'' ?]. eauto. }
  eexists. split; [exact Hround|]. split; [done|]. by repeat split.
Qed.

(** C10 — after hooks of a synchronous completion.  When the listeners of
    a wrapped action have run and the action returns a value that is not a
    promise, the wrapper calls every after hook registered during this
    invocation, once each and in registration order, with the returned
    value, and only then returns that same value to its caller (the hooks
    being assumed to return). *)
Theorem wrapAction_calls_after_hooks_before_returning
    s name action this args w inv w1 v h2 :
  wrap_listeners s name args w = (Ret inv, w1) →
  run_action E action (receiver_of s (s_id (the_store w s)) this w1) args (w_heap w1)
  = (Ret (Returns v), h2) →
  (∀ c, c ∈ afterCallbackList inv w1 → ∀ h, ∃ h', run_hook E c v h = (Ret tt, h')) →
  ∃ w', wrapAction E s name action this args w = (Ret (WValue v), w')
      ∧ w_trace w'
        = w_trace w1 ++ ((λ c, AfterCalled c v) <$> afterCallbackList inv w1).
Proof.
  intros Hl Hact Hhooks.
  rewrite wrapAction_unfold, Hl. cbv zeta. rewrite Hact.
  destruct (after_round v (afterCallbackList inv w1) (with_heap (λ _, h2) w1) Hhooks)
    as (w' & Hround & Htr & _).
  change (afterCallbackList inv (with_heap (λ _, h2) w1))
    with (afterCallbackList inv w1).
  rewrite Hround. eauto.
Qed.

(** C5 — the outcome of an action passes through the wrapper.  When the
    listeners of a wrapped action have run:
    - if the action throws, every onError hook registered during this
      invocation is called with the error, and then the wrapper throws
      that same error;
    - if the action returns a promise, the wrapper returns a promise; when
      the action's promise rejects, the onError hooks are called with the
      error and the wrapper's promise rejects with that same error; when
      it fulfils, the after hooks are called with the value and the
      wrapper's promise fulfils with that same value.
    The hooks are assumed to return. *)
Theorem wrapAction_propagates_outcome s name action this args w inv w1 :
  wrap_listeners s name args w = (Ret inv, w1) →
  let receiver := receiver_of s (s_id (the_store w s)) this w1 in
  (∀ e h2,
     run_action E action receiver args (w_heap w1) = (Throw e, h2) →
     (∀ c, c ∈ onErrorCallbackList inv w1 →
           ∀ h, ∃ h', run_hook E c e h = (Ret tt, h')) →
     ∃ w', wrapAction E s name action this args w = (Throw e, w')
         ∧ w_trace w'
           = w_trace w1 ++ ((λ c, OnErrorCalled c e) <$> onErrorCallbackList inv w1))
  ∧ (∀ p h2,
       run_action E action receiver args (w_heap w1) = (Ret (ReturnsPromise p), h2) →
       ∃ q, wrapAction E s name action this args w
            = (Ret (WPromise q), with_heap (λ _, h2) w1)
          ∧ ∀ w3,
              (∀ e h4,
                 p (w_heap w3) = (Ret (Rejected e), h4) →
                 (∀ c, c ∈ onErrorCallbackList inv w3 →
                       ∀ h, ∃ h', run_hook E c e h = (Ret tt, h')) →
                 ∃ w', q w3 = (Ret (Rejected e), w')
                     ∧ w_trace w'
                       = w_trace w3
                         ++ ((λ c, OnErrorCalled c e) <$> onErrorCallbackList inv w3))
              ∧ (∀ v h4,
                   p (w_heap w3) = (Ret (Fulfilled v), h4) →
                   (∀ c, c ∈ afterCallbackList inv w3 →
                         ∀ h, ∃ h', run_hook E c v h = (Ret tt, h')) →
                   ∃ w', q w3 = (Ret (Fulfilled v), w')
                       ∧ w_trace w'
                         = w_trace w3
                           ++ ((λ c, AfterCalled c v) <$> afterCallbackList inv w3))).
Proof.
  intros Hl receiver. split.
  - intros e h2 Hact Hhooks.
    rewrite wrapAction_unfold, Hl. cbv zeta. fold receiver. rewrite Hact.
    destruct (onError_round e (onErrorCallbackList inv w1)
                (with_heap (λ _, h2) w1) Hhooks) as (w' & Hround & Htr & _).
    change (onErrorCallbackList inv (with_heap (λ _, h2) w1))
      with (onErrorCallbackList inv w1).
    rewrite Hround. eauto.
  - intros p h2 Hact. exists (wrapped_promise inv p). split.
    { rewrite wrapAction_unfold, Hl. cbv zeta. fold receiver. by rewrite Hact. }
    intros w3. split.
    + intros e h4 Hp Hhooks.
      destruct (onError_round e (onErrorCallbackList inv w3)
                  (with_heap (λ _, h4) w3) Hhooks) as (w' & Hround & Htr & _).
      change (onErrorCallbackList inv (with_heap (λ _, h4) w3))
        with (onErrorCallbackList inv w3) in Hround.
      exists w'. split; [|exact Htr].
      unfold wrapped_promise, promise_catch, promise_then.
      unfold bind at 1 2. unfold lift_heap at 1. rewrite Hp.
      unfold ret at 1. cbv beta iota.
      unfold bind at 1, gets at 1. unfold bind at 1.
      change (onErrorCallbackList inv (with_heap (λ _, h4) w3))
        with (onErrorCallbackList inv w3).
      by rewrite Hround.
    + intros v h4 Hp Hhooks.
      destruct (after_round v (afterCallbackList inv w3)
                  (with_heap (λ _, h4) w3) Hhooks) as (w' & Hround & Htr & _).
      exists w'. split; [|exact Htr].
      unfold wrapped_promise, promise_catch, promise_then.
      unfold bind at 1 2. unfold lift_heap at 1. rewrite Hp.
      cbv beta iota.
      unfold bind at 1, gets at 1. unfold bind at 1.
      change (afterCallbackList inv (with_heap (λ _, h4) w3))
        with (afterCallbackList inv w3).
      by rewrite Hround.
Qed.

End store_facts.

(** ** Construction of stores *)

Section construction.
Variable E : env.
Variable declared : nat → definition.
Variable hotUpdate : store_ref → store_ref → M World unit.

(** [pinia._s.get(id) === s] *)
Definition registered (w : World) (p : pinia_ref) (id : string) (s : store_ref)
    : Prop :=
  p_s (the_pinia w p) !! id = Some s.

(** Every store a registry holds exists, closes over that registry, and
    has the id it is registered under. *)
Definition well_formed (w : World) : Prop :=
  ∀ p id s, registered w p id s →
    ∃ st, w_stores w !! s = Some st ∧ s_pinia st = p ∧ s_id st = id.

(** What the construction of a store keeps: the stores registered stay
    registered, and the registries stay well formed. *)
Definition grows (w w' : World) : Prop :=
  (∀ p id s, registered w p id s → registered w' p id s)
  ∧ (well_formed w → well_formed w').

Lemma grows_refl w : grows w w.
Proof. by split. Qed.

Lemma grows_trans w1 w2 w3 : grows w1 w2 → grows w2 w3 → grows w1 w3.
Proof. intros [H1 H1'] [H2 H2']. split; eauto. Qed.

Lemma grows_same w w' :
  w_pinias w' = w_pinias w → w_stores w' = w_stores w → grows w w'.
Proof.
  intros Hp Hs. unfold grows, well_formed, registered, the_pinia.
  rewrite Hp, Hs. by split.
Qed.

Definition step_ok {A} (m : M World A) : Prop := ∀ w, grows w (m w).2.

Lemma step_ok_bind {A B} (m : M World A) (k : A → M World B) :
  step_ok m → (∀ a, step_ok (k a)) → step_ok (bind m k).
Proof.
  intros Hm Hk w.
  apply bind_inv; [apply grows_trans | apply Hm | intros a w'; apply Hk].
Qed.

Lemma step_ok_ret {A} (a : A) : step_ok (ret a).
Proof. intros w. apply grows_refl. Qed.

Lemma step_ok_throw {A} e : step_ok (throw (A := A) e).
Proof. intros w. apply grows_refl. Qed.

Lemma step_ok_out_of_fuel {A} : step_ok (out_of_fuel (A := A)).
Proof. intros w. apply grows_refl. Qed.

Lemma step_ok_gets {A} (f : World → A) : step_ok (gets f).
Proof. intros w. apply grows_refl. Qed.

Lemma step_ok_lift_heap {A} (m : M heap A) : step_ok (lift_heap m).
Proof.
  intros w. unfold lift_heap. destruct (m (w_heap w)) as [r h].
  by apply grows_same.
Qed.

Lemma step_ok_log e : step_ok (log e).
Proof. intros w. by apply grows_same. Qed.

Lemma step_ok_setActivePinia p : step_ok (setActivePinia p).
Proof. intros w. by apply grows_same. Qed.

Lemma step_ok_for_each {A} (l : list A) (body : A → M World unit) :
  (∀ a, step_ok (body a)) → step_ok (for_each l body).
Proof.
  intros Hbody. unfold step_ok.
  apply for_each_inv; [apply grows_refl | apply grows_trans |].
  intros a w. apply Hbody.
Qed.

Lemma step_ok_map_each {A B} (l : list A) (body : A → M World B) :
  (∀ a, step_ok (body a)) → step_ok (map_each l body).
Proof.
  intros Hbody. induction l as [|a l IH]; cbn [map_each].
  - apply step_ok_ret.
  - apply step_ok_bind; [apply Hbody|]. intros b.
    apply step_ok_bind; [apply IH|]. intros bs. apply step_ok_ret.
Qed.

Lemma step_ok_upd_store s f :
  (∀ st, s_pinia (f st) = s_pinia st ∧ s_id (f st) = s_id st) →
  step_ok (upd_store s f).
Proof.
  intros Hf w. unfold upd_store, modify. cbn [snd]. split; [done|].
  intros Hwf p id s0 Hreg. destruct (Hwf p id s0 Hreg) as (st & Hst & Hp & Hid).
  unfold_world. destruct (decide (s0 = s)) as [->|Hne].
  - exists (f st). rewrite lookup_alter_eq, Hst. split; [done|].
    destruct (Hf st) as [-> ->]. done.
  - exists st. by rewrite lookup_alter_ne.
Qed.

Ltac step_ok :=
  repeat first
    [ apply step_ok_ret | apply step_ok_throw | apply step_ok_gets
    | apply step_ok_lift_heap | apply step_ok_log | apply step_ok_setActivePinia
    | apply step_ok_out_of_fuel
    | apply step_ok_upd_store; intros ?; split; reflexivity
    | apply step_ok_bind; [|intros ?]
    | apply step_ok_for_each; intros ?
    | apply step_ok_map_each; intros ?
    | match goal with H : _ |- _ => apply H end
    | match goal with
      | |- step_ok (if ?b then _ else _) => destruct b
      | |- step_ok (match ?x with _ => _ end) => destruct x
      | |- step_ok (let '(_, _) := ?x in _) => destruct x
      end ].

Lemma step_ok_alloc_obj o : step_ok (alloc_obj o).
Proof. apply step_ok_lift_heap. Qed.

Lemma step_ok_set_state_slot pinia id v : step_ok (set_state_slot pinia id v).
Proof. unfold set_state_slot. step_ok. Qed.

Lemma step_ok_initial_state opts : step_ok (initial_state E opts).
Proof. unfold initial_state, alloc_obj. step_ok. Qed.

Lemma step_ok_setup_prop fuel id pinia hot iso initialState hotState kp :
  step_ok (setup_prop E fuel id pinia hot iso initialState hotState kp).
Proof. unfold setup_prop. step_ok. Qed.

Lemma step_ok_apply_plugin store extender : step_ok (apply_plugin E store extender).
Proof. unfold apply_plugin. step_ok. Qed.

Lemma step_ok_options_setup id opts pinia hot initialState :
  step_ok (options_setup E id opts pinia hot initialState).
Proof.
  pose proof (step_ok_initial_state opts).
  pose proof (step_ok_set_state_slot pinia id).
  unfold options_setup. step_ok.
Qed.

Lemma step_ok_run_setup (use : accessor) f :
  (∀ d p, step_ok (use d p)) → step_ok (run_setup use f).
Proof.
  intros Huse. induction f as [r|step k IH|d p k IH]; cbn [run_setup].
  - apply step_ok_ret.
  - apply step_ok_bind; [apply step_ok_lift_heap | done].
  - apply step_ok_bind; [apply Huse | done].
Qed.

Lemma step_ok_finish_store fuel id setup opts pinia hot iso partial :
  step_ok setup →
  step_ok (finish_store E fuel id setup opts pinia hot iso partial).
Proof.
  intros Hsetup.
  pose proof (step_ok_setup_prop fuel id pinia hot iso).
  pose proof step_ok_apply_plugin.
  unfold finish_store, install_setup.
  destruct partial as [[store initialState] hotState].
  step_ok.
Qed.

(** The partial store: the closure variables of a store that has just been
    created. *)
Definition partial_store (id : string) (opts : options) (pinia : pinia_ref)
    (hot isOptionsStore : bool) (hotState : loc) : store_state :=
  Store id pinia hot isOptionsStore (opt_state opts) false false [] [] None []
        hotState [].

(** The first part of [createSetupStore], by what it leaves: a new store,
    registered under [id]; nothing but the heap has changed otherwise. *)
Lemma register_partial_world id opts pinia hot iso w :
  match register_partial E id opts pinia hot iso w with
  | (Ret (store, initialState, hotState), w') =>
      initialState = state_slot w pinia id
      ∧ w_stores w !! store = None
      ∧ w_stores w'
        = <[store := partial_store id opts pinia hot iso hotState]> (w_stores w)
      ∧ w_pinias w'
        = alter (λ p, set_p_s (<[id := store]> (p_s p)) p) pinia (w_pinias w)
      ∧ w_trace w' = w_trace w ∧ w_activePinia w' = w_activePinia w
      ∧ w_injected w' = w_injected w
      ∧ (∀ l, is_Some (w_heap w !! l) → is_Some (w_heap w' !! l))
  | (_, w') => w_pinias w' = w_pinias w ∧ w_stores w' = w_stores w
  end.
Proof.
  unfold register_partial, bind at 1, gets at 1. cbv beta iota.
  destruct (DEV E && negb (p_active (the_pinia w pinia))); [done|].
  unfold bind at 1, gets at 1. cbv beta iota.
  match goal with
  | |- context [bind (if ?b then ?m else ret tt)] =>
      assert (∃ h1, (if b then m else ret tt) w = (Ret tt, with_heap (λ _, h1) w)
                    ∧ ∀ l, is_Some (w_heap w !! l) → is_Some (h1 !! l))
        as (h1 & Hfirst & Hh1)
  end.
  { match goal with
    | |- context [if ?b then _ else _] =>
        destruct b; [|exists (w_heap w); by destruct w]
    end.
    unfold bind, alloc_obj, set_state_slot, lift_heap, alloc, gets, modify.
    cbv beta iota zeta. unfold_world. eexists. split; [reflexivity|].
    intros l Hl. rewrite lookup_set. unfold_world.
    match goal with
    | |- context [<[?k := ?o]> ?h !! l] =>
        assert (is_Some (<[k := o]> h !! l)) as [o' ->]
          by (rewrite lookup_insert_is_Some; destruct (decide (k = l)); eauto)
    end.
    case_decide; eauto. }
  unfold bind at 1. rewrite Hfirst.
  unfold bind, alloc_obj, lift_heap, alloc, new_store, upd_pinia, modify, ret.
  cbv beta iota zeta. unfold_world.
  repeat split; try done.
  - apply not_elem_of_dom, is_fresh.
  - intros l Hl%Hh1. rewrite lookup_insert_is_Some.
    match goal with |- ?k = l ∨ _ => destruct (decide (k = l)); eauto end.
Qed.

Lemma register_partial_grows id opts pinia hot iso w :
  p_s (the_pinia w pinia) !! id = None →
  grows w (register_partial E id opts pinia hot iso w).2.
Proof.
  intros Hnone.
  pose proof (register_partial_world id opts pinia hot iso w) as Hw.
  destruct (register_partial _ _ _ _ _ _) as [[[[store init] hs]|e|] w'];
    cbn [snd]; [|by apply grows_same; destruct Hw..].
  destruct Hw as (_ & Hfresh & Hst & Hp & _).
  assert (∀ p0 id0 s0, registered w' p0 id0 s0 →
            registered w p0 id0 s0 ∨ (p0 = pinia ∧ id0 = id ∧ s0 = store)) as Hback.
  { unfold registered, the_pinia. rewrite Hp. intros p0 id0 s0.
    destruct (decide (p0 = pinia)) as [->|Hne];
      [|rewrite lookup_alter_ne by done; auto].
    rewrite lookup_alter_eq.
    destruct (w_pinias w !! pinia) as [P|];
      cbn [fmap option_fmap option_map from_option Datatypes.id p_s set_p_s]; [|auto].
    destruct (decide (id0 = id)) as [->|Hid].
    - rewrite lookup_insert_eq. intros [= <-]. auto.
    - rewrite lookup_insert_ne by done. auto. }
  split.
  - unfold registered, the_pinia. rewrite Hp. intros p0 id0 s0.
    destruct (decide (p0 = pinia)) as [->|Hne]; [|by rewrite lookup_alter_ne].
    rewrite lookup_alter_eq. unfold the_pinia in Hnone.
    destruct (w_pinias w !! pinia) as [P|];
      cbn [fmap option_fmap option_map from_option Datatypes.id p_s set_p_s] in *; [|done].
    intros Hreg. rewrite lookup_insert_ne; [done|]. intros <-. congruence.
  - intros Hwf p0 id0 s0 [Hreg|(-> & -> & ->)]%Hback.
    + destruct (Hwf _ _ _ Hreg) as (st & Hs0 & Hpin & Hid0). exists st.
      split; [|done].
      rewrite Hst, lookup_insert_ne; [done|]. intros ->. congruence.
    + eexists. rewrite Hst, lookup_insert_eq. done.
Qed.

Lemma registered_after_partial id opts pinia hot iso w store init hs w' :
  is_Some (w_pinias w !! pinia) →
  register_partial E id opts pinia hot iso w = (Ret (store, init, hs), w') →
  registered w' pinia id store.
Proof.
  intros [P HP] Hrp.
  pose proof (register_partial_world id opts pinia hot iso w) as Hw.
  rewrite Hrp in Hw. destruct Hw as (_ & _ & _ & Hp & _).
  unfold registered, the_pinia. rewrite Hp, lookup_alter_eq, HP.
  cbn [fmap option_fmap option_map from_option Datatypes.id p_s set_p_s]. apply lookup_insert_eq.
Qed.

Lemma bind_Ret {S A B} (m : M S A) (k : A → M S B) s b s' :
  bind m k s = (Ret b, s') → ∃ a s1, m s = (Ret a, s1) ∧ k a s1 = (Ret b, s').
Proof. unfold bind. destruct (m s) as [[a|e|] s1]; [eauto|done..]. Qed.

(** What [createSetupStore] returns is the store it registered. *)
Lemma finish_store_returns fuel id setup opts pinia hot iso store init hs w r w' :
  finish_store E fuel id setup opts pinia hot iso (store, init, hs) w = (Ret r, w') →
  r = store.
Proof.
  unfold finish_store, install_setup. intros H.
  repeat (apply bind_Ret in H as (? & ? & _ & H)).
  by injection H.
Qed.

Lemma createSetupStore_grows fuel id setup opts pinia hot iso w :
  step_ok setup →
  p_s (the_pinia w pinia) !! id = None →
  grows w (createSetupStore E fuel id setup opts pinia hot iso w).2.
Proof.
  intros Hsetup Hnone. unfold createSetupStore.
  apply bind_inv; [apply grows_trans | by apply register_partial_grows |].
  intros partial w'. by apply step_ok_finish_store.
Qed.

Lemma createSetupStore_registers fuel id setup opts pinia hot iso w s w' :
  step_ok setup → is_Some (w_pinias w !! pinia) →
  createSetupStore E fuel id setup opts pinia hot iso w = (Ret s, w') →
  registered w' pinia id s.
Proof.
  intros Hsetup HP Hc. unfold createSetupStore in Hc.
  apply bind_Ret in Hc as ([[store init] hs] & w1 & Hrp & Hfin).
  pose proof (finish_store_returns _ _ _ _ _ _ _ _ _ _ _ _ _ Hfin) as ->.
  pose proof (step_ok_finish_store fuel id setup opts pinia hot iso
                (store, init, hs) Hsetup w1) as [Hg _].
  rewrite Hfin in Hg. apply Hg. by eapply registered_after_partial.
Qed.

Lemma createOptionsStore_unfold fuel id opts pinia hot w :
  createOptionsStore E fuel id opts pinia hot w
  = createSetupStore E fuel id
      (options_setup E id opts pinia hot (state_slot w pinia id))
      opts pinia hot true w.
Proof. reflexivity. Qed.

(** What the accessor runs when no store is registered under the id. *)
Definition build (fuel : nat) (d : nat) (pinia : pinia_ref) : M World store_ref :=
  let decl := declared d in
  match d_setup decl with
  | Some setup =>
      createSetupStore E fuel (d_id decl)
        (run_setup (λ d' pinia', useStore E declared hotUpdate fuel d' pinia' None)
                   setup)
        (d_options decl) pinia false false
  | None => createOptionsStore E fuel (d_id decl) (d_options decl) pinia false
  end.

(** The registry a call of the accessor works on: the one resolved from
    its argument or by injection, else the active one. *)
Definition target_pinia (w : World) (arg : option pinia_ref) : option pinia_ref :=
  match resolve_pinia E w arg with
  | Some p => Some p
  | None => w_activePinia w
  end.

Ltac fetch_or_build p d :=
  unfold bind at 1, gets at 1; cbv beta iota;
  change (the_pinia (with_activePinia (Some p) ?w) p) with (the_pinia w p);
  let Hreg := fresh "Hreg" in
  destruct (p_s (the_pinia _ p) !! d_id (declared d)) as [?|] eqn:Hreg;
  [ rewrite bool_decide_true by eauto; cbn [negb];
    unfold bind, ret, gets; cbv beta iota;
    change (the_pinia (with_activePinia (Some p) ?w) p) with (the_pinia w p);
    by rewrite Hreg
  | rewrite bool_decide_false by (by intros [? ?]); cbn [negb];
    unfold build; cbv zeta;
    destruct (d_setup (declared d)) as [?|];
    [ unfold bind at 1 2;
      destruct (createSetupStore _ _ _ _ _ _ _ _) as [[?|?|] ?]; done
    | unfold bind at 1 2;
      destruct (createOptionsStore _ _ _ _ _ _ _) as [[?|?|] ?]; done ] ].

(** The accessor, called when [p] is the registry it works on: it makes
    [p] the active registry, then fetches the store registered under the
    id, after building it when there is none. *)
Lemma useStore_unfold n d arg w p :
  target_pinia w arg = Some p →
  useStore E declared hotUpdate (S n) d arg None w
  = let w0 := with_activePinia (Some p) w in
    match p_s (the_pinia w p) !! d_id (declared d) with
    | Some s => (Ret (Some s), w0)
    | None =>
        match build n d p w0 with
        | (Ret _, w1) => (Ret (p_s (the_pinia w1 p) !! d_id (declared d)), w1)
        | (Throw e, w1) => (Throw e, w1)
        | (Fuel, w1) => (Fuel, w1)
        end
    end.
Proof.
  unfold target_pinia. intros Ht. cbn [useStore]. unfold useStore_body. cbv zeta.
  unfold bind at 1, gets at 1.
  destruct (resolve_pinia E w arg) as [p'|] eqn:Hres; cbv beta iota.
  - injection Ht as ->.
    unfold bind at 1, setActivePinia, modify at 1. cbv beta iota.
    unfold bind at 1, gets at 1. unfold_world. cbv beta iota.
    fetch_or_build p d.
  - replace (with_activePinia (Some p) w) with w
      by (destruct w; cbn [w_activePinia] in Ht; by subst).
    unfold bind at 1, ret at 1. cbv beta iota.
    unfold bind at 1, gets at 1. rewrite Ht. cbv beta iota.
    fetch_or_build p d.
Qed.

Lemma build_grows n d p w :
  (∀ d' arg', step_ok (useStore E declared hotUpdate n d' arg' None)) →
  p_s (the_pinia w p) !! d_id (declared d) = None →
  grows w (build n d p w).2.
Proof.
  intros IH Hnone. unfold build. cbv zeta.
  destruct (d_setup (declared d)) as [setup|].
  - apply createSetupStore_grows; [|done]. apply step_ok_run_setup. intros; apply IH.
  - rewrite createOptionsStore_unfold.
    apply createSetupStore_grows; [|done]. apply step_ok_options_setup.
Qed.

Lemma useStore_grows n : ∀ d arg, step_ok (useStore E declared hotUpdate n d arg None).
Proof.
  induction n as [|n IH]; intros d arg w; [apply grows_refl|].
  destruct (target_pinia w arg) as [p|] eqn:Ht.
  - rewrite (useStore_unfold n d arg w p Ht). cbv zeta.
    assert (grows w (with_activePinia (Some p) w)) as H0 by (by apply grows_same).
    destruct (p_s (the_pinia w p) !! _) eqn:Hreg; [done|].
    pose proof (build_grows n d p (with_activePinia (Some p) w) IH Hreg) as Hb.
    destruct (build _ _ _ _) as [[?|?|] w1]; cbn [snd] in *; by eapply grows_trans.
  - unfold target_pinia in Ht. cbn [useStore]. unfold useStore_body. cbv zeta.
    unfold bind at 1, gets at 1.
    destruct (resolve_pinia E w arg) as [p'|] eqn:Hres; [done|]. cbv beta iota.
    unfold bind at 1, ret at 1. cbv beta iota.
    unfold bind at 1, gets at 1. rewrite Ht. cbv beta iota.
    destruct (DEV E); apply grows_refl.
Qed.

Lemma build_registers n d p w s w' :
  is_Some (w_pinias w !! p) →
  build n d p w = (Ret s, w') → registered w' p (d_id (declared d)) s.
Proof.
  intros HP. unfold build. cbv zeta. destruct (d_setup (declared d)) as [setup|].
  - apply createSetupStore_registers; [|done].
    apply step_ok_run_setup. intros; apply useStore_grows.
  - rewrite createOptionsStore_unfold.
    apply createSetupStore_registers; [|done]. apply step_ok_options_setup.
Qed.

(** When a store is registered under the id, the accessor returns it and
    builds nothing: only the active registry changes. *)
Lemma useStore_registered n d arg w p s :
  target_pinia w arg = Some p →
  registered w p (d_id (declared d)) s →
  useStore E declared hotUpdate (S n) d arg None w
  = (Ret (Some s), with_activePinia (Some p) w).
Proof.
  intros Ht Hreg. rewrite (useStore_unfold n d arg w p Ht). cbv zeta.
  unfold registered in Hreg. by rewrite Hreg.
Qed.

(** When the accessor returns, it returns a store, registered under the id
    in the registry it worked on. *)
Lemma useStore_returns_registered n d arg w p r w1 :
  target_pinia w arg = Some p → is_Some (w_pinias w !! p) →
  useStore E declared hotUpdate n d arg None w = (Ret r, w1) →
  ∃ s, r = Some s ∧ registered w1 p (d_id (declared d)) s.
Proof.
  intros Ht HP. destruct n as [|n]; [done|].
  rewrite (useStore_unfold n d arg w p Ht). cbv zeta.
  destruct (p_s (the_pinia w p) !! _) as [s|] eqn:Hreg.
  - intros [= <- <-]. by exists s.
  - destruct (build _ _ _ _) as [[s|?|] w'] eqn:Hb; [|done..].
    intros [= <- <-]. exists s.
    pose proof (build_registers n d p _ s w' (HP : is_Some
                  (w_pinias (with_activePinia (Some p) w) !! p)) Hb) as Hs.
    unfold registered in Hs. by rewrite Hs.
Qed.

Lemma build_fresh n d p w s w' :
  build n d p w = (Ret s, w') → w_stores w !! s = None.
Proof.
  unfold build. cbv zeta.
  destruct (d_setup (declared d)) as [setup|];
    [|rewrite createOptionsStore_unfold]; unfold createSetupStore;
    intros ([[store init] hs] & w1 & Hrp & Hfin)%bind_Ret;
    pose proof (finish_store_returns _ _ _ _ _ _ _ _ _ _ _ _ _ Hfin) as ->;
    match type of Hrp with
    | register_partial _ ?id ?opts ?p ?hot ?iso ?w = _ =>
        pose proof (register_partial_world id opts p hot iso w) as Hw
    end;
    rewrite Hrp in Hw; by destruct Hw as (_ & Hfresh & _).
Qed.

(** When no store is registered under the id, the store the accessor
    returns is one it has built. *)
Lemma useStore_builds n d arg w p s w1 :
  target_pinia w arg = Some p →
  p_s (the_pinia w p) !! d_id (declared d) = None →
  useStore E declared hotUpdate n d arg None w = (Ret (Some s), w1) →
  is_Some (w_pinias w !! p) →
  w_stores w !! s = None.
Proof.
  intros Ht Hnone Hrun HP. destruct n as [|n]; [done|].
  rewrite (useStore_unfold n d arg w p Ht) in Hrun. cbv zeta in Hrun.
  rewrite Hnone in Hrun.
  destruct (build _ _ _ _) as [[s'|?|] w'] eqn:Hb; [|done..].
  injection Hrun as Hs <-.
  pose proof (build_registers n d p _ s' w' (HP : is_Some
                (w_pinias (with_activePinia (Some p) w) !! p)) Hb) as Hreg.
  unfold registered in Hreg. rewrite Hreg in Hs. injection Hs as <-.
  apply (build_fresh _ _ _ _ _ _ Hb).
Qed.

(** C6 — idempotent accessor.  When the accessor of a declaration, called
    on a registry, returns, it returns a store registered under the
    declaration's id in that registry, and one it has just built if none
    was registered.  Called again on the same registry, it returns that
    same store and builds nothing: the world is unchanged but for the
    active registry.  Called then on another registry, it returns another
    store, registered in that other registry under the same id, and the
    first store stays registered in the first registry. *)
Theorem useStore_idempotent n d arg w p r w1 :
  well_formed w →
  target_pinia w arg = Some p → is_Some (w_pinias w !! p) →
  useStore E declared hotUpdate n d arg None w = (Ret r, w1) →
  let id := d_id (declared d) in
  ∃ s, r = Some s
     ∧ registered w1 p id s
     ∧ (p_s (the_pinia w p) !! id = None → w_stores w !! s = None)
     ∧ (∀ m arg', target_pinia w1 arg' = Some p →
          useStore E declared hotUpdate (S m) d arg' None w1
          = (Ret (Some s), with_activePinia (Some p) w1))
     ∧ (∀ m arg' q r' w2,
          q ≠ p → target_pinia w1 arg' = Some q → is_Some (w_pinias w1 !! q) →
          useStore E declared hotUpdate m d arg' None w1 = (Ret r', w2) →
          ∃ s' st st',
            r' = Some s' ∧ s' ≠ s
            ∧ registered w2 q id s' ∧ registered w2 p id s
            ∧ w_stores w2 !! s = Some st ∧ w_stores w2 !! s' = Some st'
            ∧ s_pinia st = p ∧ s_pinia st' = q
            ∧ s_id st = id ∧ s_id st' = id).
Proof.
  intros Hwf Ht HP Hrun id.
  destruct (useStore_returns_registered n d arg w p r w1 Ht HP Hrun)
    as (s & -> & Hreg).
  pose proof (useStore_grows n d arg w) as [Hg Hwf1].
  rewrite Hrun in Hg, Hwf1. cbn [snd] in Hg, Hwf1.
  exists s. split; [done|]. split; [done|]. split; [|split].
  - intros Hnone. by eapply useStore_builds.
  - intros m arg' Ht'. by apply useStore_registered.
  - intros m arg' q r' w2 Hne Ht' HQ Hrun2.
    destruct (useStore_returns_registered m d arg' w1 q r' w2 Ht' HQ Hrun2)
      as (s' & -> & Hreg').
    pose proof (useStore_grows m d arg' w1) as [Hg2 Hwf2].
    rewrite Hrun2 in Hg2, Hwf2. cbn [snd] in Hg2, Hwf2.
    specialize (Hwf2 (Hwf1 Hwf)).
    destruct (Hwf2 _ _ _ Hreg') as (st' & Hs' & Hq & Hid').
    destruct (Hwf2 _ _ _ (Hg2 _ _ _ Hreg)) as (st & Hs & Hp & Hid).
    exists s', st, st'. repeat split; try done; [|by apply Hg2].
    intros ->. congruence.
Qed.

(** C9 — the partial store is registered before the setup function runs.
    The first part of [createSetupStore] creates a new store with the base
    surface over fresh closure variables (no subscriber, no listener, no
    property of the setup function yet) and registers it under the id; the
    setup function runs after that, in the world where the store is
    registered.  From then on an accessor of a declaration with this id,
    called on this registry — from inside the setup function too, at any
    point of it — returns this store and builds nothing. *)
Theorem partial_store_registered_before_setup
    fuel id setup opts pinia hot iso w store initialState hotState w_pre :
  is_Some (w_pinias w !! pinia) →
  register_partial E id opts pinia hot iso w
  = (Ret (store, initialState, hotState), w_pre) →
  let use n := λ d' pinia', useStore E declared hotUpdate (S n) d' pinia' None in
  w_stores w !! store = None
  ∧ w_stores w_pre !! store = Some (partial_store id opts pinia hot iso hotState)
  ∧ registered w_pre pinia id store
  ∧ createSetupStore E fuel id setup opts pinia hot iso w
    = (let active := p_active (the_pinia w_pre pinia) in
       do setupStore <- (if active then setup else ret []);
       install_setup E fuel id opts pinia hot iso
                     (store, initialState, hotState) active setupStore) w_pre
  ∧ ∀ w2 n d arg,
      grows w_pre w2 →
      d_id (declared d) = id → target_pinia w2 arg = Some pinia →
      use n d arg w2 = (Ret (Some store), with_activePinia (Some pinia) w2)
      ∧ ∀ k, run_setup (use n) (SetupUse d arg k) w2
             = run_setup (use n) (k (Some store)) (with_activePinia (Some pinia) w2).
Proof.
  intros HP Hrp use.
  pose proof (register_partial_world id opts pinia hot iso w) as Hw.
  rewrite Hrp in Hw. destruct Hw as (_ & Hfresh & Hst & _).
  pose proof (registered_after_partial _ _ _ _ _ _ _ _ _ _ HP Hrp) as Hreg.
  split; [done|]. split; [by rewrite Hst, lookup_insert_eq|]. split; [done|].
  split.
  - unfold createSetupStore, bind at 1. rewrite Hrp. reflexivity.
  - intros w2 n d arg [Hg _] Hid Ht.
    assert (use n d arg w2 = (Ret (Some store), with_activePinia (Some pinia) w2))
      as Huse.
    { apply useStore_registered; [done|]. rewrite Hid. by apply Hg. }
    split; [done|]. intros k. cbn [run_setup]. unfold bind at 1. by rewrite Huse.
Qed.

(** *** Options stores *)

(** The warnings the getters of an options store cause in a development
    build: one per getter named like a field of the state, in the order of
    the getters. *)
Definition collision_warnings (id : string) (fields : list string)
    (getters : list (string * cb)) : list event :=
  (λ name, Warned (getter_collision_warning name id))
    <$> filter (λ name, name ∈ fields) getters.*1.

Lemma getters_loop id fields (dev : bool) getters : ∀ w,
  ∃ w', for_each getters
          (λ '(name, _),
             if dev && bool_decide (name ∈ fields)
             then log (Warned (getter_collision_warning name id))
             else ret tt) w
        = (Ret tt, w')
      ∧ w_trace w'
        = w_trace w ++ (if dev then collision_warnings id fields getters else [])
      ∧ w_heap w' = w_heap w ∧ w_pinias w' = w_pinias w
      ∧ w_stores w' = w_stores w.
Proof.
  unfold collision_warnings.
  induction getters as [|[name g] getters IH]; intros w.
  - exists w. split; [done|]. destruct dev; cbn; by rewrite app_nil_r.
  - rewrite for_each_cons.
    destruct dev; cbn [andb].
    + destruct (decide (name ∈ fields)) as [Hin|Hnin].
      * rewrite bool_decide_true by done.
        destruct (IH (with_trace (λ t, t ++ [Warned (getter_collision_warning name id)]) w))
          as (w' & Hrest & Htr & Hh & Hp & Hs).
        exists w'. split; [exact Hrest|]. split; [|done].
        rewrite Htr. unfold_world. cbn [fmap list_fmap fst].
        rewrite filter_cons_True by done. by rewrite fmap_cons, <-app_assoc.
      * rewrite bool_decide_false by done.
        destruct (IH w) as (w' & Hrest & Htr & Hh & Hp & Hs).
        exists w'. split; [exact Hrest|]. split; [|done].
        rewrite Htr. cbn [fmap list_fmap fst]. by rewrite filter_cons_False by done.
    + destruct (IH w) as (w' & Hrest & Htr & Hh & Hp & Hs).
      exists w'. by split.
Qed.

Lemma toRefs_keys h l : (toRefs h (VObj l)).*1 = keys h l.
Proof.
  unfold toRefs. rewrite <-list_fmap_compose. by rewrite list_fmap_id.
Qed.

Lemma keys_set_ne h l l' key v : l ≠ l' → keys (set h l key v) l' = keys h l'.
Proof.
  intros Hne. unfold keys, get_obj. by rewrite lookup_set, decide_False.
Qed.

(** The first part of [createSetupStore] returns unless the registry has
    been disposed of (in a development build). *)
Lemma register_partial_returns id opts pinia hot iso w :
  DEV E && negb (p_active (the_pinia w pinia)) = false →
  ∃ store hotState w1,
    register_partial E id opts pinia hot iso w
    = (Ret (store, state_slot w pinia id, hotState), w1).
Proof.
  intros Hact. unfold register_partial, bind at 1, gets at 1. cbv beta iota.
  rewrite Hact. unfold bind at 1, gets at 1. cbv beta iota.
  match goal with
  | |- context [bind (if ?b then ?m else ret tt)] =>
      assert (∃ h1, (if b then m else ret tt) w = (Ret tt, with_heap (λ _, h1) w))
        as [h1 Hfirst]
  end.
  { match goal with
    | |- context [if ?b then _ else _] =>
        destruct b; [|exists (w_heap w); by destruct w]
    end.
    unfold bind, alloc_obj, set_state_slot, lift_heap, alloc, gets, modify.
    cbv beta iota zeta. unfold_world. eauto. }
  unfold bind at 1. rewrite Hfirst.
  unfold bind, alloc_obj, lift_heap, alloc, new_store, upd_pinia, modify, ret.
  cbv beta iota zeta. eauto.
Qed.

(** The setup function of an options store whose state slot is empty and
    whose state initialiser returns a new object with the fields
    [fields]. *)
Lemma options_setup_returns id opts p w P f fields initialState :
  w_pinias w !! p = Some P →
  is_Some (w_heap w !! p_state P) →
  truthy initialState = false →
  opt_state opts = Some f →
  (∀ h, is_Some (h !! p_state P) →
        ∃ l h1, run_state E f h = (Ret (VObj l), h1)
                ∧ l ≠ p_state P ∧ is_Some (h1 !! p_state P) ∧ keys h1 l = fields) →
  ∃ props w',
    options_setup E id opts p false initialState w = (Ret props, w')
    ∧ w_trace w'
      = w_trace w
        ++ (if DEV E then collision_warnings id fields (opt_getters opts) else [])
    ∧ w_pinias w' = w_pinias w ∧ w_stores w' = w_stores w.
Proof.
  intros HP Hroot Hinit Hopt Hstate.
  destruct (Hstate (w_heap w) Hroot) as (l & h1 & Hrun & Hl & Hroot1 & Hkeys).
  unfold options_setup. rewrite Hinit. cbn [negb]. rewrite orb_true_r, !andb_false_r.
  cbn [andb].
  unfold bind at 1. unfold bind at 1. unfold initial_state. rewrite Hopt.
  unfold lift_heap at 1. rewrite Hrun.
  unfold set_state_slot, bind at 1, gets at 1. cbv beta iota.
  unfold lift_heap at 1, modify at 1. cbv beta iota.
  unfold the_pinia at 1. unfold_world. rewrite HP.
  cbn [from_option Datatypes.id].
  set (h2 := set h1 (p_state P) id (VObj l)).
  unfold bind at 1, gets at 1. cbv beta iota.
  assert (state_slot (with_heap (λ _, h2) (with_heap (λ _, h1) w)) p id = VObj l)
    as ->.
  { unfold state_slot, the_pinia. unfold_world. rewrite HP.
    cbn [from_option Datatypes.id]. subst h2. rewrite get_set.
    by rewrite decide_True. }
  unfold_world.
  destruct (getters_loop id (toRefs h2 (VObj l)).*1 (DEV E) (opt_getters opts)
              (with_heap (λ _, h2) (with_heap (λ _, h1) w)))
    as (w' & Hloop & Htr & _ & Hp & Hs).
  unfold bind at 1. rewrite Hloop. unfold ret.
  eexists _, w'. split; [reflexivity|]. split; [|done].
  rewrite Htr, toRefs_keys. subst h2. rewrite keys_set_ne by done.
  by rewrite Hkeys.
Qed.

(** The properties of an options store that is not a hot replacement:
    the functions are wrapped, nothing else changes. *)
Lemma setup_props_options fuel id p initialState hotState l : ∀ w,
  ∃ props, map_each l (setup_prop E fuel id p false true initialState hotState) w
           = (Ret props, w).
Proof.
  induction l as [|[key prop] l IH]; intros w; [by eexists|].
  destruct (IH w) as (props & Hrest).
  cbn [map_each]. unfold bind at 1.
  assert (∃ kp, setup_prop E fuel id p false true initialState hotState (key, prop) w
                = (Ret kp, w)) as [kp ->].
  { unfold setup_prop. rewrite andb_false_r. cbn [negb].
    destruct prop; by eexists. }
  unfold bind at 1. rewrite Hrest. by eexists.
Qed.

(** A round of plugins that all return. *)
Lemma plugins_round store l : ∀ w st,
  (∀ c, c ∈ l → ∀ h, ∃ ext h', run_plugin E c store h = (Ret ext, h')) →
  w_stores w !! store = Some st →
  ∃ w' props,
    for_each l (λ extender, apply_plugin E store extender) w = (Ret tt, w')
    ∧ w_stores w' !! store = Some (set_props props st)
    ∧ w_trace w' = w_trace w ∧ w_pinias w' = w_pinias w.
Proof.
  induction l as [|c l IH]; intros w st Hret Hst.
  - exists w, (s_props st). split; [done|]. split; [|done]. by destruct st.
  - destruct (Hret c (list_elem_of_here _ _) (w_heap w)) as (ext & h' & Hc).
    set (w1 := with_stores
                 (alter (λ st0, set_props (assign_props (s_props st0) ext) st0) store)
                 (with_heap (λ _, h') w)).
    destruct (IH w1 (set_props (assign_props (s_props st) ext) st))
      as (w' & props & Hrest & Hst' & Htr & Hp).
    { intros c' Hin. apply Hret. by right. }
    { subst w1. unfold_world. by rewrite lookup_alter_eq, Hst. }
    exists w', props. split; [|by split].
    rewrite for_each_cons. unfold apply_plugin at 1, bind at 1, lift_heap at 1.
    rewrite Hc. unfold upd_store, modify. exact Hrest.
Qed.

(** The construction of an options store, through to the end. *)
Lemma createOptionsStore_returns fuel id opts p w P f fields :
  w_pinias w !! p = Some P → p_active P = true →
  is_Some (w_heap w !! p_state P) →
  truthy (state_slot w p id) = false →
  opt_state opts = Some f →
  (∀ h, is_Some (h !! p_state P) →
        ∃ l h1, run_state E f h = (Ret (VObj l), h1)
                ∧ l ≠ p_state P ∧ is_Some (h1 !! p_state P) ∧ keys h1 l = fields) →
  (∀ c, c ∈ p_p P → ∀ s h, ∃ ext h', run_plugin E c s h = (Ret ext, h')) →
  ∃ s w' st,
    createOptionsStore E fuel id opts p false w = (Ret s, w')
    ∧ w_stores w !! s = None
    ∧ registered w' p id s
    ∧ w_stores w' !! s = Some st
    ∧ s_id st = id ∧ s_pinia st = p ∧ s_isOptionsStore st = true
    ∧ s_isListening st = true ∧ s_isSyncListening st = true
    ∧ w_trace w'
      = w_trace w
        ++ (if DEV E then collision_warnings id fields (opt_getters opts) else []).
Proof.
  intros HP Hact Hroot Hinit Hopt Hstate Hplug.
  rewrite createOptionsStore_unfold. unfold createSetupStore.
  destruct (register_partial_returns id opts p false true w)
    as (store & hs & w1 & Hrp).
  { unfold the_pinia. rewrite HP. cbn [from_option Datatypes.id].
    rewrite Hact. apply andb_false_r. }
  pose proof (register_partial_world id opts p false true w) as Hw.
  rewrite Hrp in Hw. destruct Hw as (_ & Hfresh & Hst1 & Hp1 & Htr1 & _ & _ & Hh1).
  unfold bind at 1. rewrite Hrp.
  assert (w_pinias w1 !! p = Some (set_p_s (<[id := store]> (p_s P)) P)) as HP1.
  { by rewrite Hp1, lookup_alter_eq, HP. }
  assert (p_active (the_pinia w1 p) = true) as Hact1.
  { unfold the_pinia. by rewrite HP1. }
  unfold finish_store, bind at 1, gets at 1. cbv beta iota. rewrite Hact1.
  destruct (options_setup_returns id opts p w1 _ f fields (state_slot w p id) HP1)
    as (props & w2 & Hsetup & Htr2 & Hp2 & Hst2); try done.
  { by apply Hh1. }
  unfold bind at 1. rewrite Hsetup. unfold install_setup.
  destruct (setup_props_options fuel id p (state_slot w p id) hs props w2)
    as (props' & Hprops).
  unfold bind at 1. rewrite Hprops.
  unfold bind at 1, upd_store at 1, modify at 1. cbv beta iota.
  set (w3 := with_stores _ w2).
  assert (w_stores w3 !! store
          = Some (set_props (assign_props [] props')
                    (partial_store id opts p false true hs))) as Hst3.
  { subst w3. unfold_world. by rewrite lookup_alter_eq, Hst2, Hst1, lookup_insert_eq. }
  assert (the_pinia w3 p = set_p_s (<[id := store]> (p_s P)) P) as HP3.
  { unfold the_pinia. subst w3. unfold_world. by rewrite Hp2, HP1. }
  unfold bind at 1, gets at 1. cbv beta iota. rewrite HP3.
  cbn [p_p set_p_s].
  destruct (plugins_round store (p_p P) w3 _ (λ c Hc, Hplug c Hc store) Hst3)
    as (w4 & props4 & Hplugins & Hst4 & Htr4 & Hp4).
  unfold bind at 1. rewrite Hplugins.
  rewrite Hinit. cbn [andb]. unfold bind at 1, ret at 1. cbv beta iota.
  unfold bind at 1, upd_store, modify, ret. cbv beta iota.
  eexists store, _, _. split; [reflexivity|]. split; [done|]. split; [|split].
  - unfold registered, the_pinia. unfold_world.
    rewrite Hp4. subst w3. unfold_world. rewrite Hp2, HP1.
    cbn [from_option Datatypes.id p_s set_p_s]. apply lookup_insert_eq.
  - unfold_world. rewrite lookup_alter_eq, Hst4. reflexivity.
  - repeat split. unfold_world. rewrite Htr4. subst w3. unfold_world.
    by rewrite Htr2, Htr1.
Qed.

(** The first call of the accessor of an options store returns: it builds
    the store and returns it. *)
Lemma useStore_options_returns n d arg w p P f fields :
  let id := d_id (declared d) in
  target_pinia w arg = Some p →
  w_pinias w !! p = Some P → p_active P = true →
  is_Some (w_heap w !! p_state P) →
  d_setup (declared d) = None →
  opt_state (d_options (declared d)) = Some f →
  p_s P !! id = None →
  truthy (state_slot w p id) = false →
  (∀ h, is_Some (h !! p_state P) →
        ∃ l h1, run_state E f h = (Ret (VObj l), h1)
                ∧ l ≠ p_state P ∧ is_Some (h1 !! p_state P) ∧ keys h1 l = fields) →
  (∀ c, c ∈ p_p P → ∀ s h, ∃ ext h', run_plugin E c s h = (Ret ext, h')) →
  ∃ s w1, useStore E declared hotUpdate (S n) d arg None w = (Ret (Some s), w1)
        ∧ w_stores w !! s = None
        ∧ registered w1 p id s.
Proof.
  intros id Ht HP Hact Hroot Hsetup Hopt Hnone Hinit Hstate Hplug.
  rewrite (useStore_unfold n d arg w p Ht). cbv zeta.
  unfold the_pinia at 1. rewrite HP. cbn [from_option Datatypes.id]. fold id.
  rewrite Hnone. unfold build. cbv zeta. rewrite Hsetup. fold id.
  destruct (createOptionsStore_returns n id (d_options (declared d)) p
              (with_activePinia (Some p) w) P f fields)
    as (s & w1 & st & -> & Hfresh & Hreg & _); try done.
  exists s, w1. split; [|done]. unfold registered in Hreg. by rewrite Hreg.
Qed.


End construction.

(** ** Further properties of the code *)

(** *** [subscriptions.ts] *)

Lemma removeSubscription_absent (l : list cb) (c : cb) :
  c ∉ l → removeSubscription l c = (l, false).
Proof.
  induction l as [|c' l IH]; intros Hnin; [done|].
  apply not_elem_of_cons in Hnin as [Hne Hnin]. cbn [removeSubscription].
  rewrite decide_False by done. by rewrite IH.
Qed.

Lemma removeSubscription_split (l1 l2 : list cb) (c : cb) :
  c ∉ l1 → removeSubscription (l1 ++ c :: l2) c = (l1 ++ l2, true).
Proof.
  induction l1 as [|c' l1 IH]; intros Hnin.
  - cbn [app removeSubscription]. by rewrite decide_True.
  - apply not_elem_of_cons in Hnin as [Hne Hnin]. cbn [app removeSubscription].
    rewrite decide_False by done. by rewrite (IH Hnin).
Qed.

(** X1 — the remover [addSubscription] returns.  When the callback is not
    in the array, the array is left as it is and [onCleanup] is not called;
    otherwise exactly its first occurrence is removed, the other callbacks
    keep their order, and [onCleanup] is called. *)
Theorem removeSubscription_first_occurrence (l : list cb) (c : cb) :
  (c ∉ l → removeSubscription l c = (l, false))
  ∧ (∀ l1 l2, l = l1 ++ c :: l2 → c ∉ l1 →
              removeSubscription l c = (l1 ++ l2, true)).
Proof.
  split; [apply removeSubscription_absent|].
  intros l1 l2 -> Hnin. by apply removeSubscription_split.
Qed.

(** X2 — subscribing and then unsubscribing.  The remover of a callback
    just added always finds it; what is left is the array as it was before
    the callback was added, up to order, and exactly as it was when the
    callback was not in it already.  A callback that was in it already is
    still subscribed: it has to be removed once per registration. *)
Theorem addSubscription_then_remove (l : list cb) (c : cb) :
  let r := removeSubscription (addSubscription l c) c in
  r.2 = true
  ∧ r.1 ≡ₚ l
  ∧ (c ∉ l → r.1 = l)
  ∧ (c ∈ l → c ∈ r.1).
Proof.
  cbv zeta. unfold addSubscription.
  destruct (decide (c ∈ l)) as [Hin|Hnin].
  - apply list_elem_of_split_l in Hin as (l1 & l2 & -> & Hnin).
    rewrite <-app_assoc. cbn [app].
    rewrite (removeSubscription_split l1 (l2 ++ [c]) c Hnin).
    cbn [fst snd]. split; [done|]. split; [|split].
    + apply Permutation_app_head. symmetry. apply Permutation_cons_append.
    + intros Hc. exfalso. apply Hc. set_solver.
    + intros _. set_solver.
  - rewrite (removeSubscription_split l [] c Hnin), app_nil_r. cbn [fst snd].
    repeat split; done.
Qed.


Section patch_edges.
Variable E : env.










End patch_edges.


Section lifecycle.
Variable E : env.
Variable declared : nat → definition.
Variable hotUpdate : store_ref → store_ref → M World unit.

(** The world [$dispose] leaves. *)
Definition disposed (s : store_ref) (st : store_state) (w : World) : World :=
  with_pinias (alter (λ P, set_p_s (delete (s_id st) (p_s P)) P) (s_pinia st))
    (with_stores (alter (λ st, set_actionSubscriptions []
                                 (set_subscriptions [] st)) s) w).

Lemma dispose_returns s w st :
  w_stores w !! s = Some st → dispose s w = (Ret tt, disposed s st w).
Proof.
  intros Hs. unfold dispose, bind, gets, upd_store, upd_pinia, modify.
  cbv beta iota. by rewrite (the_store_lookup _ _ _ Hs).
Qed.


(** The first part of [createSetupStore], for an options store: the heap
    gains the [hotState] object and nothing else. *)
Lemma register_partial_options_heap id opts pinia hot w :
  match register_partial E id opts pinia hot true w with
  | (Ret (store, init, hs), w1) =>
      w_heap w1 = <[hs := plain []]> (w_heap w) ∧ w_heap w !! hs = None
  | _ => True
  end.
Proof.
  unfold register_partial, bind at 1, gets at 1. cbv beta iota.
  destruct (DEV E && negb (p_active (the_pinia w pinia))); [done|].
  cbn [negb andb].
  unfold bind, gets, ret, alloc_obj, lift_heap, alloc, new_store, upd_pinia, modify.
  cbv beta iota zeta. unfold_world.
  split; [done|]. unfold fresh_loc. apply not_elem_of_dom, is_fresh.
Qed.

(** A round of plugins that all return, with a relation [I] each of them
    keeps between the heap before and after. *)
Lemma plugins_round_inv (I : heap → heap → Prop) store l :
  (∀ h, I h h) → (∀ h1 h2 h3, I h1 h2 → I h2 h3 → I h1 h3) →
  ∀ w st,
  (∀ c, c ∈ l → ∀ h, ∃ ext h', run_plugin E c store h = (Ret ext, h') ∧ I h h') →
  w_stores w !! store = Some st →
  ∃ w' props,
    for_each l (λ extender, apply_plugin E store extender) w = (Ret tt, w')
    ∧ w_stores w' !! store = Some (set_props props st)
    ∧ w_trace w' = w_trace w ∧ w_pinias w' = w_pinias w
    ∧ I (w_heap w) (w_heap w').
Proof.
  intros Hrefl Htrans. induction l as [|c l IH]; intros w st Hret Hst.
  - exists w, (s_props st). split; [done|]. split; [by destruct st|]. by repeat split.
  - destruct (Hret c (list_elem_of_here _ _) (w_heap w)) as (ext & h' & Hc & HI).
    set (w1 := with_stores
                 (alter (λ st0, set_props (assign_props (s_props st0) ext) st0) store)
                 (with_heap (λ _, h') w)).
    destruct (IH w1 (set_props (assign_props (s_props st) ext) st))
      as (w' & props & Hrest & Hst' & Htr & Hp & HI').
    { intros c' Hin. apply Hret. by right. }
    { subst w1. unfold_world. by rewrite lookup_alter_eq, Hst. }
    exists w', props. split; [|split; [done|split; [done|split; [done|]]]].
    + rewrite for_each_cons. unfold apply_plugin at 1, bind at 1, lift_heap at 1.
      rewrite Hc. unfold upd_store, modify. exact Hrest.
    + eapply Htrans; [exact HI | exact HI'].
Qed.

(** The construction of an options store whose slot of the state tree
    already holds a state: the state initialiser is not called. *)
Lemma createOptionsStore_adopts_state fuel id opts p w P l :
  w_pinias w !! p = Some P → p_active P = true →
  state_slot w p id = VObj l →
  (∀ c, c ∈ p_p P →
        ∀ s h, ∃ ext h', run_plugin E c s h = (Ret ext, h')
                         ∧ get h' (p_state P) id = get h (p_state P) id) →
  (∀ hydrate, opt_hydrate opts = Some hydrate →
        ∀ st init h, ∃ h', run_hydrate E hydrate st init h = (Ret tt, h')
                           ∧ get h' (p_state P) id = get h (p_state P) id) →
  ∃ s w',
    createOptionsStore E fuel id opts p false w = (Ret s, w')
    ∧ w_stores w !! s = None
    ∧ p_s (the_pinia w' p) !! id = Some s
    ∧ state_slot w' p id = VObj l
    ∧ s_isListening (the_store w' s) = true
    ∧ w_trace w'
      = w_trace w
        ++ (if DEV E
            then collision_warnings id (keys (w_heap w) l) (opt_getters opts)
            else []).
Proof.
  intros HP Hact Hslot Hplug Hhyd.
  assert (is_Some (w_heap w !! p_state P)) as Hroot.
  { unfold state_slot, the_pinia, get, get_obj in Hslot. rewrite HP in Hslot.
    cbn [from_option Datatypes.id] in Hslot.
    destruct (w_heap w !! p_state P); [eauto | done]. }
  rewrite createOptionsStore_unfold. unfold createSetupStore.
  destruct (register_partial_returns E id opts p false true w)
    as (store & hs & w1 & Hrp).
  { unfold the_pinia. rewrite HP. cbn [from_option Datatypes.id].
    rewrite Hact. apply andb_false_r. }
  pose proof (register_partial_world E id opts p false true w) as Hw.
  rewrite Hrp in Hw. destruct Hw as (_ & Hfresh & Hst1 & Hp1 & Htr1 & _).
  pose proof (register_partial_options_heap id opts p false w) as Hheap.
  rewrite Hrp in Hheap. destruct Hheap as [Hh1 Hhs].
  unfold bind at 1. rewrite Hrp. rewrite Hslot.
  assert (w_pinias w1 !! p = Some (set_p_s (<[id := store]> (p_s P)) P)) as HP1.
  { by rewrite Hp1, lookup_alter_eq, HP. }
  assert (the_pinia w1 p = set_p_s (<[id := store]> (p_s P)) P) as HtP1.
  { unfold the_pinia. by rewrite HP1. }
  assert (p_state P ≠ hs) as Hne.
  { intros <-. destruct Hroot as [o Ho]. congruence. }
  assert (∀ k, get (w_heap w1) (p_state P) k = get (w_heap w) (p_state P) k) as Hget1.
  { intros k. unfold get, get_obj. by rewrite Hh1, lookup_insert_ne. }
  assert (state_slot w1 p id = VObj l) as Hslot1.
  { unfold state_slot. rewrite HtP1. cbn [p_state set_p_s]. rewrite Hget1.
    unfold state_slot, the_pinia in Hslot. by rewrite HP in Hslot. }
  unfold finish_store, bind at 1, gets at 1. cbv beta iota. rewrite HtP1.
  cbn [p_active set_p_s p_p]. rewrite Hact.
  (* the setup function *)
  unfold options_setup. cbn [truthy negb andb]. rewrite andb_false_r.
  unfold bind at 1. unfold bind at 1, ret at 1. cbv beta iota.
  unfold bind at 1, gets at 1. cbv beta iota. rewrite Hslot1.
  destruct (getters_loop id (toRefs (w_heap w1) (VObj l)).*1 (DEV E)
              (opt_getters opts) w1) as (w2 & Hloop & Htr2 & Hh2 & Hp2 & Hst2).
  unfold bind at 1. rewrite Hloop. unfold ret at 1. cbv beta iota.
  (* the installation *)
  unfold install_setup.
  match goal with
  | |- context [map_each ?props _] =>
      destruct (setup_props_options E fuel id p (VObj l) hs props w2)
        as (props' & Hprops)
  end.
  unfold bind at 1. rewrite Hprops.
  unfold bind at 1, upd_store at 1, modify at 1. cbv beta iota.
  set (w3 := with_stores _ w2).
  assert (w_stores w3 !! store
          = Some (set_props (assign_props [] props')
                    (partial_store id opts p false true hs))) as Hst3.
  { subst w3. unfold_world. by rewrite lookup_alter_eq, Hst2, Hst1, lookup_insert_eq. }
  assert (the_pinia w3 p = set_p_s (<[id := store]> (p_s P)) P) as HP3.
  { unfold the_pinia. subst w3. unfold_world. by rewrite Hp2, HP1. }
  unfold bind at 1, gets at 1. cbv beta iota. rewrite HP3. cbn [p_p set_p_s].
  set (I := λ h h' : heap, get h' (p_state P) id = get h (p_state P) id).
  destruct (plugins_round_inv I store (p_p P) (λ _, eq_refl)
              (λ h1 h2 h3 H12 H23, eq_trans H23 H12) w3 _
              (λ c Hc, Hplug c Hc store) Hst3)
    as (w4 & props4 & Hplugins & Hst4 & Htr4 & Hp4 & HI4).
  unfold bind at 1. rewrite Hplugins. cbn [truthy andb].
  assert (the_pinia w4 p = set_p_s (<[id := store]> (p_s P)) P) as HP4.
  { unfold the_pinia. by rewrite Hp4, <-HP3. }
  assert (get (w_heap w4) (p_state P) id = VObj l) as Hslot4.
  { unfold I in HI4. rewrite HI4. subst w3. unfold_world. rewrite Hh2.
    unfold state_slot in Hslot1. by rewrite HtP1 in Hslot1. }
  assert (∃ w5, (match opt_hydrate opts with
                 | Some hydrate =>
                     do state <- gets (λ w0,
                       if DEV E && false then VObj hs else state_slot w0 p id);
                     lift_heap (run_hydrate E hydrate state (VObj l))
                 | None => ret tt
                 end) w4 = (Ret tt, w5)
                ∧ w_stores w5 = w_stores w4 ∧ w_pinias w5 = w_pinias w4
                ∧ w_trace w5 = w_trace w4
                ∧ get (w_heap w5) (p_state P) id = VObj l)
    as (w5 & Hhydrate & Hst5 & Hp5 & Htr5 & Hslot5).
  { destruct (opt_hydrate opts) as [hydrate|] eqn:Hopt; [|by exists w4].
    unfold bind, gets, lift_heap. cbv beta iota.
    destruct (Hhyd hydrate eq_refl
                (if DEV E && false then VObj hs else state_slot w4 p id)
                (VObj l) (w_heap w4)) as (h5 & -> & Hkeep).
    eexists. split; [reflexivity|]. unfold_world. by rewrite Hkeep. }
  unfold bind at 1. rewrite Hhydrate.
  unfold bind at 1, upd_store, modify, ret. cbv beta iota.
  eexists store, _. split; [reflexivity|]. split; [done|].
  split; [|split; [|split]].
  - unfold the_pinia. unfold_world. rewrite Hp5, Hp4. subst w3. unfold_world.
    rewrite Hp2, HP1. cbn [from_option Datatypes.id p_s set_p_s].
    apply lookup_insert_eq.
  - unfold state_slot, the_pinia. unfold_world. rewrite Hp5.
    fold (the_pinia w4 p). rewrite HP4. exact Hslot5.
  - rewrite the_store_alter_eq, Hst5, Hst4. done.
  - unfold_world. rewrite Htr5, Htr4. subst w3. unfold_world.
    rewrite Htr2, Htr1, toRefs_keys. unfold keys, get_obj.
    rewrite Hh1. destruct (decide (hs = l)) as [<-|Hl].
    + by rewrite lookup_insert_eq, Hhs.
    + by rewrite lookup_insert_ne.
Qed.

(** X7 — the state outlives the store.  After [$dispose] the slot of the
    state tree still holds the state.  The next call of the accessor of an
    options store with that id builds another store, which adopts that
    state: the state initialiser is not called again, and the slot holds
    the same object.  (The plugins and the [hydrate] option are assumed to
    return and not to assign the slot.) *)
Theorem state_survives_dispose n d arg w s st P l :
  let id := d_id (declared d) in
  let p := s_pinia st in
  let w1 := (dispose s w).2 in
  w_stores w !! s = Some st → s_id st = id →
  w_pinias w !! p = Some P → p_active P = true →
  d_setup (declared d) = None →
  state_slot w p id = VObj l →
  target_pinia E w1 arg = Some p →
  (∀ c, c ∈ p_p P →
        ∀ s h, ∃ ext h', run_plugin E c s h = (Ret ext, h')
                         ∧ get h' (p_state P) id = get h (p_state P) id) →
  (∀ hydrate, opt_hydrate (d_options (declared d)) = Some hydrate →
        ∀ st init h, ∃ h', run_hydrate E hydrate st init h = (Ret tt, h')
                           ∧ get h' (p_state P) id = get h (p_state P) id) →
  ∃ s' w2,
    useStore E declared hotUpdate (S n) d arg None w1 = (Ret (Some s'), w2)
    ∧ s' ≠ s
    ∧ p_s (the_pinia w2 p) !! id = Some s'
    ∧ state_slot w2 p id = VObj l.
Proof.
  intros id p w1 Hs Hid HP Hact Hsetup Hslot Ht Hplug Hhyd.
  subst w1 id p. rewrite (dispose_returns s w st Hs) in Ht |- *.
  cbn [snd] in Ht |- *.
  set (w1 := disposed s st w) in *.
  set (p := s_pinia st) in *. set (id := d_id (declared d)) in *.
  set (P1 := set_p_s (delete id (p_s P)) P).
  assert (w_pinias w1 !! p = Some P1) as HP1.
  { subst w1 p. unfold disposed. unfold_world. rewrite lookup_alter_eq, HP.
    cbn [fmap option_fmap option_map]. by rewrite Hid. }
  assert (state_slot w1 p id = VObj l) as Hslot1.
  { unfold state_slot, the_pinia. rewrite HP1.
    unfold state_slot, the_pinia in Hslot. by rewrite HP in Hslot. }
  rewrite (useStore_unfold E declared hotUpdate n d arg w1 p Ht). cbv zeta.
  unfold the_pinia at 1. rewrite HP1. cbn [from_option Datatypes.id].
  fold id. subst P1. cbn [p_s set_p_s]. rewrite lookup_delete_eq.
  unfold build. cbv zeta. rewrite Hsetup. fold id.
  destruct (createOptionsStore_adopts_state n id (d_options (declared d)) p
              (with_activePinia (Some p) w1) _ l HP1 Hact Hslot1 Hplug Hhyd)
    as (s' & w2 & -> & Hfresh & Hreg & Hslot2 & _).
  exists s', w2. rewrite Hreg. split; [done|]. split; [|by split].
  intros ->. revert Hfresh. subst w1. unfold disposed. unfold_world.
  by rewrite lookup_alter_eq, Hs.
Qed.

End lifecycle.


Section more_store_facts.
Variable E : env.
Variable declared : nat → definition.
Variable hotUpdate : store_ref → store_ref → M World unit.

(** X8 — assigning [store.$state].  On a hot-replacement store of a
    development build the assignment throws and changes nothing.  On any
    other store it goes through one [$patch] with a mutator that copies
    the properties of the new state onto the state object: each property
    of the new state is assigned (a nested object by reference, not
    merged), a property the new state does not have keeps its value, and
    each subscriber is called once with an event of type [patchFunction]
    (subscribers being assumed to return and to leave the state object
    alone). *)
Theorem set_state_assigns fuel s w st :
  w_stores w !! s = Some st →
  (DEV E && s_hot st = true →
   ∀ v, set_state E fuel s v w = (Throw (VStr "cannot set hotState"), w))
  ∧ (DEV E && s_hot st = false →
     ∀ nl sl,
       let root := p_state (the_pinia w (s_pinia st)) in
       let m := Mutation patchFunction (s_id st) None
                         (if DEV E then [] else s_debuggerEvents st) in
       state_slot w (s_pinia st) (s_id st) = VObj sl →
       sl ≠ nl → sl ≠ root → is_Some (w_heap w !! sl) →
       (∀ c, c ∈ s_subscriptions st →
             ∀ h, ∃ h', run_subscriber E c m (VObj sl) h = (Ret tt, h')
                        ∧ h' !! sl = h !! sl) →
       ∃ w', set_state E fuel s (VObj nl) w = (Ret tt, w')
           ∧ (∀ k, get (w_heap w') sl k
                   = if decide (k ∈ keys (w_heap w) nl)
                     then get (w_heap w) nl k else get (w_heap w) sl k)
           ∧ w_trace w'
             = w_trace w
               ++ ((λ c, SubscriberCalled c m (VObj sl)) <$> s_subscriptions st)).
Proof.
  intros Hs. split.
  - intros Hhot v. unfold set_state, bind, gets. cbv beta iota.
    by rewrite (the_store_lookup _ _ _ Hs), Hhot.
  - intros Hhot nl sl root m Hslot Hne Hroot Hsl Hsubs.
    unfold set_state, bind at 1, gets at 1. cbv beta iota.
    rewrite (the_store_lookup _ _ _ Hs), Hhot.
    destruct (assign_loop sl nl (keys (w_heap w) nl) (w_heap w) Hne Hsl)
      as (h2 & Hassign & Hfr & _ & Hget).
    rewrite (patch_body_returns E fuel s _ w h2);
      [|rewrite (the_store_lookup _ _ _ Hs); cbn [patch_body]; rewrite Hslot;
        unfold assign, bind, gets; exact Hassign].
    rewrite (the_store_lookup _ _ _ Hs). cbn [patch_type patch_payload].
    fold root.
    assert (get h2 root (s_id st) = VObj sl) as ->.
    { unfold get, get_obj. rewrite (Hfr root) by done. exact Hslot. }
    fold m.
    destruct (round_all_return (λ h h', h' !! sl = h !! sl) (s_subscriptions st)
                (λ c, SubscriberCalled c m (VObj sl))
                (λ c, run_subscriber E c m (VObj sl))
                (λ _, eq_refl) (λ h1' h2' h3' H12 H23, eq_trans H23 H12)
                (patch_notifying E s h2 w) Hsubs) as (h' & Hround & Hkeep).
    eexists. split; [exact Hround|].
    destruct (patch_notifying_world E s h2 w) as (Hh3 & _ & Htr & _).
    split.
    + intros k. unfold_world. rewrite Hh3 in Hkeep.
      unfold get at 1, get_obj. rewrite Hkeep. apply Hget.
    + unfold_world. by rewrite Htr.
Qed.

(** A patch object with no key, no entry and no element changes nothing. *)
Lemma merge_empty_patch n target patchToApply h :
  keys h patchToApply = [] →
  o_entries (get_obj h patchToApply) = [] →
  o_elems (get_obj h patchToApply) = [] →
  mergeReactiveObjects (S n) target patchToApply h = (Ret (VObj target), h).
Proof.
  intros Hk He Hs. cbn [mergeReactiveObjects].
  unfold bind at 1, gets at 1. cbv beta iota.
  assert (∀ b : bool,
            (if b
             then do es <- gets (λ h0, o_entries (get_obj h0 patchToApply));
                  for_each es (λ '(k, v), modify (λ h0, map_set h0 target k v))
             else ret tt) h = (Ret tt, h)) as Hmaps.
  { intros []; [|done]. unfold bind, gets. by rewrite He. }
  unfold bind at 1. rewrite Hmaps.
  unfold bind at 1, gets at 1. cbv beta iota.
  assert (∀ b : bool,
            (if b
             then do vs <- gets (λ h0, o_elems (get_obj h0 patchToApply));
                  for_each vs (λ v, modify (λ h0, set_add_elem h0 target v))
             else ret tt) h = (Ret tt, h)) as Hsets.
  { intros []; [|done]. unfold bind, gets. by rewrite Hs. }
  unfold bind at 1. rewrite Hsets.
  unfold bind, gets. by rewrite Hk.
Qed.

(** X9 — [$patch] with an empty object.  A patch object without any key
    (nor entry, nor element) leaves the heap exactly as it is; the patch
    returns all the same after calling every subscriber once, with an
    event of type [patchObject] whose payload is the empty object, and it
    starts a new listening cycle (new token, job queued). *)
Theorem patch_with_empty_object n s w st t pl :
  let m := Mutation patchObject (s_id st) (Some (VObj pl))
                    (if DEV E then [] else s_debuggerEvents st) in
  w_stores w !! s = Some st →
  state_slot w (s_pinia st) (s_id st) = VObj t →
  keys (w_heap w) pl = [] →
  o_entries (get_obj (w_heap w) pl) = [] →
  o_elems (get_obj (w_heap w) pl) = [] →
  (∀ c, c ∈ s_subscriptions st →
        ∀ h, ∃ h', run_subscriber E c m (VObj t) h = (Ret tt, h')) →
  patch_body (S n) (Partial (VObj pl)) (VObj t) (w_heap w) = (Ret tt, w_heap w)
  ∧ ∃ w', patch E (S n) s (Partial (VObj pl)) w = (Ret tt, w')
        ∧ w_trace w'
          = w_trace w ++ ((λ c, SubscriberCalled c m (VObj t)) <$> s_subscriptions st)
        ∧ w_microtasks w' = w_microtasks w ++ [ReEnableListening s (w_nextSymbol w)].
Proof.
  intros m Hs Hslot Hk He Hel Hsubs.
  assert (patch_body (S n) (Partial (VObj pl)) (VObj t) (w_heap w)
          = (Ret tt, w_heap w)) as Hbody.
  { cbn [patch_body merge_values]. unfold bind.
    by rewrite (merge_empty_patch n t pl (w_heap w) Hk He Hel). }
  split; [done|].
  pose proof (patch_returns_world E (S n) s (Partial (VObj pl)) w st (w_heap w) Hs)
    as Hworld. rewrite Hslot in Hworld. specialize (Hworld Hbody).
  cbv zeta in Hworld. destruct Hworld as (_ & _ & _ & Hq).
  pose proof (patch_body_returns E (S n) s (Partial (VObj pl)) w (w_heap w)) as Hrun.
  cbv zeta in Hrun. rewrite (the_store_lookup _ _ _ Hs), Hslot in Hrun.
  specialize (Hrun Hbody). rewrite Hrun in Hq |- *.
  cbn [patch_type patch_payload] in Hq |- *.
  assert (get (w_heap w) (p_state (the_pinia w (s_pinia st))) (s_id st) = VObj t)
    as Hget by exact Hslot.
  rewrite Hget in Hq |- *. fold m in Hq |- *.
  destruct (round_all_return (λ _ _, True) (s_subscriptions st)
              (λ c, SubscriberCalled c m (VObj t))
              (λ c, run_subscriber E c m (VObj t))
              (λ _, I) (λ _ _ _ _ _, I) (patch_notifying E s (w_heap w) w))
    as (h' & Hround & _).
  { intros c Hc h. destruct (Hsubs c Hc h) as [h'' ?]. eauto. }
  unfold triggerSubscriptions, call_subscriber in Hq |- *.
  rewrite Hround in Hq |- *. eexists. split; [reflexivity|].
  destruct (patch_notifying_world E s (w_heap w) w) as (_ & _ & Htr & _).
  split; [unfold_world; by rewrite Htr | exact Hq].
Qed.

(** X10 — the order of a call of a wrapped action.  When the listeners,
    the action and the hooks return, a call of a wrapped action makes the
    store's registry the active one, calls each action listener once, in
    registration order, with the name, the arguments and the store, then
    runs the action, then calls the after hooks the listeners of this very
    call registered, in the order they were registered, and returns what
    the action returned.  No onError hook is called, and no hook of an
    earlier call. *)
Theorem wrapAction_call_order s name action args w st
    (hooks : cb → list cb * list cb) v :
  w_stores w !! s = Some st →
  (∀ c, c ∈ s_actionSubscriptions st →
        ∀ h, ∃ h', run_listener E c name args s h = (Ret (hooks c), h')) →
  (∀ h, ∃ h', run_action E action s args h = (Ret (Returns v), h')) →
  (∀ c h, ∃ h', run_hook E c v h = (Ret tt, h')) →
  ∃ w', wrapAction E s name action None args w = (Ret (WValue v), w')
      ∧ w_trace w'
        = w_trace w
          ++ ((λ c, ListenerCalled c name args s) <$> s_actionSubscriptions st)
          ++ ((λ c, AfterCalled c v)
                <$> mjoin ((fst ∘ hooks) <$> s_actionSubscriptions st))
      ∧ w_activePinia w' = Some (s_pinia st)
      ∧ w_stores w' = w_stores w.
Proof.
  intros Hs Hlisteners Haction Hhooks.
  pose proof (wrap_listeners_returns E s name args hooks w) as Hwl.
  cbv zeta in Hwl. rewrite (the_store_lookup _ _ _ Hs) in Hwl.
  destruct (Hwl Hlisteners) as (inv & w1 & Hl & Hafter & _ & Htr1 & Hact & Hst & _).
  rewrite wrapAction_unfold, Hl. cbv zeta. cbn [receiver_of].
  destruct (Haction (w_heap w1)) as [h2 ->].
  change (afterCallbackList inv (with_heap (λ _, h2) w1))
    with (afterCallbackList inv w1).
  destruct (after_round E v (afterCallbackList inv w1) (with_heap (λ _, h2) w1))
    as (w' & Hround & Htr & (_ & Hst' & Hact' & _)).
  { intros c _ h. apply Hhooks. }
  rewrite Hround. exists w'. split; [done|]. split; [|split].
  - rewrite Htr. unfold_world. by rewrite Htr1, Hafter, app_assoc.
  - by rewrite Hact'.
  - by rewrite Hst'.
Qed.

(** X11 — the accessor without a registry.  When no registry is given,
    none is injected and none is active, the accessor throws and changes
    nothing. *)
Theorem useStore_without_registry n d arg hot w :
  target_pinia E w arg = None →
  ∃ e, useStore E declared hotUpdate (S n) d arg hot w = (Throw e, w).
Proof.
  unfold target_pinia. intros Ht. cbn [useStore]. unfold useStore_body. cbv zeta.
  unfold bind at 1, gets at 1.
  destruct (resolve_pinia E w arg) as [p|]; [done|]. cbv beta iota.
  unfold bind at 1, ret at 1. cbv beta iota.
  unfold bind at 1, gets at 1. rewrite Ht. cbv beta iota.
  destruct (DEV E); by eexists.
Qed.

(** X12 — a registry that has been destroyed.  In a development build the
    construction of a store in a registry whose scope is no longer active
    throws before anything is registered or run: the world is unchanged.
    So does the accessor of a store that is not registered yet, after
    making the registry the active one. *)
Theorem construction_in_destroyed_registry fuel id setup opts p hot iso w :
  DEV E = true → p_active (the_pinia w p) = false →
  createSetupStore E fuel id setup opts p hot iso w
  = (Throw (VStr "Pinia destroyed"), w)
  ∧ createOptionsStore E fuel id opts p hot w = (Throw (VStr "Pinia destroyed"), w)
  ∧ ∀ n d arg,
      target_pinia E w arg = Some p →
      p_s (the_pinia w p) !! d_id (declared d) = None →
      useStore E declared hotUpdate (S n) d arg None w
      = (Throw (VStr "Pinia destroyed"), with_activePinia (Some p) w).
Proof.
  intros Hdev Hact.
  assert (∀ fuel id setup opts hot iso w0,
            p_active (the_pinia w0 p) = false →
            createSetupStore E fuel id setup opts p hot iso w0
            = (Throw (VStr "Pinia destroyed"), w0)) as Hcreate.
  { intros fuel' id' setup' opts' hot' iso' w0 Hact0.
    unfold createSetupStore, register_partial, bind, gets, throw.
    cbv beta iota. by rewrite Hdev, Hact0. }
  split; [by apply Hcreate|]. split.
  - rewrite createOptionsStore_unfold. by apply Hcreate.
  - intros n d arg Ht Hnone.
    rewrite (useStore_unfold E declared hotUpdate n d arg w p Ht). cbv zeta.
    rewrite Hnone. unfold build. cbv zeta.
    destruct (d_setup (declared d)); [|rewrite createOptionsStore_unfold];
      by rewrite Hcreate.
Qed.

Lemma bind_gets {S A B} (f : S → A) (k : A → M S B) s :
  bind (gets f) k s = k (f s) s.
Proof. reflexivity. Qed.

(** X13 — the accessor in a test build.  In a test build, while the active
    registry is a testing registry, the accessor ignores the registry it
    is given: it behaves as when called without one. *)
Theorem useStore_ignores_argument_under_test n d q hot w a :
  TEST E = true → w_activePinia w = Some a → p_testing (the_pinia w a) = true →
  useStore E declared hotUpdate n d (Some q) hot w
  = useStore E declared hotUpdate n d None hot w.
Proof.
  intros Htest Ha Htesting. destruct n as [|n]; [done|].
  assert (resolve_pinia E w (Some q) = resolve_pinia E w None) as Hres.
  { unfold resolve_pinia. by rewrite Ha, Htest, Htesting. }
  cbn [useStore]. unfold useStore_body. cbv zeta.
  rewrite (bind_gets (λ w0, resolve_pinia E w0 (Some q))).
  rewrite (bind_gets (λ w0, resolve_pinia E w0 None)).
  cbv beta. by rewrite Hres.
Qed.

End more_store_facts.

(** *** [createPinia.ts]: plugins *)

Lemma pinia_use_all isVue2 p l : ∀ w P,
  w_pinias w !! p = Some P →
  ∃ w', for_each l (pinia_use isVue2 p) w = (Ret tt, w')
      ∧ w_pinias w' !! p
        = Some (if negb (p_a P) && negb isVue2
                then set_plugins (p_p P) (p_toBeInstalled P ++ l) (p_a P) P
                else set_plugins (p_p P ++ l) (p_toBeInstalled P) (p_a P) P)
      ∧ w_stores w' = w_stores w ∧ w_heap w' = w_heap w
      ∧ w_activePinia w' = w_activePinia w.
Proof.
  induction l as [|c l IH]; intros w P HP.
  - exists w. split; [done|]. split; [|done]. rewrite HP, !app_nil_r.
    by destruct P as [? ? ? ? []], isVue2.
  - set (P1 := if negb (p_a P) && negb isVue2
               then set_plugins (p_p P) (p_toBeInstalled P ++ [c]) (p_a P) P
               else set_plugins (p_p P ++ [c]) (p_toBeInstalled P) (p_a P) P).
    destruct (IH (with_pinias (alter (λ P,
                    if negb (p_a P) && negb isVue2
                    then set_plugins (p_p P) (p_toBeInstalled P ++ [c]) (p_a P) P
                    else set_plugins (p_p P ++ [c]) (p_toBeInstalled P) (p_a P) P) p) w)
                 P1) as (w' & Hrest & HP' & Hst & Hh & Hact).
    { unfold_world. by rewrite lookup_alter_eq, HP. }
    exists w'. split; [|split; [|done]].
    + rewrite for_each_cons. exact Hrest.
    + rewrite HP'. subst P1. destruct (p_a P), isVue2; cbn [negb andb p_a set_plugins p_p
        p_toBeInstalled p_state p_s p_active p_testing]; by rewrite <-app_assoc.
Qed.

(** X14 — plugins and the installation of the registry.  With Vue 3, on a
    registry not installed yet, [use] only queues the plugin: the list of
    plugins applied to new stores does not change.  [install] makes the
    registry the active one and moves the queued plugins, in the order
    they were given, behind the plugins already there; from then on [use]
    adds to that list directly.  No plugin is lost or duplicated.  With
    Vue 2, [use] adds to the list directly from the start. *)
Theorem plugins_wait_for_install p w P before after :
  w_pinias w !! p = Some P → p_a P = false →
  let w1 := (for_each before (pinia_use false p) w).2 in
  let w2 := (pinia_install false p w1).2 in
  let w3 := (for_each after (pinia_use false p) w2).2 in
  (p_p (the_pinia w1 p) = p_p P
   ∧ p_toBeInstalled (the_pinia w1 p) = p_toBeInstalled P ++ before)
  ∧ (p_p (the_pinia w2 p) = p_p P ++ p_toBeInstalled P ++ before
     ∧ p_toBeInstalled (the_pinia w2 p) = []
     ∧ w_activePinia w2 = Some p)
  ∧ (p_p (the_pinia w3 p) = p_p P ++ p_toBeInstalled P ++ before ++ after
     ∧ p_toBeInstalled (the_pinia w3 p) = []
     ∧ p_s (the_pinia w3 p) = p_s P ∧ p_state (the_pinia w3 p) = p_state P)
  ∧ p_p (the_pinia (for_each before (pinia_use true p) w).2 p) = p_p P ++ before.
Proof.
  intros HP Ha w1 w2 w3.
  assert (p_p (the_pinia (for_each before (pinia_use true p) w).2 p)
          = p_p P ++ before) as Hvue2.
  { destruct (pinia_use_all true p before w P HP) as (w' & -> & HP' & _).
    unfold the_pinia. cbn [snd]. rewrite HP', andb_false_r. done. }
  destruct (pinia_use_all false p before w P HP) as (w1' & Hrun1 & HP1 & _).
  assert (w1 = w1') as -> by (subst w1; by rewrite Hrun1).
  rewrite Ha in HP1. cbn [negb andb] in HP1. clear Hrun1.
  set (P1 := set_plugins (p_p P) (p_toBeInstalled P ++ before) false P) in *.
  set (P2 := set_plugins (p_p P1 ++ p_toBeInstalled P1) [] true P1).
  assert (w_pinias w2 !! p = Some P2 ∧ w_activePinia w2 = Some p) as [HP2 Hact2].
  { subst w2. unfold pinia_install. cbn [negb].
    unfold bind, setActivePinia, upd_pinia, modify.
    cbv beta iota. unfold_world. by rewrite lookup_alter_eq, HP1. }
  destruct (pinia_use_all false p after w2 P2 HP2) as (w3' & Hrun3 & HP3 & _).
  assert (w3 = w3') as -> by (subst w3; by rewrite Hrun3).
  cbn [negb andb p_a set_plugins P2] in HP3.
  unfold the_pinia in Hvue2 |- *. rewrite HP1, HP2, HP3.
  cbn [from_option Datatypes.id]. subst P2 P1.
  cbn [p_p p_toBeInstalled p_s p_state set_plugins].
  rewrite <-!app_assoc. done.
Qed.


Section hot_replacement.
Variable E : env.
Variable declared : nat → definition.
Variable hotUpdate : store_ref → store_ref → M World unit.

Lemma assoc_get_filter_ne {V} (key : string) (ps : list (string * V)) :
  assoc_get key (filter (λ kv, kv.1 ≠ key) ps) = None.
Proof.
  induction ps as [|[k v] ps IH]; [done|].
  destruct (decide (k = key)) as [->|Hne].
  - by rewrite filter_cons_False by (cbn; auto).
  - rewrite filter_cons_True by done. cbn [assoc_get].
    by rewrite decide_False by done.
Qed.

Lemma hasOwnProperty_delete_prop h l key :
  hasOwnProperty (delete_prop h l key) l key = false.
Proof.
  unfold hasOwnProperty, delete_prop, get_obj. rewrite lookup_alter_eq.
  apply bool_decide_eq_false. intros [v Hv].
  destruct (h !! l) as [o|]; cbn in Hv; [|done].
  by rewrite assoc_get_filter_ne in Hv.
Qed.

(** X15 — the [hot] argument of the accessor.  In a development build the
    accessor called with a store to replace builds a second store under
    the id ["__hot:" + id] and hands it to [_hotUpdate]; when the call
    returns, that id is registered no more and the state tree has no
    property of that name: the replacement store leaves nothing behind. *)
Theorem hot_replacement_leaves_nothing_behind n d arg hot w p r w' :
  let hotId := "__hot:" +:+ d_id (declared d) in
  DEV E = true →
  target_pinia E w arg = Some p →
  useStore E declared hotUpdate n d arg (Some hot) w = (Ret r, w') →
  p_s (the_pinia w' p) !! hotId = None
  ∧ hasOwnProperty (w_heap w') (p_state (the_pinia w' p)) hotId = false.
Proof.
  intros hotId Hdev Ht Hrun. destruct n as [|n]; [done|].
  cbn [useStore] in Hrun. unfold useStore_body in Hrun. cbv zeta in Hrun.
  rewrite Hdev in Hrun. unfold target_pinia in Ht.
  apply bind_Ret in Hrun as (pinia & w0 & Hres & Hrun).
  injection Hres as <- <-.
  apply bind_Ret in Hrun as ([] & w1 & Hset & Hrun).
  apply bind_Ret in Hrun as (activePinia & w1' & Hact & Hrun).
  injection Hact as <- <-.
  assert (w_activePinia w1 = Some p) as Hp.
  { destruct (resolve_pinia E w arg) as [p'|].
    - injection Ht as ->. by injection Hset as <-.
    - injection Hset as <-. exact Ht. }
  rewrite Hp in Hrun.
  apply bind_Ret in Hrun as (has & w2 & _ & Hrun).
  apply bind_Ret in Hrun as ([] & w3 & _ & Hrun).
  apply bind_Ret in Hrun as (store & w4 & _ & Hrun).
  apply bind_Ret in Hrun as ([] & w5 & Hhot & Hrun).
  injection Hrun as _ <-.
  apply bind_Ret in Hhot as (newStore & w6 & _ & Hhot).
  apply bind_Ret in Hhot as ([] & w7 & _ & Hhot).
  unfold bind, gets, lift_heap, upd_pinia, modify in Hhot. cbv beta iota in Hhot.
  injection Hhot as <-. fold hotId.
  assert (p_state (the_pinia
            (with_pinias (alter (λ P, set_p_s (delete hotId (p_s P)) P) p)
               (with_heap (λ _, delete_prop (w_heap w7)
                                  (p_state (the_pinia w7 p)) hotId) w7)) p)
          = p_state (the_pinia w7 p)) as Hroot.
  { unfold the_pinia. unfold_world. rewrite lookup_alter_eq.
    by destruct (w_pinias w7 !! p). }
  split.
  - unfold the_pinia. unfold_world. rewrite lookup_alter_eq.
    destruct (w_pinias w7 !! p) as [P|]; cbn; [apply lookup_delete_eq | done].
  - rewrite Hroot. unfold_world. apply hasOwnProperty_delete_prop.
Qed.

End hot_replacement.


Section setup_stores.
Variable E : env.

(** The properties of a setup object that are state: refs that are not
    computed, and reactive objects. *)
Definition is_state (prop : sprop) : bool :=
  match prop with
  | SRef _ | SReactive _ | SToRef _ _ => true
  | _ => false
  end.

(** A function of the setup object, once wrapped. *)
Definition wrap_prop (kp : string * sprop) : string * sprop :=
  match kp.2 with
  | SFunction f => (kp.1, SWrapped kp.1 f)
  | _ => kp
  end.

(** The writes [pinia.state.value[$id][key] = prop] of the loop over the
    setup object, on the state object [sl]. *)
Definition sync_state (sl : loc) (h : heap) (props : list (string * sprop)) : heap :=
  foldl (λ h kp, if is_state kp.2 then set h sl kp.1 (sprop_value h kp.2) else h)
        h props.

Lemma sync_state_cons sl h kp props :
  sync_state sl h (kp :: props)
  = sync_state sl (if is_state kp.2 then set h sl kp.1 (sprop_value h kp.2) else h)
               props.
Proof. reflexivity. Qed.

Lemma sync_state_other sl props : ∀ h l,
  l ≠ sl → sync_state sl h props !! l = h !! l.
Proof.
  induction props as [|[key prop] props IH]; intros h l Hne; [done|].
  rewrite sync_state_cons. cbn [fst snd].
  rewrite IH by done. destruct (is_state prop); [|done].
  by rewrite lookup_set, decide_False.
Qed.

Lemma sync_state_is_Some sl props : ∀ h,
  is_Some (h !! sl) → is_Some (sync_state sl h props !! sl).
Proof.
  induction props as [|[key prop] props IH]; intros h Hsl; [done|].
  rewrite sync_state_cons. cbn [fst snd]. apply IH.
  destruct (is_state prop); [|done].
  rewrite lookup_set, decide_True by done. destruct Hsl as [o ->]. by eexists.
Qed.

Lemma sync_state_get_other sl props key : ∀ h,
  key ∉ (filter (λ kp, is_state kp.2 = true) props).*1 →
  get (sync_state sl h props) sl key = get h sl key.
Proof.
  induction props as [|[k prop] props IH]; intros h Hnin; [done|].
  rewrite sync_state_cons. cbn [fst snd].
  destruct (is_state prop) eqn:Hst.
  - rewrite filter_cons_True in Hnin by done.
    cbn [fmap list_fmap fst] in Hnin. apply not_elem_of_cons in Hnin as [Hne Hnin].
    rewrite IH by done. rewrite get_set.
    rewrite decide_False; [done|]. intros (_ & ? & _). congruence.
  - rewrite filter_cons_False in Hnin by (cbn; congruence). by rewrite IH.
Qed.

Lemma sync_state_get_ref sl props key l : ∀ h,
  NoDup props.*1 → is_Some (h !! sl) →
  (key, SRef l) ∈ props ∨ (key, SReactive l) ∈ props →
  get (sync_state sl h props) sl key = VObj l.
Proof.
  induction props as [|[k prop] props IH]; intros h Hnd Hsl Hin.
  { destruct Hin as [Hin|Hin]; by apply elem_of_nil in Hin. }
  cbn [fmap list_fmap fst] in Hnd. apply NoDup_cons in Hnd as [Hk Hnd].
  rewrite sync_state_cons. cbn [fst snd].
  assert ((k, prop) = (key, SRef l) ∨ (k, prop) = (key, SReactive l)
          ∨ ((key, SRef l) ∈ props ∨ (key, SReactive l) ∈ props)) as Hcases.
  { destruct Hin as [[Heq|Hin]%elem_of_cons|[Heq|Hin]%elem_of_cons]; auto. }
  destruct Hcases as [[= -> ->]|[[= -> ->]|Hrest]].
  - cbn [is_state snd fst sprop_value]. rewrite sync_state_get_other.
    + rewrite get_set. by rewrite decide_True.
    + intros Hin'. apply Hk. apply list_elem_of_fmap in Hin' as (kp & -> & Hkp).
      apply list_elem_of_filter in Hkp as [_ Hkp].
      apply list_elem_of_fmap. by exists kp.
  - cbn [is_state snd fst sprop_value]. rewrite sync_state_get_other.
    + rewrite get_set. by rewrite decide_True.
    + intros Hin'. apply Hk. apply list_elem_of_fmap in Hin' as (kp & -> & Hkp).
      apply list_elem_of_filter in Hkp as [_ Hkp].
      apply list_elem_of_fmap. by exists kp.
  - apply IH; [done| |done]. destruct (is_state prop); [|done].
    rewrite lookup_set, decide_True by done. destruct Hsl as [o ->]. by eexists.
Qed.

(** The loop over the setup object of a setup store that is not a hot
    replacement and has no initial state to hydrate from. *)
Lemma setup_props_sync fuel id p initialState hotState sl root props : ∀ w,
  truthy initialState = false →
  p_state (the_pinia w p) = root → sl ≠ root →
  get (w_heap w) root id = VObj sl →
  ∃ w', map_each props
          (setup_prop E fuel id p false false initialState hotState) w
        = (Ret (wrap_prop <$> props), w')
      ∧ w_heap w' = sync_state sl (w_heap w) props
      ∧ w_pinias w' = w_pinias w ∧ w_stores w' = w_stores w
      ∧ w_trace w' = w_trace w.
Proof.
  intros w Hinit. revert w.
  induction props as [|[key prop] props IH]; intros w Hroot Hne Hslot.
  { exists w. by repeat split. }
  set (w1 := if is_state prop
             then with_heap (λ h, set h sl key (sprop_value h prop)) w else w).
  assert (setup_prop E fuel id p false false initialState hotState (key, prop) w
          = (Ret (wrap_prop (key, prop)), w1)) as Hstep.
  { unfold setup_prop, wrap_prop. subst w1. rewrite andb_false_r. cbn [negb fst snd].
    destruct prop; cbn [is_state]; try reflexivity.
    all: unfold bind at 1; unfold bind at 1, gets at 1; cbv beta iota;
      rewrite Hinit; cbn [andb];
      unfold bind at 1, ret at 1; cbv beta iota;
      unfold bind at 1, gets at 1; cbv beta iota;
      unfold state_slot; rewrite Hroot, Hslot;
      unfold lift_heap, modify, ret; by destruct w. }
  destruct (IH w1) as (w' & Hrest & Hh & Hp & Hs & Ht).
  { subst w1. by destruct (is_state prop). }
  { done. }
  { subst w1. destruct (is_state prop); [|done]. unfold_world.
    rewrite get_set, decide_False; [done|]. by intros (? & _). }
  exists w'. split; [|split; [|subst w1; destruct (is_state prop); by repeat split]].
  - cbn [map_each]. unfold bind at 1. rewrite Hstep.
    unfold bind at 1. rewrite Hrest. done.
  - rewrite Hh, sync_state_cons. cbn [snd fst]. subst w1.
    by destruct (is_state prop).
Qed.

(** The first part of [createSetupStore], for a setup store whose slot is
    empty: the slot receives a new, empty state object. *)
Lemma register_partial_setup_slot id opts p w P :
  w_pinias w !! p = Some P →
  is_Some (w_heap w !! p_state P) →
  truthy (state_slot w p id) = false →
  match register_partial E id opts p false false w with
  | (Ret (store, init, hs), w1) =>
      ∃ sl, w_heap w !! sl = None ∧ sl ≠ p_state P
            ∧ get (w_heap w1) (p_state P) id = VObj sl
            ∧ is_Some (w_heap w1 !! sl)
            ∧ get_obj (w_heap w1) sl = plain []
  | _ => True
  end.
Proof.
  intros HP Hroot Hinit.
  unfold register_partial, bind at 1, gets at 1. cbv beta iota.
  destruct (DEV E && negb (p_active (the_pinia w p))); [done|].
  unfold bind at 1, gets at 1. cbv beta iota.
  rewrite Hinit. cbn [negb andb]. rewrite orb_true_r.
  unfold alloc_obj, set_state_slot, new_store, upd_pinia.
  unfold bind, gets, ret, lift_heap, alloc, modify.
  cbv beta iota zeta. unfold the_pinia. unfold_world.
  rewrite HP. cbn [from_option Datatypes.id].
  set (sl := fresh_loc (w_heap w)).
  set (h1 := set (<[sl := plain []]> (w_heap w)) (p_state P) id (VObj sl)).
  assert (w_heap w !! sl = None) as Hfresh
    by (subst sl; unfold fresh_loc; apply not_elem_of_dom, is_fresh).
  assert (sl ≠ p_state P) as Hne.
  { intros Heq. rewrite Heq in Hfresh. destruct Hroot as [? ?]. congruence. }
  assert (h1 !! sl = Some (plain [])) as Hsl.
  { subst h1. by rewrite lookup_set, decide_False, lookup_insert_eq. }
  assert (is_Some (h1 !! p_state P)) as Hroot1.
  { subst h1. rewrite lookup_set, decide_True, lookup_insert_ne by done.
    destruct Hroot as [o ->]. by eexists. }
  assert (fresh_loc h1 ≠ sl ∧ fresh_loc h1 ≠ p_state P) as [Hhs1 Hhs2].
  { split; intros Heq; pose proof (is_fresh (dom h1)) as Hf;
      apply Hf; fold (fresh_loc h1); rewrite Heq; apply elem_of_dom; eauto. }
  exists sl. split; [done|]. split; [done|]. split; [|split].
  - unfold get, get_obj. rewrite lookup_insert_ne by done.
    fold (get_obj h1 (p_state P)). fold (get h1 (p_state P) id).
    subst h1. rewrite get_set. rewrite decide_True; [done|].
    split; [done|]. split; [done|]. rewrite lookup_insert_ne by done. exact Hroot.
  - rewrite lookup_insert_ne by done. eauto.
  - unfold get_obj. by rewrite lookup_insert_ne, Hsl.
Qed.

(** X16 — the state of a setup store.  When a setup store is built in a
    registry whose slot for the id is empty, the slot receives a new
    object before the setup function runs, and every ref and reactive
    object the setup function returns is stored in that object under its
    key: the state tree holds the very objects the store exposes.  The
    functions and the computed properties of the setup object are not
    stored in the state.  (The setup function and the plugins are assumed
    to return and to leave existing objects alone.) *)
Theorem setup_store_state_is_synced fuel id setup opts p w P props w_s P_s :
  let w_pre := (register_partial E id opts p false false w).2 in
  let root := p_state P in
  w_pinias w !! p = Some P → p_active P = true →
  is_Some (w_heap w !! root) →
  truthy (state_slot w p id) = false →
  setup w_pre = (Ret props, w_s) →
  NoDup props.*1 →
  w_pinias w_s !! p = Some P_s → p_state P_s = root →
  (∀ l, is_Some (w_heap w_pre !! l) → w_heap w_s !! l = w_heap w_pre !! l) →
  (∀ s, is_Some (w_stores w_pre !! s) → is_Some (w_stores w_s !! s)) →
  (∀ c, c ∈ p_p P_s →
        ∀ s h, ∃ ext h', run_plugin E c s h = (Ret ext, h')
                         ∧ ∀ l, is_Some (h !! l) → h' !! l = h !! l) →
  ∃ s sl w',
    createSetupStore E fuel id setup opts p false false w = (Ret s, w')
    ∧ w_stores w !! s = None ∧ w_heap w !! sl = None
    ∧ state_slot w' p id = VObj sl
    ∧ (∀ key l, (key, SRef l) ∈ props ∨ (key, SReactive l) ∈ props →
                get (w_heap w') sl key = VObj l)
    ∧ (∀ key, key ∉ (filter (λ kp, is_state kp.2 = true) props).*1 →
              get (w_heap w') sl key = VUndefined)
    ∧ s_isListening (the_store w' s) = true.
Proof.
  intros w_pre root HP Hact Hroot Hinit Hsetup Hnd HPs Hroots Hkeep Hstores Hplug.
  destruct (register_partial_returns E id opts p false false w)
    as (store & hs & w1 & Hrp).
  { unfold the_pinia. rewrite HP. cbn [from_option Datatypes.id].
    rewrite Hact. apply andb_false_r. }
  pose proof (register_partial_world E id opts p false false w) as Hw.
  rewrite Hrp in Hw. destruct Hw as (_ & Hfresh & Hst1 & Hp1 & _).
  pose proof (register_partial_setup_slot id opts p w P HP Hroot Hinit) as Hslot.
  rewrite Hrp in Hslot. destruct Hslot as (sl & Hsl & Hne & Hslot1 & Hsl1 & Hempty).
  subst w_pre. rewrite Hrp in Hsetup, Hkeep, Hstores. cbn [snd] in Hsetup, Hkeep, Hstores.
  assert (is_Some (w_heap w1 !! root)) as Hroot1.
  { pose proof (register_partial_world E id opts p false false w) as Hw.
    rewrite Hrp in Hw. destruct Hw as (_ & _ & _ & _ & _ & _ & _ & Hh). by apply Hh. }
  assert (the_pinia w1 p = set_p_s (<[id := store]> (p_s P)) P) as HtP1.
  { unfold the_pinia. by rewrite Hp1, lookup_alter_eq, HP. }
  unfold createSetupStore, bind at 1. rewrite Hrp.
  unfold finish_store, bind at 1, gets at 1. cbv beta iota. rewrite HtP1.
  cbn [p_active set_p_s]. rewrite Hact.
  unfold bind at 1. rewrite Hsetup. unfold install_setup.
  assert (get (w_heap w_s) root id = VObj sl ∧ w_heap w_s !! sl = w_heap w1 !! sl)
    as [Hslot_s Hsl_s].
  { split; [|by apply Hkeep]. unfold get, get_obj. by rewrite Hkeep. }
  destruct (setup_props_sync fuel id p (state_slot w p id) hs sl root props w_s)
    as (w3 & Hprops & Hh3 & Hp3 & Hst3 & _); try done.
  { unfold the_pinia. by rewrite HPs. }
  unfold bind at 1. rewrite Hprops.
  unfold bind at 1, upd_store at 1, modify at 1. cbv beta iota.
  set (w4 := with_stores _ w3).
  assert (is_Some (w_stores w4 !! store)) as [st4 Hst4].
  { subst w4. unfold_world. rewrite lookup_alter_eq, Hst3.
    destruct (Hstores store) as [st Hst]; [by rewrite Hst1, lookup_insert_eq|].
    rewrite Hst. by eexists. }
  assert (the_pinia w4 p = P_s) as HP4.
  { unfold the_pinia. subst w4. unfold_world. by rewrite Hp3, HPs. }
  unfold bind at 1, gets at 1. cbv beta iota. rewrite HP4.
  set (I := λ h h' : heap, ∀ l, is_Some (h !! l) → h' !! l = h !! l).
  destruct (plugins_round_inv E I store (p_p P_s)) with (w := w4) (st := st4)
    as (w5 & props5 & Hplugins & Hst5 & _ & Hp5 & HI5); try done.
  { intros h1 h2 h3 H12 H23 l Hl. rewrite H23, H12; [done..|]. by rewrite H12. }
  { intros c Hc h. apply (Hplug c Hc store h). }
  unfold bind at 1. rewrite Hplugins. rewrite andb_false_r.
  unfold bind at 1, ret at 1. cbv beta iota.
  unfold bind at 1, upd_store, modify, ret. cbv beta iota.
  assert (is_Some (w_heap w3 !! sl)) as Hsl3.
  { rewrite Hh3. apply sync_state_is_Some. by rewrite Hsl_s. }
  assert (w_heap w3 !! root = w_heap w_s !! root) as Hroot3.
  { rewrite Hh3. apply sync_state_other. done. }
  assert (∀ k, get (w_heap w5) sl k = get (w_heap w3) sl k) as Hget5.
  { intros k. unfold get, get_obj. by rewrite (HI5 sl Hsl3). }
  eexists store, sl, _. split; [reflexivity|]. split; [done|]. split; [done|].
  split; [|split; [|split]].
  - unfold state_slot, the_pinia. unfold_world. rewrite Hp5.
    fold (the_pinia w4 p). rewrite HP4, Hroots.
    unfold get, get_obj. rewrite (HI5 root).
    + change (w_heap w4) with (w_heap w3). rewrite Hroot3. exact Hslot_s.
    + change (w_heap w4) with (w_heap w3). rewrite Hroot3, Hkeep; done.
  - intros key l Hin. unfold_world. rewrite Hget5, Hh3.
    apply sync_state_get_ref; [done | by rewrite Hsl_s | done].
  - intros key Hnin. unfold_world. rewrite Hget5, Hh3.
    rewrite sync_state_get_other by done.
    unfold get, get_obj. rewrite Hsl_s.
    fold (get_obj (w_heap w1) sl). by rewrite Hempty.
  - rewrite the_store_alter_eq, Hst5. done.
Qed.

End setup_stores.

(** ** A small application

    One registry, the options store [counter] (its getter [count] is named
    like its state field), and two setup stores [a] and [b] whose setup
    functions call each other's accessor.  Subscribers and hooks do
    nothing; the listener [c] registers the after hook [c + 1] and the
    onError hook [c + 2]; action 0 returns 7, action 1 throws, action 2
    returns a promise that rejects and the others a promise that
    fulfils. *)

Definition ex_env (dev : bool) : env :=
  Env dev false
    (λ _ _ _, ret tt)
    (λ c _ _ _, ret ([c + 1], [c + 2]))
    (λ _ _, ret tt)
    (λ action _ _,
       match action with
       | 0 => ret (Returns (VNum 7))
       | 1 => throw (VStr "boom")
       | 2 => ret (ReturnsPromise (ret (Rejected (VStr "late"))))
       | _ => ret (ReturnsPromise (ret (Fulfilled (VNum 42))))
       end)
    (λ _ h, let '(h', l) := alloc h (plain [("count", VNum 1)]) in (Ret (VObj l), h'))
    (λ _ _ _, ret tt)
    (λ _ _, ret []).

Definition ex_options : options :=
  Options (Some 0) [("count", 7); ("double", 8)] [("increment", 0)] None.

Definition ex_declared (d : nat) : definition :=
  match d with
  | 0 => defineStore (IdOptions "counter" ex_options)
  | 1 => defineStore (IdSetup "a" (SetupUse 2 None (λ _, SetupReturn []))
                              (Options None [] [] None))
  | _ => defineStore (IdSetup "b" (SetupUse 1 None (λ _, SetupReturn []))
                              (Options None [] [] None))
  end.

Definition ex_hotUpdate : store_ref → store_ref → M World unit := λ _ _, ret tt.

Definition empty_world : World := MkWorld ∅ ∅ ∅ None None [] 0 ∅ ∅ [].

(** One registry (0), whose state tree is the object 0. *)
Definition ex_registry : World := (createPinia empty_world).2.

(** Two registries (0 and 1). *)
Definition ex_registries : World := (createPinia ex_registry).2.

(** The store [counter] (0) in the registry 0, with state object 2, two
    state subscribers (100, 101) and one action listener (200), after the
    direct write [count = 5]; the object 3 is [{count: 100}]. *)
Definition ex_world (dev : bool) : World :=
  ((useStore (ex_env dev) ex_declared ex_hotUpdate 2 0 (Some 0) None ;;
    subscribe 0 100 ;; subscribe 0 101 ;; onAction 0 200 ;;
    lift_heap (modify (λ h, set h 2 "count" (VNum 5))) ;;
    alloc_obj (plain [("count", VNum 100)])) ex_registry).2.

(** [state => { state.count = 9 }] *)
Definition ex_mutator (state : value) : M heap unit :=
  match state with
  | VObj l => modify (λ h, set h l "count" (VNum 9))
  | _ => throw (VStr "TypeError")
  end.


Lemma well_formed_empty_world : well_formed empty_world.
Proof. intros p id s. unfold registered, the_pinia. cbn. by rewrite lookup_empty. Qed.

Lemma createPinia_well_formed w : well_formed w → well_formed (createPinia w).2.
Proof.
  intros Hwf p id s. unfold registered, the_pinia.
  unfold createPinia, bind, alloc_obj, lift_heap, alloc, new_pinia.
  cbv beta iota zeta. unfold_world.
  destruct (decide (p = fresh (dom (w_pinias w)))) as [->|Hne].
  - rewrite lookup_insert_eq. cbn. by rewrite lookup_empty.
  - rewrite lookup_insert_ne by done. apply Hwf.
Qed.

Lemma run_eq {S A} (m : M S A) s r s' :
  (m s).1 = r → s' = (m s).2 → m s = (r, s').
Proof. intros <- ->. by destruct (m s). Qed.

Lemma lookup_the_pinia w p :
  is_Some (w_pinias w !! p) → w_pinias w !! p = Some (the_pinia w p).
Proof. unfold the_pinia. by intros [P ->]. Qed.

(** *** The properties, on the application *)



Lemma patch_keeps_state_identity_witness :
  let E := ex_env true in
  let w := ex_world true in
  let w' := (patch E 2 0 (Mutator ex_mutator) w).2 in
  (get_state E 0 w).1 = Ret (state_slot w 0 "counter")
  ∧ (get_state E 0 w').1 = Ret (state_slot w' 0 "counter")
  ∧ state_slot w' 0 "counter" = state_slot w 0 "counter".
Proof.
  intros E w w'.
  apply (patch_keeps_state_identity E 2 0 (Mutator ex_mutator) w).
  - reflexivity.
  - intros c m v h. reflexivity.
  - intros v h. destruct v; try reflexivity.
    cbn [ex_mutator modify snd]. rewrite get_set.
    rewrite decide_False; [reflexivity|]. by intros (_ & ? & _).
Defined.

Lemma reset_semantics_witness :
  let E := ex_env true in
  let w := ex_world true in
  let m := Mutation patchFunction "counter" None [] in
  get (w_heap w) 2 "count" = VNum 5
  ∧ ∃ w', reset E 2 0 w = (Ret tt, w')
        ∧ get (w_heap w') 2 "count" = VNum 1
        ∧ w_trace w'
          = w_trace w
            ++ [SubscriberCalled 100 m (VObj 2); SubscriberCalled 101 m (VObj 2)].
Proof.
  intros E w m. split; [vm_compute; reflexivity|].
  destruct (reset_semantics E 2 0 w (the_store w 0)) as [Hoptions _].
  { vm_compute. reflexivity. }
  destruct (Hoptions eq_refl 0 4 2 (run_state E 0 (w_heap w)).2)
    as (w' & Hrun & Hstate & Htr).
  - reflexivity.
  - vm_compute. reflexivity.
  - vm_compute. reflexivity.
  - discriminate.
  - discriminate.
  - eexists. vm_compute. reflexivity.
  - intros c _ h. by eexists.
  - exists w'. split; [exact Hrun|]. split; [|exact Htr].
    apply (Hstate "count"). vm_compute.
    apply list_elem_of_here.
Defined.

Lemma wrapAction_calls_after_hooks_before_returning_witness :
  let E := ex_env true in
  let w := ex_world true in
  let w1 := (wrap_listeners E 0 "increment" [] w).2 in
  ∃ w', wrapAction E 0 "increment" 0 None [] w = (Ret (WValue (VNum 7)), w')
      ∧ w_trace w'
        = w_trace w1 ++ ((λ c, AfterCalled c (VNum 7)) <$> afterCallbackList 0 w1).
Proof.
  intros E w w1.
  apply (wrapAction_calls_after_hooks_before_returning E 0 "increment" 0 None [] w
           0 w1 (VNum 7) (w_heap w1)).
  - vm_compute. reflexivity.
  - vm_compute. reflexivity.
  - intros c _ h. by eexists.
Defined.

Lemma wrapAction_propagates_outcome_witness :
  let E := ex_env true in
  let w := ex_world true in
  let w1 := (wrap_listeners E 0 "increment" [] w).2 in
  (∃ w', wrapAction E 0 "increment" 1 None [] w = (Throw (VStr "boom"), w')
       ∧ w_trace w' = w_trace w1 ++ [OnErrorCalled 202 (VStr "boom")])
  ∧ (∃ q w', wrapAction E 0 "increment" 2 None [] w = (Ret (WPromise q), w1)
           ∧ q w1 = (Ret (Rejected (VStr "late")), w')
           ∧ w_trace w' = w_trace w1 ++ [OnErrorCalled 202 (VStr "late")])
  ∧ (∃ q w', wrapAction E 0 "increment" 3 None [] w = (Ret (WPromise q), w1)
           ∧ q w1 = (Ret (Fulfilled (VNum 42)), w')
           ∧ w_trace w' = w_trace w1 ++ [AfterCalled 201 (VNum 42)]).
Proof.
  intros E w w1.
  assert (wrap_listeners E 0 "increment" [] w = (Ret 0, w1)) as Hl
    by (vm_compute; reflexivity).
  split; [|split].
  - destruct (wrapAction_propagates_outcome E 0 "increment" 1 None [] w 0 w1 Hl)
      as [Hthrow _].
    apply (Hthrow (VStr "boom") (w_heap w1)).
    + vm_compute. reflexivity.
    + intros c _ h. by eexists.
  - destruct (wrapAction_propagates_outcome E 0 "increment" 2 None [] w 0 w1 Hl)
      as [_ Hpromise].
    destruct (Hpromise (ret (Rejected (VStr "late"))) (w_heap w1))
      as (q & Hrun & Hsettle); [vm_compute; reflexivity|].
    destruct (Hsettle w1) as [Hreject _].
    destruct (Hreject (VStr "late") (w_heap w1)) as (w' & Hq & Htr);
      [reflexivity | intros c _ h; by eexists |].
    exists q, w'. split; [|by split]. rewrite Hrun. by destruct w1.
  - destruct (wrapAction_propagates_outcome E 0 "increment" 3 None [] w 0 w1 Hl)
      as [_ Hpromise].
    destruct (Hpromise (ret (Fulfilled (VNum 42))) (w_heap w1))
      as (q & Hrun & Hsettle); [vm_compute; reflexivity|].
    destruct (Hsettle w1) as [_ Hfulfil].
    destruct (Hfulfil (VNum 42) (w_heap w1)) as (w' & Hq & Htr);
      [reflexivity | intros c _ h; by eexists |].
    exists q, w'. split; [|by split]. rewrite Hrun. by destruct w1.
Defined.

Lemma useStore_idempotent_witness :
  let E := ex_env true in
  let use := useStore E ex_declared ex_hotUpdate in
  let w := ex_registries in
  let w1 := (use 2 0 (Some 0) None w).2 in
  let w2 := (use 2 0 (Some 1) None w1).2 in
  use 2 0 (Some 0) None w = (Ret (Some 0), w1)
  ∧ use 1 0 (Some 0) None w1 = (Ret (Some 0), with_activePinia (Some 0) w1)
  ∧ use 2 0 (Some 1) None w1 = (Ret (Some 1), w2)
  ∧ registered w2 0 "counter" 0 ∧ registered w2 1 "counter" 1.
Proof.
  intros E use w w1 w2.
  destruct (useStore_idempotent E ex_declared ex_hotUpdate 2 0 (Some 0) w 0
              (Some 0) w1) as (s & Hs & Hreg & _ & Hagain & Hother).
  - apply createPinia_well_formed, createPinia_well_formed, well_formed_empty_world.
  - reflexivity.
  - apply (bool_decide_unpack _). vm_compute. exact I.
  - apply (run_eq (use 2 0 (Some 0) None) w (Ret (Some 0)) w1);
      [vm_compute; reflexivity | reflexivity].
  - injection Hs as <-.
    destruct (Hother 2 (Some 1) 1 (Some 1) w2) as (s' & st & st' & Hs' & _ & Hq & Hp & _).
    + discriminate.
    + reflexivity.
    + apply (bool_decide_unpack _). vm_compute. exact I.
    + apply (run_eq (use 2 0 (Some 1) None) w1 (Ret (Some 1)) w2);
        [vm_compute; reflexivity | reflexivity].
    + injection Hs' as <-.
      split; [apply (run_eq (use 2 0 (Some 0) None) w (Ret (Some 0)) w1);
              [vm_compute; reflexivity | reflexivity]|].
      split; [apply (Hagain 0 (Some 0)); reflexivity|].
      split; [apply (run_eq (use 2 0 (Some 1) None) w1 (Ret (Some 1)) w2);
              [vm_compute; reflexivity | reflexivity]|].
      split; assumption.
Defined.

Lemma partial_store_registered_before_setup_witness :
  let E := ex_env true in
  let use n := λ d' pinia', useStore E ex_declared ex_hotUpdate (S n) d' pinia' None in
  let w := with_activePinia (Some 0) ex_registry in
  let a := Options None [] [] None in
  let setup := run_setup (use 1) (SetupUse 2 None (λ _, SetupReturn [])) in
  let w_pre := (register_partial E "a" a 0 false false w).2 in
  w_stores w !! 0 = None
  ∧ w_stores w_pre !! 0 = Some (partial_store "a" a 0 false false 2)
  ∧ registered w_pre 0 "a" 0
  ∧ createSetupStore E 2 "a" setup a 0 false false w
    = (let active := p_active (the_pinia w_pre 0) in
       do setupStore <- (if active then setup else ret []);
       install_setup E 2 "a" a 0 false false (0, VUndefined, 2) active setupStore) w_pre
  ∧ ∀ w2 n d arg,
      grows w_pre w2 →
      d_id (ex_declared d) = "a" → target_pinia E w2 arg = Some 0 →
      use n d arg w2 = (Ret (Some 0), with_activePinia (Some 0) w2)
      ∧ ∀ k, run_setup (use n) (SetupUse d arg k) w2
             = run_setup (use n) (k (Some 0)) (with_activePinia (Some 0) w2).
Proof.
  intros E use w a setup w_pre.
  apply (partial_store_registered_before_setup E ex_declared ex_hotUpdate
           2 "a" setup a 0 false false w 0 VUndefined 2 w_pre).
  - apply (bool_decide_unpack _). vm_compute. exact I.
  - apply (run_eq (register_partial E "a" a 0 false false) w
             (Ret (0, VUndefined, 2)) w_pre);
      [vm_compute; reflexivity | reflexivity].
Defined.


(** In a development build the [$state] of a hot-replacement store is its
    own [hotState] object (1), not the slot of the registry, which stays
    empty. *)
Lemma hot_store_state_is_not_the_slot :
  let E := ex_env true in
  let built := createOptionsStore E 2 "__hot:counter" ex_options 0 true ex_registry in
  built.1 = Ret 0
  ∧ s_hot (the_store built.2 0) = true
  ∧ (get_state E 0 built.2).1 = Ret (VObj 1)
  ∧ state_slot built.2 0 "__hot:counter" = VUndefined.
Proof.
  intros E built.
  split; [vm_compute; reflexivity|]. split; [vm_compute; reflexivity|].
  split; vm_compute; reflexivity.
Qed.

(** In a production build [$reset] on a setup store returns: it does not
    throw. *)
Lemma production_reset_of_setup_store_returns :
  let E := ex_env false in
  let built := useStore E ex_declared ex_hotUpdate 3 1 (Some 0) None ex_registry in
  built.1 = Ret (Some 0)
  ∧ s_isOptionsStore (the_store built.2 0) = false
  ∧ (reset E 2 0 built.2).1 = Ret tt
  ∧ w_trace (reset E 2 0 built.2).2 = w_trace built.2.
Proof.
  intros E built.
  split; [vm_compute; reflexivity|]. split; [vm_compute; reflexivity|].
  split; vm_compute; reflexivity.
Qed.



(** *** The further properties, on the application *)

(** The code of the application, except that the subscriber 101 throws;
    [test] is the constant [__TEST__]. *)
Definition edge_env (dev test : bool) : env :=
  Env dev test
    (λ c _ _, if decide (c = 101) then throw (VStr "bad") else ret tt)
    (run_listener (ex_env dev)) (run_hook (ex_env dev)) (run_action (ex_env dev))
    (run_state (ex_env dev)) (run_hydrate (ex_env dev)) (run_plugin (ex_env dev)).





Lemma state_survives_dispose_witness :
  let E := ex_env true in
  let w := ex_world true in
  let w1 := (dispose 0 w).2 in
  ∃ s' w2,
    useStore E ex_declared ex_hotUpdate 2 0 (Some 0) None w1 = (Ret (Some s'), w2)
    ∧ s' ≠ 0
    ∧ p_s (the_pinia w2 0) !! "counter" = Some s'
    ∧ state_slot w2 0 "counter" = VObj 2.
Proof.
  intros E w w1.
  apply (state_survives_dispose E ex_declared ex_hotUpdate 1 0 (Some 0) w 0
           (the_store w 0) (the_pinia w 0) 2).
  - vm_compute. reflexivity.
  - reflexivity.
  - apply lookup_the_pinia, (bool_decide_unpack _). vm_compute. exact I.
  - vm_compute. reflexivity.
  - reflexivity.
  - vm_compute. reflexivity.
  - vm_compute. reflexivity.
  - intros c Hc. vm_compute in Hc. by apply elem_of_nil in Hc.
  - intros hydrate Hh. discriminate Hh.
Defined.

Lemma set_state_assigns_witness :
  let E := ex_env true in
  let w := ex_world true in
  let m := Mutation patchFunction "counter" None [] in
  ∃ w', set_state E 2 0 (VObj 3) w = (Ret tt, w')
      ∧ get (w_heap w') 2 "count" = VNum 100
      ∧ w_trace w'
        = w_trace w ++ [SubscriberCalled 100 m (VObj 2); SubscriberCalled 101 m (VObj 2)].
Proof.
  intros E w m.
  destruct (set_state_assigns E 2 0 w (the_store w 0)) as [_ Hassign].
  { vm_compute. reflexivity. }
  destruct (Hassign eq_refl 3 2) as (w' & Hrun & Hget & Htr).
  - vm_compute. reflexivity.
  - discriminate.
  - discriminate.
  - apply (bool_decide_unpack _). vm_compute. exact I.
  - intros c _ h. by eexists.
  - exists w'. split; [exact Hrun|]. split; [|exact Htr].
    rewrite Hget. vm_compute. reflexivity.
Defined.

Lemma patch_with_empty_object_witness :
  let E := ex_env true in
  let w := ex_world true in
  let m := Mutation patchObject "counter" (Some (VObj 1)) [] in
  patch_body 2 (Partial (VObj 1)) (VObj 2) (w_heap w) = (Ret tt, w_heap w)
  ∧ ∃ w', patch E 2 0 (Partial (VObj 1)) w = (Ret tt, w')
        ∧ w_trace w'
          = w_trace w
            ++ ((λ c, SubscriberCalled c m (VObj 2)) <$> s_subscriptions (the_store w 0))
        ∧ w_microtasks w' = w_microtasks w ++ [ReEnableListening 0 (w_nextSymbol w)].
Proof.
  intros E w m.
  apply (patch_with_empty_object E 1 0 w (the_store w 0) 2 1).
  - vm_compute. reflexivity.
  - vm_compute. reflexivity.
  - vm_compute. reflexivity.
  - vm_compute. reflexivity.
  - vm_compute. reflexivity.
  - intros c _ h. by eexists.
Defined.

Lemma wrapAction_call_order_witness :
  let E := ex_env true in
  let w := ex_world true in
  ∃ w', wrapAction E 0 "increment" 0 None [] w = (Ret (WValue (VNum 7)), w')
      ∧ w_trace w'
        = w_trace w ++ [ListenerCalled 200 "increment" [] 0]
                    ++ [AfterCalled 201 (VNum 7)]
      ∧ w_activePinia w' = Some 0
      ∧ w_stores w' = w_stores w.
Proof.
  intros E w.
  apply (wrapAction_call_order E 0 "increment" 0 [] w (the_store w 0)
           (λ c, ([c + 1], [c + 2])) (VNum 7)).
  - vm_compute. reflexivity.
  - intros c _ h. by eexists.
  - intros h. by eexists.
  - intros c h. by eexists.
Defined.

Lemma useStore_without_registry_witness :
  ∃ e, useStore (ex_env true) ex_declared ex_hotUpdate 1 0 None None empty_world
       = (Throw e, empty_world).
Proof.
  apply (useStore_without_registry (ex_env true) ex_declared ex_hotUpdate 0 0
           None None empty_world).
  reflexivity.
Defined.

(** The registry of the application after its scope has been stopped. *)
Definition ex_destroyed : World :=
  with_pinias (alter (λ P, PiniaState (p_state P) (p_s P) (p_p P)
                             (p_toBeInstalled P) (p_a P) false (p_testing P)) 0)
              ex_registry.

Lemma construction_in_destroyed_registry_witness :
  let E := ex_env true in
  createSetupStore E 2 "a" (ret []) (Options None [] [] None) 0 false false ex_destroyed
  = (Throw (VStr "Pinia destroyed"), ex_destroyed)
  ∧ createOptionsStore E 2 "a" (Options None [] [] None) 0 false ex_destroyed
    = (Throw (VStr "Pinia destroyed"), ex_destroyed)
  ∧ ∀ n d arg,
      target_pinia E ex_destroyed arg = Some 0 →
      p_s (the_pinia ex_destroyed 0) !! d_id (ex_declared d) = None →
      useStore E ex_declared ex_hotUpdate (S n) d arg None ex_destroyed
      = (Throw (VStr "Pinia destroyed"), with_activePinia (Some 0) ex_destroyed).
Proof.
  intros E.
  apply (construction_in_destroyed_registry E ex_declared ex_hotUpdate 2 "a"
           (ret []) (Options None [] [] None) 0 false false ex_destroyed).
  - reflexivity.
  - vm_compute. reflexivity.
Defined.

(** The application under test: the registry 0 is a testing registry and
    the active one; the registry 1 is another registry. *)
Definition ex_testing : World :=
  with_activePinia (Some 0)
    (with_pinias (alter (λ P, PiniaState (p_state P) (p_s P) (p_p P)
                                (p_toBeInstalled P) (p_a P) (p_active P) true) 0)
                 ex_registries).

Lemma useStore_ignores_argument_under_test_witness :
  let E := edge_env true true in
  useStore E ex_declared ex_hotUpdate 2 0 (Some 1) None ex_testing
  = useStore E ex_declared ex_hotUpdate 2 0 None None ex_testing.
Proof.
  intros E.
  apply (useStore_ignores_argument_under_test E ex_declared ex_hotUpdate 2 0 1
           None ex_testing 0).
  - reflexivity.
  - reflexivity.
  - vm_compute. reflexivity.
Defined.

Lemma plugins_wait_for_install_witness :
  let w := ex_registry in
  let w1 := (for_each [1; 2] (pinia_use false 0) w).2 in
  let w2 := (pinia_install false 0 w1).2 in
  let w3 := (for_each [3] (pinia_use false 0) w2).2 in
  (p_p (the_pinia w1 0) = [] ∧ p_toBeInstalled (the_pinia w1 0) = [1; 2])
  ∧ (p_p (the_pinia w2 0) = [1; 2] ∧ p_toBeInstalled (the_pinia w2 0) = []
     ∧ w_activePinia w2 = Some 0)
  ∧ p_p (the_pinia w3 0) = [1; 2; 3].
Proof.
  intros w w1 w2 w3.
  destruct (plugins_wait_for_install 0 w (the_pinia w 0) [1; 2] [3])
    as ((H1 & H2) & (H3 & H4 & H5) & (H6 & _) & _).
  - apply lookup_the_pinia, (bool_decide_unpack _). vm_compute. exact I.
  - vm_compute. reflexivity.
  - split; [split; [exact H1 | exact H2]|].
    split; [split; [exact H3 | split; [exact H4 | exact H5]] | exact H6].
Defined.

Lemma hot_replacement_leaves_nothing_behind_witness :
  let E := ex_env true in
  let w := ex_world true in
  let w' := (useStore E ex_declared ex_hotUpdate 2 0 (Some 0) (Some 0) w).2 in
  p_s (the_pinia w' 0) !! ("__hot:" +:+ d_id (ex_declared 0)) = None
  ∧ hasOwnProperty (w_heap w') (p_state (the_pinia w' 0))
                   ("__hot:" +:+ d_id (ex_declared 0)) = false.
Proof.
  intros E w w'.
  apply (hot_replacement_leaves_nothing_behind E ex_declared ex_hotUpdate 2 0
           (Some 0) 0 w 0 (Some 0) w').
  - reflexivity.
  - vm_compute. reflexivity.
  - apply (run_eq (useStore E ex_declared ex_hotUpdate 2 0 (Some 0) (Some 0)) w
             (Ret (Some 0)) w'); [vm_compute; reflexivity | reflexivity].
Defined.

(** A setup function that creates one ref and returns it with a function
    and a computed property. *)
Definition ex_setup : M World (list (string * sprop)) :=
  do l <- alloc_obj (Obj TObject true false false [("value", VNum 0)] [] []);
  ret [("n", SRef l); ("inc", SFunction 0); ("twice", SComputed 8)].

Lemma ex_setup_keeps w :
  (∀ l, is_Some (w_heap w !! l) → w_heap (ex_setup w).2 !! l = w_heap w !! l)
  ∧ w_stores (ex_setup w).2 = w_stores w.
Proof.
  unfold ex_setup, alloc_obj, bind, lift_heap, alloc, ret. cbv beta iota zeta.
  cbn [snd]. unfold_world. split; [|done].
  intros l Hl. rewrite lookup_insert_ne; [done|].
  intros <-. apply (is_fresh (dom (w_heap w))). by apply elem_of_dom.
Qed.

Lemma setup_store_state_is_synced_witness :
  let E := ex_env true in
  let w := ex_registry in
  let opts := Options None [] [] None in
  let props := [("n", SRef 3); ("inc", SFunction 0); ("twice", SComputed 8)] in
  ∃ s sl w',
    createSetupStore E 2 "s" ex_setup opts 0 false false w = (Ret s, w')
    ∧ w_stores w !! s = None ∧ w_heap w !! sl = None
    ∧ state_slot w' 0 "s" = VObj sl
    ∧ (∀ key l, (key, SRef l) ∈ props ∨ (key, SReactive l) ∈ props →
                get (w_heap w') sl key = VObj l)
    ∧ (∀ key, key ∉ (filter (λ kp, is_state kp.2 = true) props).*1 →
              get (w_heap w') sl key = VUndefined)
    ∧ s_isListening (the_store w' s) = true.
Proof.
  intros E w opts props.
  set (w_pre := (register_partial E "s" opts 0 false false w).2).
  apply (setup_store_state_is_synced E 2 "s" ex_setup opts 0 w (the_pinia w 0)
           props (ex_setup w_pre).2 (the_pinia (ex_setup w_pre).2 0)).
  - apply lookup_the_pinia, (bool_decide_unpack _). vm_compute. exact I.
  - vm_compute. reflexivity.
  - apply (bool_decide_unpack _). vm_compute. exact I.
  - vm_compute. reflexivity.
  - apply (run_eq ex_setup w_pre (Ret props) (ex_setup w_pre).2);
      [vm_compute; reflexivity | reflexivity].
  - apply (bool_decide_unpack _). vm_compute. exact I.
  - apply lookup_the_pinia, (bool_decide_unpack _). vm_compute. exact I.
  - vm_compute. reflexivity.
  - apply (ex_setup_keeps w_pre).
  - intros s. destruct (ex_setup_keeps w_pre) as [_ ->]. done.
  - intros c Hc. vm_compute in Hc. by apply elem_of_nil in Hc.
Defined.

End Pinia.
